(** * Data cleaning utilities (src/cleaning.py): a shallow embedding

    The module under study is three short functions over pandas tables:
    [fill_missing_median], [drop_missing] and [normalize_data], with the
    helper [_coerce_columns].  The embedding has three layers.

    - [np]: binary64 arithmetic (the kernel's primitive floats, so every
      reduction below really rounds) and the NaN-skipping reductions that
      pandas runs on a float64 column.
    - [Series] and [DataFrame] values with the pandas methods the source
      calls ([copy], [select_dtypes], [median], [fillna], [dropna],
      [astype], column assignment).
    - A store of table objects addressed by reference, a small state and
      exception monad over it, and the four functions of cleaning.py written
      statement by statement in that monad.  Tables are mutable Python
      objects: the store is what makes "the input is not mutated" a
      statement with content.

    Modelling conventions.
    - dtypes: float64 (NaN is the missing marker), int64 (never missing)
      and object (strings, with None as the missing marker).
    - [DataFrame.dropna] follows the signature
      [dropna(axis=0, how='any', thresh=None, subset=None)], the one the
      call in [drop_missing] is written against (its docstring: "If
      provided, how is ignored").
    - Reductions add the cells in index order.
    - [print] appends a structured record to the store's output stream. *)

From Stdlib Require Import ZArith Floats.
From stdpp Require Import gmap strings list.

(** ** binary64 and the reductions of a float64 column *)

Module np.

Definition nan : float := PrimFloat.nan.

Definition isnan (x : float) : bool := PrimFloat.is_nan x.

(** Neither NaN nor an infinity. *)
Definition isfinite (x : float) : bool := PrimFloat.is_finite x.

(** Conversion of a Python int to a float: round to nearest, ties to even. *)
Definition of_Z (z : Z) : float :=
  SF2Prim (binary_normalize prec emax z 0 false).

Definition of_nat (n : nat) : float := of_Z (Z.of_nat n).

(** [ndarray.sum()]: the cells are added in index order. *)
Definition sum (xs : list float) : float := fold_left PrimFloat.add xs 0%float.

(** The non-missing cells of a column, in order. *)
Definition dropna (xs : list float) : list float :=
  filter (fun x => isnan x = false) xs.

(** [np.putmask(values, mask, 0)]: missing cells count as zero. *)
Definition fill0 (xs : list float) : list float :=
  map (fun x => if isnan x then 0%float else x) xs.

Definition fmin (a b : float) : float := if PrimFloat.ltb b a then b else a.
Definition fmax (a b : float) : float := if PrimFloat.ltb a b then b else a.

(** [nanops.nanmin], [nanops.nanmax]: NaN for a column with no value. *)
Definition nanmin (xs : list float) : float :=
  match dropna xs with
  | [] => nan
  | y :: ys => fold_left fmin ys y
  end.

Definition nanmax (xs : list float) : float :=
  match dropna xs with
  | [] => nan
  | y :: ys => fold_left fmax ys y
  end.

(** [nanops.nanmean]: [the_sum / count if count > 0 else nan]. *)
Definition nanmean (xs : list float) : float :=
  let count := length (dropna xs) in
  if decide (0 < count) then PrimFloat.div (sum (fill0 xs)) (of_nat count)
  else nan.

(** [nanops.nanvar] with [ddof]: the two-pass algorithm of pandas.
    [count <= ddof] turns both divisors into NaN. *)
Definition nanvar (ddof : nat) (xs : list float) : float :=
  let n := length (dropna xs) in
  let count := if decide (n <= ddof) then nan else of_nat n in
  let d := if decide (n <= ddof) then nan else of_nat (n - ddof) in
  let avg := PrimFloat.div (sum (fill0 xs)) count in
  let sqr :=
    map (fun x => if isnan x then 0%float
                  else PrimFloat.mul (PrimFloat.sub avg x) (PrimFloat.sub avg x)) xs in
  PrimFloat.div (sum sqr) d.

Definition nanstd (ddof : nat) (xs : list float) : float :=
  PrimFloat.sqrt (nanvar ddof xs).

(** Insertion of a value into an ascending list; used to sort the values
    whose middle is the median. *)
Fixpoint insert_sorted (x : float) (ys : list float) : list float :=
  match ys with
  | [] => [x]
  | y :: ys' => if PrimFloat.leb x y then x :: ys else y :: insert_sorted x ys'
  end.

Definition sort (xs : list float) : list float := foldr insert_sorted [] xs.

(** [nanops.nanmedian]: the middle of the sorted non-missing values, the
    mean of the two middle ones when their number is even, NaN when there
    is none. *)
Definition nanmedian (xs : list float) : float :=
  let ys := sort (dropna xs) in
  let n := length ys in
  if decide (n = 0) then nan
  else if Nat.even n
       then PrimFloat.div
              (PrimFloat.add (nth (n / 2 - 1) ys nan) (nth (n / 2) ys nan)) 2%float
       else nth (n / 2) ys nan.

End np.

(** ** Columns *)

(** A cell of an object column: a string, or None (missing). *)
Inductive pyobj : Type :=
| PyNone
| PyStr (s : string).

(** A column carries its dtype: the constructor is the dtype. *)
Inductive Series : Type :=
| Float64 (xs : list float)
| Int64 (xs : list Z)
| Object (xs : list pyobj).

Definition Series_len (s : Series) : nat :=
  match s with
  | Float64 xs => length xs
  | Int64 xs => length xs
  | Object xs => length xs
  end.

(** [np.number] as [select_dtypes] reads it. *)
Definition is_numeric (s : Series) : bool :=
  match s with
  | Float64 _ | Int64 _ => true
  | Object _ => false
  end.

Definition pyobj_notna (o : pyobj) : bool :=
  match o with
  | PyNone => false
  | PyStr _ => true
  end.

(** [Series.notna()]. *)
Definition Series_notna (s : Series) : list bool :=
  match s with
  | Float64 xs => map (fun x => negb (np.isnan x)) xs
  | Int64 xs => map (fun _ => true) xs
  | Object xs => map pyobj_notna xs
  end.

(** Boolean-mask selection [values[mask]]. *)
Fixpoint take_mask {A : Type} (mask : list bool) (xs : list A) : list A :=
  match mask, xs with
  | b :: mask', x :: xs' => if b then x :: take_mask mask' xs' else take_mask mask' xs'
  | _, _ => []
  end.

Definition Series_take_mask (mask : list bool) (s : Series) : Series :=
  match s with
  | Float64 xs => Float64 (take_mask mask xs)
  | Int64 xs => Int64 (take_mask mask xs)
  | Object xs => Object (take_mask mask xs)
  end.

(** [Series.median()] of a numeric column; an object column has none
    ([numeric_only=True] leaves it out). *)
Definition Series_median (s : Series) : option float :=
  match s with
  | Float64 xs => Some (np.nanmedian xs)
  | Int64 xs => Some (np.nanmedian (map np.of_Z xs))
  | Object _ => None
  end.

(** [Series.fillna(v)] with a float [v]: the missing cells of a float64
    column take the value [v]; an int64 column has none. *)
Definition Series_fillna (v : float) (s : Series) : Series :=
  match s with
  | Float64 xs => Float64 (map (fun x => if np.isnan x then v else x) xs)
  | Int64 xs => Int64 xs
  | Object xs => Object xs
  end.

(** ** Tables *)

(** Row labels and named columns, in column order. *)
Record DataFrame : Type := mkDataFrame {
  index : list Z;
  columns : list (string * Series)
}.

(** The data model's invariant: labels are unique and every column has one
    cell per row. *)
Definition wf_table (t : DataFrame) : Prop :=
  NoDup (map fst (columns t)) ∧
  Forall (fun c => Series_len (snd c) = length (index t)) (columns t).

Definition names (t : DataFrame) : list string := map fst (columns t).

(** [len(df)]. *)
Definition nrows (t : DataFrame) : nat := length (index t).

(** [df[c]] for one label. *)
Fixpoint lookup_column (c : string) (cs : list (string * Series)) : option Series :=
  match cs with
  | [] => None
  | (k, s) :: cs' => if decide (k = c) then Some s else lookup_column c cs'
  end.

Definition getitem (t : DataFrame) (c : string) : option Series :=
  lookup_column c (columns t).

(** [df[c] = s]: replaces the column in place, or appends a new one. *)
Fixpoint assign_column (c : string) (s : Series) (cs : list (string * Series))
  : list (string * Series) :=
  match cs with
  | [] => [(c, s)]
  | (k, s0) :: cs' =>
      if decide (k = c) then (k, s) :: cs' else (k, s0) :: assign_column c s cs'
  end.

Definition setitem (t : DataFrame) (c : string) (s : Series) : DataFrame :=
  mkDataFrame (index t) (assign_column c s (columns t)).

(** [df.select_dtypes(include=[np.number]).columns.tolist()]. *)
Definition select_dtypes_number (t : DataFrame) : list string :=
  map fst (filter (fun c => is_numeric (snd c) = true) (columns t)).

(** ** Exceptions and results *)

Inductive exn : Type :=
| ValueError (msg : string)
| KeyError (keys : list string)
| TypeError (msg : string).

Inductive result (A : Type) : Type :=
| Ok (a : A)
| Raise (e : exn).

Arguments Ok {A} a.
Arguments Raise {A} e.

(** ** Table methods used by cleaning.py *)

(** The labels of [cols] that the table does not have. *)
Definition missing_labels (t : DataFrame) (cols : list string) : list string :=
  filter (fun c => c ∉ names t) cols.

(** [df[cols]] for a list of labels: a new table with those columns, in the
    order asked; KeyError when a label is unknown. *)
Definition getitem_list (t : DataFrame) (cols : list string) : result DataFrame :=
  if decide (missing_labels t cols = [])
  then Ok (mkDataFrame (index t) (omap (fun c => pair c <$> getitem t c) cols))
  else Raise (KeyError (missing_labels t cols)).

(** [df.median(numeric_only=True)]: one entry per numeric column. *)
Definition DataFrame_median (t : DataFrame) : list (string * float) :=
  omap (fun c => pair (fst c) <$> Series_median (snd c)) (columns t).

(** [df.fillna(value)] with a Series of per-column values:
    [for k, v in value.items(): if k not in result: continue;
     result[k] = result[k].fillna(v)]. *)
Definition fillna_step (r : DataFrame) (kv : string * float) : DataFrame :=
  match getitem r (fst kv) with
  | None => r
  | Some s => setitem r (fst kv) (Series_fillna (snd kv) s)
  end.

Definition DataFrame_fillna (value : list (string * float)) (t : DataFrame) : DataFrame :=
  fold_left fillna_step value t.

(** [df[cols] = value] with a table on the right: the key and the value
    must have as many columns, and [for k1, k2 in zip(cols, value.columns):
    df[k1] = value[k2]] runs.  When a label repeats in [value], [value[k2]]
    is a table of several columns and the assignment to one column raises
    ValueError.  The check is made before the loop here: a failed assignment
    leaves a partly assigned copy that no caller can reach. *)
Definition setitem_list (t : DataFrame) (cols : list string) (value : DataFrame)
  : result DataFrame :=
  if decide (length (columns value) = length cols ∧ NoDup (names value))
  then Ok (fold_left (fun r kc => setitem r (fst kc) (snd (snd kc)))
                     (zip cols (columns value)) t)
  else Raise (ValueError "Columns must be same length as key").

(** [agg_obj.count(axis=1)]: per row, the number of non-missing cells among
    the columns of [agg]. *)
Definition row_counts (n : nat) (agg : list Series) : list nat :=
  foldr (fun s acc => zip_with (fun (b : bool) k => if b then S k else k)
                               (Series_notna s) acc)
        (replicate n 0) agg.

(** The row mask of [dropna]:
    [if thresh is not None: mask = count >= thresh
     elif how == "any": mask = count == len(agg_obj.columns)
     elif how == "all": mask = count > 0
     else: raise ValueError]. *)
Definition dropna_mask (how : string) (thresh : option Z) (ncols : nat)
    (count : list nat) : result (list bool) :=
  match thresh with
  | Some th => Ok (map (fun k => bool_decide (th ≤ Z.of_nat k)%Z) count)
  | None =>
      if decide (how = "any") then Ok (map (fun k => bool_decide (k = ncols)) count)
      else if decide (how = "all") then Ok (map (fun k => bool_decide (0 < k)) count)
      else Raise (ValueError "invalid how option")
  end.

(** [self.loc[mask]]. *)
Definition loc_mask (mask : list bool) (t : DataFrame) : DataFrame :=
  mkDataFrame (take_mask mask (index t))
              (map (fun c => (fst c, Series_take_mask mask (snd c))) (columns t)).

(** [df.dropna(how=how, thresh=thresh, subset=subset)], axis 0.  The
    columns looked at are all of them, or those of [subset]; an unknown
    label in [subset] raises KeyError before [how] is looked at. *)
Definition DataFrame_dropna (t : DataFrame) (how : string) (thresh : option Z)
    (subset : option (list string)) : result DataFrame :=
  let agg :=
    match subset with
    | None => Ok (map snd (columns t))
    | Some cs =>
        if decide (missing_labels t cs = []) then Ok (omap (getitem t) cs)
        else Raise (KeyError (missing_labels t cs))
    end in
  match agg with
  | Raise e => Raise e
  | Ok agg_obj =>
      match dropna_mask how thresh (length agg_obj) (row_counts (nrows t) agg_obj) with
      | Raise e => Raise e
      | Ok mask => Ok (loc_mask mask t)
      end
  end.

(** ** The store of table objects and the monad of statements *)

Definition ref : Type := positive.

(** What a call prints, field by field. *)
Inductive log_record : Type :=
| LogFill (cols : list string) (medians : list (string * float))
| LogDrop (before after : nat) (how : string) (thresh : option Z)
          (subset : option (list string))
| LogNormalize (cols : list string) (method : string).

Record world : Type := mkWorld {
  heap : gmap ref DataFrame;
  stdout : list log_record
}.

Definition M (A : Type) : Type := world → result A * world.

#[global] Instance M_ret : MRet M := λ A a w, (Ok a, w).

#[global] Instance M_bind : MBind M := λ A B f m w,
  match m w with
  | (Ok a, w') => f a w'
  | (Raise e, w') => (Raise e, w')
  end.

Definition raise {A : Type} (e : exn) : M A := λ w, (Raise e, w).

Definition lift {A : Type} (r : result A) : M A := λ w, (r, w).

(** Reading the table a reference points to. *)
Definition deref (r : ref) : M DataFrame := λ w,
  match heap w !! r with
  | Some t => (Ok t, w)
  | None => (Raise (TypeError "not a DataFrame"), w)
  end.

(** A new table object. *)
Definition alloc (t : DataFrame) : M ref := λ w,
  let r := fresh (dom (heap w)) in
  (Ok r, mkWorld (<[r := t]> (heap w)) (stdout w)).

(** In-place update of the object behind [r]. *)
Definition store (r : ref) (t : DataFrame) : M unit := λ w,
  (Ok tt, mkWorld (<[r := t]> (heap w)) (stdout w)).

Definition print (l : log_record) : M unit := λ w,
  (Ok tt, mkWorld (heap w) (stdout w ++ [l])).

(** [for x in xs: body], threading the locals the body rebinds. *)
Fixpoint for_each {A S : Type} (xs : list A) (body : A → S → M S) (s : S) : M S :=
  match xs with
  | [] => mret s
  | x :: xs' => s' ← body x s; for_each xs' body s'
  end.

(** [df.copy()]: a new object holding the same values. *)
Definition DataFrame_copy (df : ref) : M ref :=
  t ← deref df; alloc t.

(** [len(df)] of the object behind a reference. *)
Definition len (df : ref) : M nat :=
  t ← deref df; mret (nrows t).

(** ** cleaning.py *)

(** [_coerce_columns(df, columns)]. *)
Definition _coerce_columns (df : ref) (columns : option (list string))
  : M (list string) :=
  t ← deref df;
  match columns with
  | None => mret (select_dtypes_number t)
  | Some cs => mret (filter (fun c => c ∈ names t) cs)
  end.

(** [fill_missing_median(df, columns=None)]. *)
Definition fill_missing_median (df : ref) (columns : option (list string)) : M ref :=
  cols ← _coerce_columns df columns;
  out ← DataFrame_copy df;
  t ← deref out;
  sub ← lift (getitem_list t cols);
  let medians := DataFrame_median sub in
  t' ← lift (setitem_list t cols (DataFrame_fillna medians sub));
  store out t';;
  print (LogFill cols medians);;
  mret out.

(** [drop_missing(df, how="any", thresh=None, subset=None)]. *)
Definition drop_missing (df : ref) (how : string) (thresh : option Z)
    (subset : option (list string)) : M ref :=
  out ← DataFrame_copy df;
  before ← len out;
  t ← deref out;
  t' ← lift (DataFrame_dropna t how thresh subset);
  out ← alloc t';
  after ← len out;
  print (LogDrop before after how thresh
           (match subset with Some (c :: cs) => Some (c :: cs) | _ => None end));;
  mret out.

(** The fitted parameters of one column: the dict
    [{method: standard, mean, std}] or [{method: minmax, min, max}]. *)
Inductive fit : Type :=
| Standard (mean std : float)
| MinMax (min max : float).

(** [df[c] = s] on the object behind a reference. *)
Definition setitem_ref (out : ref) (c : string) (s : Series) : M unit :=
  t ← deref out; store out (setitem t c s).

(** [df[c] = v] with a scalar: the value in every row. *)
Definition setitem_scalar (out : ref) (c : string) (v : float) : M unit :=
  t ← deref out; store out (setitem t c (Float64 (replicate (nrows t) v))).

(** [df[c]] on the object behind a reference. *)
Definition getitem_ref (out : ref) (c : string) : M Series :=
  t ← deref out;
  match getitem t c with
  | Some s => mret s
  | None => raise (KeyError [c])
  end.

Section Normalize.

(** [float(s)] for a Python string: [None] when it raises ValueError.  The
    parser is the interpreter's; every result below holds whatever it is. *)
Variable py_float : string → option float.

Definition pyobj_to_float (o : pyobj) : option float :=
  match o with
  | PyNone => Some np.nan
  | PyStr s => py_float s
  end.

(** [Series.astype(float)]. *)
Definition astype_float (s : Series) : result (list float) :=
  match s with
  | Float64 xs => Ok xs
  | Int64 xs => Ok (map np.of_Z xs)
  | Object xs =>
      match mapM pyobj_to_float xs with
      | Some ys => Ok ys
      | None => Raise (ValueError "could not convert string to float")
      end
  end.

(** The body of the loop [for c in cols] of [normalize_data]; [params] is
    the dict the loop fills. *)
Definition normalize_column (out : ref) (method : string) (c : string)
    (params : gmap string fit) : M (gmap string fit) :=
  s ← getitem_ref out c;
  x ← lift (astype_float s);
  if decide (method = "standard") then
    let mean := np.nanmean x in
    let std := np.nanstd 0 x in
    if PrimFloat.eqb std 0 then
      setitem_scalar out c 0%float;;
      mret (<[c := Standard mean std]> params)
    else
      setitem_ref out c (Float64 (map (λ v, ((v - mean) / std)%float) x));;
      mret (<[c := Standard mean std]> params)
  else
    let mn := np.nanmin x in
    let mx := np.nanmax x in
    let rng := (mx - mn)%float in
    if PrimFloat.eqb rng 0 then
      setitem_scalar out c 0%float;;
      mret (<[c := MinMax mn mx]> params)
    else
      setitem_ref out c (Float64 (map (λ v, ((v - mn) / rng)%float) x));;
      mret (<[c := MinMax mn mx]> params).

(** [normalize_data(df, columns=None, method="standard")]. *)
Definition normalize_data (df : ref) (columns : option (list string))
    (method : string) : M (ref * gmap string fit) :=
  cols ← _coerce_columns df columns;
  out ← DataFrame_copy df;
  let params : gmap string fit := ∅ in
  if decide (method ∉ ["standard"; "minmax"])
  then raise (ValueError "method must be one of {standard, minmax}")
  else
    params ← for_each cols (normalize_column out method) params;
    print (LogNormalize cols method);;
    mret (out, params).

(** The values one pass of the loop computes from the cells [x] of a
    column of [n] rows: the new column and its fitted parameters. *)
Definition scaled (method : string) (n : nat) (x : list float) : Series * fit :=
  if decide (method = "standard") then
    let mean := np.nanmean x in
    let std := np.nanstd 0 x in
    (if PrimFloat.eqb std 0 then Float64 (replicate n 0%float)
     else Float64 (map (λ v, ((v - mean) / std)%float) x),
     Standard mean std)
  else
    let mn := np.nanmin x in
    let mx := np.nanmax x in
    let rng := (mx - mn)%float in
    (if PrimFloat.eqb rng 0 then Float64 (replicate n 0%float)
     else Float64 (map (λ v, ((v - mn) / rng)%float) x),
     MinMax mn mx).

(** One pass of the loop on the value of [out] and the dict. *)
Definition normalize_step (method : string) (c : string)
    (st : DataFrame * gmap string fit) : result (DataFrame * gmap string fit) :=
  match getitem (fst st) c with
  | None => Raise (KeyError [c])
  | Some s =>
      match astype_float s with
      | Raise e => Raise e
      | Ok x =>
          Ok (setitem (fst st) c (fst (scaled method (nrows (fst st)) x)),
              <[c := snd (scaled method (nrows (fst st)) x)]> (snd st))
      end
  end.

(** The whole loop on values. *)
Fixpoint normalize_steps (method : string) (cols : list string)
    (st : DataFrame * gmap string fit) : result (DataFrame * gmap string fit) :=
  match cols with
  | [] => Ok st
  | c :: cols' =>
      match normalize_step method c st with
      | Raise e => Raise e
      | Ok st' => normalize_steps method cols' st'
      end
  end.

End Normalize.

(** ** Views used to state the properties *)









(** The table a call returned, read from the store it left. *)
Definition returned_table (r : result ref * world) : result DataFrame :=
  match r with
  | (Ok out, w) =>
      match heap w !! out with
      | Some t => Ok t
      | None => Raise (TypeError "not a DataFrame")
      end
  | (Raise e, _) => Raise e
  end.

(** No object of [w] is changed or dropped in [w']. *)
Definition preserved (w w' : world) : Prop := heap w ⊆ heap w'.

(** A call is side-effect free on the store it was given: every object of
    [w] is unchanged afterwards, and the table it returns, if any, is an
    object that did not exist in [w]. *)
Definition fresh_result {A : Type} (get : A → ref) (w : world)
    (r : result A * world) : Prop :=
  preserved w (snd r) ∧
  ∀ a, fst r = Ok a → heap w !! get a = None ∧ is_Some (heap (snd r) !! get a).

(** The value [fill_missing_median] computes from the value of its input
    and the resolved columns. *)
Definition filled (t : DataFrame) (cols : list string) : result DataFrame :=
  match getitem_list t cols with
  | Raise e => Raise e
  | Ok sub => setitem_list t cols (DataFrame_fillna (DataFrame_median sub) sub)
  end.

(** One column after imputation: its missing cells take its median, when
    it has one. *)
Definition fill_col (s : Series) : Series :=
  match Series_median s with
  | Some v => Series_fillna v s
  | None => s
  end.

(** The table with the columns of [cols] imputed and the others as they
    were. *)
Definition fill_columns (cols : list string) (t : DataFrame) : DataFrame :=
  mkDataFrame (index t)
    (map (fun c => (fst c, if decide (fst c ∈ cols) then fill_col (snd c) else snd c))
         (columns t)).

(** The label [c] is asked exactly once. *)
Definition listed_once (c : string) (cols : list string) : Prop :=
  length (filter (fun k => k = c) cols) = 1.

(** The columns [_coerce_columns] resolves on a table value. *)
Definition resolved (t : DataFrame) (requested : option (list string)) : list string :=
  match requested with
  | None => select_dtypes_number t
  | Some cs => filter (fun c => c ∈ names t) cs
  end.




(** The cells a pass of the loop writes for a column of cells [x]. *)
Definition scaled_cells (method : string) (n : nat) (x : list float) : list float :=
  match fst (scaled method n x) with
  | Float64 y => y
  | _ => []
  end.

(** A numeric column that imputation completes: an int64 column, or a
    float64 column with a value at least whose values are all finite. *)
Definition imputable (s : Series) : Prop :=
  match s with
  | Float64 xs =>
      np.dropna xs ≠ [] ∧
      Forall (fun v => np.isnan v = false → np.isfinite v = true) xs
  | Int64 _ => True
  | Object _ => False
  end.


(** ** Values of binary64 as integers

    The arithmetic of the columns is that of binary64.  To reason on its
    order, a number is counted in units of the least positive one,
    [2^-1074], which makes every finite value an integer. *)

Module B64.

Local Open Scope Z_scope.

(** Round to nearest, ties to even, of [Y / 2^k] to an integer. *)
Definition rne (Y k : Z) : Z :=
  if (2 ^ k <? 2 * (Y mod 2 ^ k)) || ((2 ^ k =? 2 * (Y mod 2 ^ k)) && Z.odd (Y / 2 ^ k))
  then Y / 2 ^ k + 1 else Y / 2 ^ k.

(** The value of a finite number, in units of the least positive one. *)
Definition sval (x : spec_float) : Z :=
  match x with
  | S754_finite s m e => cond_Zopp s (Zpos m * 2 ^ (e + 1074))
  | _ => 0
  end.

Definition finite_or_zero (x : spec_float) : bool :=
  match x with
  | S754_finite _ _ _ | S754_zero _ => true
  | _ => false
  end.

Definition kshift (Y : Z) : Z := Z.max (Zdigits2 Y - 53) 0.

(** The value of [Y] units rounded to 53 digits, nearest-even. *)
Definition rnd_int (Y : Z) : Z := rne Y (kshift Y) * 2 ^ kshift Y.

(** [r] is the number [D >= 0] of units rounded by the format. *)
Definition rounds_to (D : Z) (r : spec_float) : Prop :=
  match r with
  | S754_zero _ => D = 0
  | S754_finite false m e => Zpos m * 2 ^ (e + 1074) = rnd_int D
  | S754_infinity false => 2 ^ 2098 <= rnd_int D
  | _ => False
  end.

Definition not_nan (x : spec_float) : bool :=
  match x with
  | S754_nan => false
  | _ => true
  end.

(** The value, with the infinities beyond every finite number. *)
Definition xval (x : spec_float) : Z :=
  match x with
  | S754_infinity s => cond_Zopp s (2 ^ 2098)
  | _ => sval x
  end.

Definition SFone : spec_float := S754_finite false (2 ^ 52) (-52).

End B64.

(** The value of a float, in units of [2^-1074]; the infinities lie beyond
    every finite value. *)
Definition fval (x : float) : Z := B64.xval (Prim2SF x).

(** What min-max scaling owes a cell [v] of a column with extrema [mn] and
    [mx], of the cell [q] it becomes: a missing cell stays missing, a value
    lands in [0, 1], the minimum on 0 and the maximum on 1. *)
Definition unit_cell (mn mx v q : float) : Prop :=
  (np.isnan v = true → np.isnan q = true) ∧
  (np.isnan v = false → PrimFloat.leb 0 q = true ∧ PrimFloat.leb q 1 = true) ∧
  (v = mn → q = 0%float) ∧
  (v = mx → q = 1%float).

(** ** Sample tables *)

(** A store holding one table, referred to as [df0]. *)
Definition df0 : ref := 1%positive.

Definition world_of (t : DataFrame) : world := mkWorld {[ df0 := t ]} [].

(** An interpreter for which no string reads as a float. *)
Definition no_float : string → option float := fun _ => None.

(** [age = [20, NaN, 40]] with a column of names. *)
Definition table_age : DataFrame :=
  mkDataFrame [0; 1; 2]%Z
    [("age", Float64 [20; np.nan; 40]%float);
     ("name", Object [PyStr "ann"; PyNone; PyStr "cy"])].

(** Rows [{a:1, b:NaN}], [{a:NaN, b:NaN}], [{a:3, b:4}]. *)
Definition table_ab : DataFrame :=
  mkDataFrame [0; 1; 2]%Z
    [("a", Float64 [1; np.nan; 3]%float);
     ("b", Float64 [np.nan; np.nan; 4]%float)].

(** [x = [1, 2, 3, 4, 5]], as integers. *)
Definition table_x : DataFrame :=
  mkDataFrame [0; 1; 2; 3; 4]%Z [("x", Int64 [1; 2; 3; 4; 5]%Z)].

(** [x = [1.0, 2.0, 3.0]]. *)
Definition table_x3 : DataFrame :=
  mkDataFrame [0; 1; 2]%Z [("x", Float64 [1; 2; 3]%float)].


(** A column from the least to the greatest finite float. *)
Definition table_wide : DataFrame :=
  mkDataFrame [0; 1]%Z
    [("x", Float64 [-0x1.fffffffffffffp+1023; 0x1.fffffffffffffp+1023]%float)].

(** A constant column of fives. *)
Definition table_five : DataFrame :=
  mkDataFrame [0; 1; 2]%Z [("x", Float64 [5; 5; 5]%float)].

(** A column with no value at all, next to one with values. *)
Definition table_void : DataFrame :=
  mkDataFrame [0; 1]%Z
    [("v", Float64 [np.nan; np.nan]); ("k", Float64 [1; np.nan]%float)].

(** [a = [1, 2]] as floats and [n = [3, 4]] as integers: no cell is
    missing. *)
Definition table_clean : DataFrame :=
  mkDataFrame [0; 1]%Z
    [("a", Float64 [1; 2]%float); ("n", Int64 [3; 4]%Z)].

#[global] Instance wf_table_dec (t : DataFrame) : Decision (wf_table t).
Proof. unfold wf_table. apply _. Defined.

(** Closes a decidable goal that holds by evaluating its decision. *)
Ltac decide_by_computing :=
  match goal with
  | |- ?P => apply (bool_decide_eq_true_1 P); vm_compute; reflexivity
  end.

(** ** The monad, step by step *)

Lemma bind_Ok {A B : Type} (m : M A) (f : A → M B) (w w' : world) (a : A) :
  m w = (Ok a, w') → (m ≫= f) w = f a w'.
Proof. intros H. unfold mbind, M_bind. by rewrite H. Qed.

Lemma bind_Raise {A B : Type} (m : M A) (f : A → M B) (w w' : world) (e : exn) :
  m w = (Raise e, w') → (m ≫= f) w = (Raise e, w').
Proof. intros H. unfold mbind, M_bind. by rewrite H. Qed.

Lemma deref_Some (r : ref) (w : world) (t : DataFrame) :
  heap w !! r = Some t → deref r w = (Ok t, w).
Proof. intros H. unfold deref. by rewrite H. Qed.

Lemma alloc_fresh (w : world) :
  heap w !! fresh (dom (heap w)) = None.
Proof. apply not_elem_of_dom, is_fresh. Qed.

#[global] Instance preserved_refl : Reflexive preserved.
Proof. intros w. unfold preserved. done. Qed.

#[global] Instance preserved_trans : Transitive preserved.
Proof. intros w1 w2 w3. unfold preserved. apply transitivity. Qed.

Lemma preserved_alloc (t : DataFrame) (w : world) :
  preserved w (alloc t w).2.
Proof.
  unfold preserved, alloc; simpl. apply insert_subseteq, alloc_fresh.
Qed.

Lemma preserved_print (l : log_record) (w : world) :
  preserved w (print l w).2.
Proof. by unfold preserved, print. Qed.

Lemma preserved_lookup (w w' : world) (r : ref) (t : DataFrame) :
  preserved w w' → heap w !! r = Some t → heap w' !! r = Some t.
Proof. unfold preserved. intros H H1. by eapply lookup_weaken. Qed.

(** ** Column resolution *)

(** C8: on any table, [_coerce_columns] raises nothing and leaves the store
    as it was; with no list it returns the labels of the numeric columns in
    table order, with a list it returns the asked labels that the table
    has, in the order asked, the others dropped. *)
Theorem coerce_columns_resolves (w : world) (df : ref) (t : DataFrame)
    (requested : option (list string)) :
  heap w !! df = Some t →
  ∃ cols, _coerce_columns df requested w = (Ok cols, w) ∧
    match requested with
    | None =>
        cols = map fst (filter (fun c => is_numeric (snd c) = true) (columns t)) ∧
        sublist cols (names t) ∧
        (∀ c, c ∈ cols ↔ ∃ s, (c, s) ∈ columns t ∧ is_numeric s = true)
    | Some cs =>
        cols = filter (fun c => c ∈ names t) cs ∧
        sublist cols cs ∧
        (∀ c, c ∈ cols ↔ c ∈ cs ∧ c ∈ names t)
    end.
Proof.
  intros Hdf. unfold _coerce_columns.
  destruct requested as [cs|].
  - exists (filter (fun c => c ∈ names t) cs). split.
    + by rewrite (bind_Ok _ _ _ _ _ (deref_Some _ _ _ Hdf)).
    + split; [done|]. split; [apply sublist_filter|].
      intros c. by rewrite list_elem_of_filter, (comm and).
  - exists (select_dtypes_number t). split.
    + by rewrite (bind_Ok _ _ _ _ _ (deref_Some _ _ _ Hdf)).
    + split; [done|]. split.
      * unfold select_dtypes_number, names. apply fmap_sublist, sublist_filter.
      * intros c. unfold select_dtypes_number. rewrite list_elem_of_fmap. split.
        -- intros [[c' s] [-> H]]. apply list_elem_of_filter in H as [H1 H2].
           by exists s.
        -- intros [s [H1 H2]]. exists (c, s). split; [done|].
           by apply list_elem_of_filter.
Qed.

Lemma coerce_columns_run (w : world) (df : ref) (t : DataFrame)
    (requested : option (list string)) :
  heap w !! df = Some t →
  _coerce_columns df requested w = (Ok (resolved t requested), w).
Proof.
  intros Hdf. unfold _coerce_columns.
  rewrite (bind_Ok _ _ _ _ _ (deref_Some _ _ _ Hdf)). by destruct requested.
Qed.

Lemma copy_run (w : world) (df : ref) (t : DataFrame) :
  heap w !! df = Some t →
  DataFrame_copy df w = alloc t w.
Proof.
  intros Hdf. unfold DataFrame_copy.
  by rewrite (bind_Ok _ _ _ _ _ (deref_Some _ _ _ Hdf)).
Qed.

(** ** What the calls do to the store *)

Lemma drop_missing_run (w : world) (df : ref) (t : DataFrame) (how : string)
    (thresh : option Z) (subset : option (list string)) :
  heap w !! df = Some t →
  drop_missing df how thresh subset w =
    let w1 := snd (alloc t w) in
    match DataFrame_dropna t how thresh subset with
    | Raise e => (Raise e, w1)
    | Ok t' =>
        (Ok (fresh (dom (heap w1))),
         mkWorld (<[fresh (dom (heap w1)) := t']> (heap w1))
                 (stdout w ++ [LogDrop (nrows t) (nrows t') how thresh
                    (match subset with Some (c :: cs) => Some (c :: cs) | _ => None end)]))
    end.
Proof.
  intros Hdf. unfold drop_missing.
  rewrite (bind_Ok _ _ _ _ _ (copy_run _ _ _ Hdf)).
  set (r1 := fresh (dom (heap w))).
  set (w1 := mkWorld (<[r1 := t]> (heap w)) (stdout w)).
  assert (H1 : heap w1 !! r1 = Some t) by apply lookup_insert_eq.
  unfold len. simpl.
  rewrite (bind_Ok _ _ w1 w1 (nrows t)); last by rewrite (bind_Ok _ _ _ _ _ (deref_Some _ _ _ H1)).
  rewrite (bind_Ok _ _ _ _ _ (deref_Some _ _ _ H1)).
  destruct (DataFrame_dropna t how thresh subset) as [t'|e].
  - rewrite (bind_Ok _ _ w1 w1 t'); last done.
    erewrite (bind_Ok (alloc t')); last done.
    set (r2 := fresh (dom (heap w1))).
    erewrite bind_Ok; last first.
    { erewrite bind_Ok; last (apply deref_Some; simpl; apply lookup_insert_eq). done. }
    done.
  - by rewrite (bind_Raise _ _ w1 w1 e).
Qed.

Lemma fill_missing_median_run (w : world) (df : ref) (t : DataFrame)
    (requested : option (list string)) :
  heap w !! df = Some t →
  fill_missing_median df requested w =
    let r1 := fresh (dom (heap w)) in
    match filled t (resolved t requested) with
    | Raise e => (Raise e, snd (alloc t w))
    | Ok t' =>
        (Ok r1,
         mkWorld (<[r1 := t']> (heap w))
                 (stdout w ++ [LogFill (resolved t requested)
                    (match getitem_list t (resolved t requested) with
                     | Ok sub => DataFrame_median sub
                     | Raise _ => []
                     end)]))
    end.
Proof.
  intros Hdf. unfold fill_missing_median.
  rewrite (bind_Ok _ _ _ _ _ (coerce_columns_run _ _ _ _ Hdf)).
  rewrite (bind_Ok _ _ _ _ _ (copy_run _ _ _ Hdf)).
  set (r1 := fresh (dom (heap w))).
  set (w1 := mkWorld (<[r1 := t]> (heap w)) (stdout w)).
  assert (H1 : heap w1 !! r1 = Some t) by apply lookup_insert_eq.
  simpl. rewrite (bind_Ok _ _ _ _ _ (deref_Some _ _ _ H1)).
  unfold filled.
  destruct (getitem_list t (resolved t requested)) as [sub|e].
  - rewrite (bind_Ok _ _ w1 w1 sub); last done.
    destruct (setitem_list t _ _) as [t'|e].
    + rewrite (bind_Ok _ _ w1 w1 t'); last done.
      unfold mbind, M_bind, store, print, mret, M_ret; simpl.
      by rewrite insert_insert_eq.
    + by rewrite (bind_Raise _ _ w1 w1 e).
  - by rewrite (bind_Raise _ _ w1 w1 e).
Qed.

(** ** Rows under a mask *)









(** ** Counting the values of a row *)




Lemma getitem_length (t : DataFrame) (c : string) (s : Series) :
  wf_table t → getitem t c = Some s → Series_len s = nrows t.
Proof.
  intros [_ Hlen]. unfold getitem, nrows.
  induction Hlen as [|[k s0] cs Hk Hcs IH]; [done|]. simpl.
  destruct (decide (k = c)); [by intros [= <-]|]. apply IH.
Qed.

Lemma getitem_is_Some (t : DataFrame) (c : string) :
  c ∈ names t → is_Some (getitem t c).
Proof.
  unfold names, getitem. induction (columns t) as [|[k s] cs IH]; simpl.
  - by intros ?%elem_of_nil.
  - intros [->|H]%elem_of_cons.
    + rewrite decide_True by done. by eexists.
    + destruct (decide (k = c)); [by eexists|]. by apply IH.
Qed.





Lemma missing_labels_nil (t : DataFrame) (S : list string) :
  missing_labels t S = [] ↔ ∀ c, c ∈ S → c ∈ names t.
Proof.
  unfold missing_labels. split.
  - intros H c Hc. destruct (decide (c ∈ names t)) as [|Hn]; [done|].
    assert (c ∈ filter (fun c => c ∉ names t) S) by by apply list_elem_of_filter.
    rewrite H in H0. by apply elem_of_nil in H0.
  - intros H. induction S as [|c S IH]; [done|].
    rewrite filter_cons_False.
    + apply IH. intros c' Hc'. apply H. by right.
    + intros Hn. apply Hn, H. by left.
Qed.

(** ** Row deletion *)

Lemma drop_missing_returned (w : world) (df : ref) (t : DataFrame) (how : string)
    (thresh : option Z) (subset : option (list string)) :
  heap w !! df = Some t →
  returned_table (drop_missing df how thresh subset w)
  = DataFrame_dropna t how thresh subset.
Proof.
  intros Hdf. rewrite (drop_missing_run _ _ _ _ _ _ Hdf). simpl.
  destruct (DataFrame_dropna t how thresh subset) as [t'|e]; [|done].
  simpl. by rewrite lookup_insert_eq.
Qed.




(** ** binary64 facts *)

Lemma SFcompare_refl (f : spec_float) :
  f ≠ S754_nan → SFcompare f f = Some Eq.
Proof.
  destruct f as [s|s| |s m e]; intros Hf; simpl; try done.
  - by destruct s.
  - rewrite Z.compare_refl, Pcompare_refl. by destruct s.
Qed.

(** There is one NaN. *)
Lemma isnan_eq (x : float) : np.isnan x = true → x = np.nan.
Proof.
  unfold np.isnan, is_nan. intros H. apply negb_true_iff in H.
  rewrite FloatAxioms.eqb_spec in H.
  apply Prim2SF_inj. change (Prim2SF np.nan) with S754_nan.
  destruct (Prim2SF x) as [s|s| |s m e] eqn:Hx; [| |done|];
    unfold SFeqb in H; by rewrite SFcompare_refl in H.
Qed.

Lemma isfinite_cases (x : float) :
  np.isfinite x = true →
  (∃ s, Prim2SF x = S754_zero s) ∨ (∃ s m e, Prim2SF x = S754_finite s m e).
Proof.
  unfold np.isfinite, is_finite, is_nan, is_infinity. intros H.
  apply negb_true_iff, orb_false_iff in H as [Hn Hi].
  apply negb_false_iff in Hn.
  rewrite FloatAxioms.eqb_spec in Hn. rewrite FloatAxioms.eqb_spec, abs_spec in Hi.
  change (Prim2SF infinity) with (S754_infinity false) in Hi.
  destruct (Prim2SF x) as [s|s| |s m e]; [left; by eexists| | |right; by eexists _, _, _].
  - by destruct s.
  - done.
Qed.

(** The difference of a finite number and itself is zero. *)
Lemma sub_diag (x : float) :
  np.isfinite x = true → PrimFloat.eqb (x - x) 0 = true.
Proof.
  intros Hx. rewrite FloatAxioms.eqb_spec, sub_spec.
  change (Prim2SF 0) with (S754_zero false).
  destruct (isfinite_cases x Hx) as [[s ->]|(s & m & e & ->)].
  - by destruct s.
  - unfold SF64sub, SFsub. by rewrite Z.sub_diag.
Qed.

(** ** The arithmetic of binary64, from its specification

    The kernel's floats are specified by [SpecFloat]: an operation rounds
    the exact result of the operands.  This part derives, from that
    specification, the three facts the min-max scaling rests on:
    subtraction is monotone in its first argument, the quotient of
    [0 <= p <= r] lies between 0 and 1, and [r / r] is 1.  Values are
    counted in units of the least positive number, [2^-1074], so that they
    are integers. *)

Module B64_facts.

Import B64.

Local Open Scope Z_scope.

Lemma digits2_bounds (p : positive) :
  2 ^ (Zpos (digits2_pos p) - 1) <= Zpos p < 2 ^ Zpos (digits2_pos p).
Proof.
  induction p as [p IH|p IH|]; simpl digits2_pos.
  - rewrite Pos2Z.inj_succ.
    replace (Z.succ (Z.pos (digits2_pos p)) - 1) with (Z.succ (Z.pos (digits2_pos p) - 1)) by lia.
    rewrite !Z.pow_succ_r by lia. lia.
  - rewrite Pos2Z.inj_succ.
    replace (Z.succ (Z.pos (digits2_pos p)) - 1) with (Z.succ (Z.pos (digits2_pos p) - 1)) by lia.
    rewrite !Z.pow_succ_r by lia. lia.
  - simpl. lia.
Qed.

(** digits of a nonnegative integer *)
Lemma Zdigits2_bounds (m : Z) :
  0 < m → 2 ^ (Zdigits2 m - 1) <= m < 2 ^ Zdigits2 m.
Proof. destruct m as [|p|p]; try lia. intros _. apply digits2_bounds. Qed.

Lemma Zdigits2_pos (m : Z) : 0 < m → 0 < Zdigits2 m.
Proof. destruct m; simpl; lia. Qed.

Lemma Zdigits2_unique (m d : Z) :
  2 ^ (d - 1) <= m < 2 ^ d → 0 < m → Zdigits2 m = d.
Proof.
  intros [H1 H2] Hm. destruct (Zdigits2_bounds m Hm) as [H3 H4].
  assert (Hd := Zdigits2_pos m Hm).
  assert (0 < d).
  { destruct (Z_lt_le_dec 0 d) as [|Hd0]; [done|].
    destruct (Z.eq_dec d 0) as [->|]; [simpl in H2; lia|].
    rewrite (Z.pow_neg_r 2 d) in H2 by lia. lia. }
  destruct (Z.lt_trichotomy (Zdigits2 m) d) as [Hlt|[Heq|Hgt]]; [|done|].
  - assert (2 ^ Zdigits2 m <= 2 ^ (d - 1)) by (apply Z.pow_le_mono_r; lia). lia.
  - assert (2 ^ d <= 2 ^ (Zdigits2 m - 1)) by (apply Z.pow_le_mono_r; lia). lia.
Qed.

Lemma iter_pos_nat {A : Type} (f : A → A) (p : positive) (x : A) :
  SpecFloat.iter_pos f p x = Nat.iter (Pos.to_nat p) f x.
Proof.
  revert x. induction p as [p IH|p IH|]; intros x.
  - change (Nat.iter (Pos.to_nat p) f (Nat.iter (Pos.to_nat p) f (f x)) = _) || idtac.
    cbn [SpecFloat.iter_pos]. rewrite !IH, Pos2Nat.inj_xI.
    generalize (Pos.to_nat p) as n. intros n.
    replace (S (2 * n)) with (n + (n + 1))%nat by lia.
    by rewrite !Nat.iter_add.
  - cbn [SpecFloat.iter_pos]. rewrite !IH, Pos2Nat.inj_xO.
    generalize (Pos.to_nat p) as n. intros n.
    replace (2 * n)%nat with (n + n)%nat by lia.
    by rewrite !Nat.iter_add.
  - done.
Qed.

Lemma shr_1_spec (m : Z) (r s : bool) :
  0 <= m →
  shr_1 (Build_shr_record m r s) = Build_shr_record (m / 2) (Z.odd m) (r || s).
Proof.
  intros Hm. rewrite <- Z.div2_div. unfold shr_1.
  destruct m as [|[p|p|]|p]; try done; lia.
Qed.

Lemma pow2_pos (k : Z) : 0 <= k → 0 < 2 ^ k.
Proof. intros. by apply Z.pow_pos_nonneg. Qed.

Lemma mod_pow2_succ (m k : Z) :
  0 <= k →
  m mod 2 ^ (k + 1) = m mod 2 ^ k + 2 ^ k * ((m / 2 ^ k) mod 2).
Proof.
  intros Hk. rewrite Z.pow_add_r, Z.pow_1_r by lia.
  apply Z.rem_mul_r; [|lia]. assert (H := pow2_pos k Hk). lia.
Qed.

(** [n] halvings of an exact record: the quotient, the round bit and the
    sticky bit. *)
Lemma shr_iter_spec (m : Z) (n : nat) :
  0 <= m →
  let mrs := Nat.iter (S n) shr_1 (Build_shr_record m false false) in
  let k := Z.of_nat (S n) in
  shr_m mrs = m / 2 ^ k ∧
  (shr_r mrs = true ↔ 2 ^ (k - 1) <= m mod 2 ^ k) ∧
  (shr_s mrs = true ↔ m mod 2 ^ (k - 1) ≠ 0).
Proof.
  intros Hm. induction n as [|n IH].
  - change (Nat.iter 1 shr_1 (Build_shr_record m false false))
      with (shr_1 (Build_shr_record m false false)).
    rewrite shr_1_spec by done. cbv zeta. simpl shr_m. simpl shr_r. simpl shr_s.
    change (Z.of_nat 1) with 1. change (1 - 1) with 0. rewrite Z.pow_0_r.
    split; [done|]. split.
    + change (2 ^ 1) with 2. rewrite Zmod_odd.
      destruct (Z.odd m); [done|]. split; [done|lia].
    + rewrite Z.mod_1_r. split; [done|lia].
  - cbv zeta in IH. set (mrs := Nat.iter (S n) shr_1 _) in *.
    rewrite Nat.iter_succ. fold mrs. destruct mrs as [m' r' s'].
    simpl in IH. destruct IH as (Hm' & Hr' & Hs').
    set (k := Z.of_nat (S n)) in *.
    assert (Hk : 1 <= k) by lia.
    assert (Hp := pow2_pos k ltac:(lia)).
    assert (Hp1 := pow2_pos (k - 1) ltac:(lia)).
    assert (Hm0 : 0 <= m') by (subst m'; apply Z.div_pos; lia).
    rewrite shr_1_spec by done. cbv zeta.
    replace (Z.of_nat (S (S n))) with (k + 1) by lia. simpl.
    replace (k + 1 - 1) with k by lia.
    assert (Hsplit := mod_pow2_succ m k ltac:(lia)).
    assert (Hsplit1 := mod_pow2_succ m (k - 1) ltac:(lia)).
    replace (k - 1 + 1) with k in Hsplit1 by lia.
    assert (Hb := Zmod_odd (m / 2 ^ k)).
    assert (Hb1 : (m / 2 ^ (k - 1)) mod 2 = 0 ∨ (m / 2 ^ (k - 1)) mod 2 = 1)
      by (rewrite Zmod_odd; destruct (Z.odd (m / 2 ^ (k - 1))); [right|left]; reflexivity).
    assert (Hr := Z.mod_pos_bound m (2 ^ k) Hp).
    assert (Hr1 := Z.mod_pos_bound m (2 ^ (k - 1)) Hp1).
    split; [|split].
    + rewrite Hm', Z.pow_add_r, Z.pow_1_r by lia. apply Z.div_div; lia.
    + rewrite Hm'. destruct (Z.odd (m / 2 ^ k)); [split; [nia|done]|].
      split; [done|nia].
    + destruct r', s'; simpl.
      * split; [|done]. intros _. assert (2 ^ (k - 1) <= m mod 2 ^ k) by by apply Hr'. lia.
      * split; [|done]. intros _. assert (2 ^ (k - 1) <= m mod 2 ^ k) by by apply Hr'. lia.
      * split; [|done]. intros _. assert (m mod 2 ^ (k - 1) ≠ 0) by by apply Hs'. nia.
      * split; [done|]. intros Hne.
        assert (Hx : ¬ 2 ^ (k - 1) <= m mod 2 ^ k) by (intros Hy; by apply Hr' in Hy).
        assert (Hz : ¬ m mod 2 ^ (k - 1) ≠ 0) by (intros Hy; by apply Hs' in Hy).
        nia.
Qed.

Lemma shr_m_iter (n : nat) (mrs : shr_record) :
  0 <= shr_m mrs →
  shr_m (Nat.iter n shr_1 mrs) = shr_m mrs / 2 ^ Z.of_nat n.
Proof.
  intros Hm. induction n as [|n IH].
  - simpl. by rewrite Z.div_1_r.
  - rewrite Nat.iter_succ. destruct (Nat.iter n shr_1 mrs) as [m' r' s'].
    simpl in IH. assert (0 <= m').
    { rewrite IH. apply Z.div_pos; [done|]. apply pow2_pos. lia. }
    rewrite shr_1_spec by done. simpl shr_m. rewrite IH.
    rewrite Nat2Z.inj_succ, Z.pow_succ_r by lia.
    rewrite Z.div_div; [f_equal; lia| |lia].
    assert (H2 := pow2_pos (Z.of_nat n) ltac:(lia)). lia.
Qed.

(** The quotient kept by [shr], whatever the location it starts from. *)
Lemma shr_m_spec (mrs : shr_record) (e k : Z) :
  0 <= shr_m mrs →
  shr_m (fst (shr mrs e k)) = shr_m mrs / 2 ^ Z.max k 0 ∧
  snd (shr mrs e k) = e + Z.max k 0.
Proof.
  intros Hm. unfold shr. destruct k as [|p|p]; simpl fst; simpl snd.
  - simpl. rewrite Z.div_1_r. split; [done|lia].
  - rewrite iter_pos_nat, shr_m_iter by done.
    rewrite positive_nat_Z. rewrite Z.max_l by lia. done.
  - simpl. rewrite Z.div_1_r. split; [done|lia].
Qed.

Lemma shr_exact_round (m e : Z) (p : positive) :
  0 <= m →
  let mrs := fst (shr (shr_record_of_loc m loc_Exact) e (Zpos p)) in
  round_nearest_even (shr_m mrs) (loc_of_shr_record mrs) = rne m (Zpos p).
Proof.
  intros Hm. unfold shr, shr_record_of_loc. simpl fst. rewrite iter_pos_nat.
  destruct (Pos2Nat.is_succ p) as [n Hn].
  assert (Hs := shr_iter_spec m n Hm). cbv zeta in Hs.
  rewrite <- Hn, positive_nat_Z in Hs. destruct Hs as (H1 & H2 & H3).
  set (k := Z.pos p) in *.
  destruct (Nat.iter (Pos.to_nat p) shr_1 _) as [m' r' s']. simpl in *.
  assert (Hp := pow2_pos k ltac:(lia)).
  assert (Hp1 := pow2_pos (k - 1) ltac:(lia)).
  assert (Hpk : 2 ^ k = 2 * 2 ^ (k - 1)).
  { replace k with (Z.succ (k - 1)) at 1 by lia. rewrite Z.pow_succ_r; lia. }
  assert (Hsplit := mod_pow2_succ m (k - 1) ltac:(lia)).
  replace (k - 1 + 1) with k in Hsplit by lia.
  assert (Hb1 : (m / 2 ^ (k - 1)) mod 2 = 0 ∨ (m / 2 ^ (k - 1)) mod 2 = 1)
    by (rewrite Zmod_odd; destruct (Z.odd (m / 2 ^ (k - 1))); [right|left]; reflexivity).
  assert (Hr1 := Z.mod_pos_bound m (2 ^ (k - 1)) Hp1).
  unfold rne. subst m'.
  destruct r', s'; simpl.
  - (* Gt *)
    assert (2 ^ (k - 1) <= m mod 2 ^ k) by by apply H2.
    assert (m mod 2 ^ (k - 1) ≠ 0) by by apply H3.
    assert (Hlt : (2 ^ k <? 2 * (m mod 2 ^ k)) = true) by (apply Z.ltb_lt; nia).
    by rewrite Hlt.
  - (* Eq *)
    assert (2 ^ (k - 1) <= m mod 2 ^ k) by by apply H2.
    assert (¬ m mod 2 ^ (k - 1) ≠ 0) by (intros Hy; by apply H3 in Hy).
    assert (Hlt : (2 ^ k <? 2 * (m mod 2 ^ k)) = false) by (apply Z.ltb_ge; nia).
    assert (Heq : (2 ^ k =? 2 * (m mod 2 ^ k)) = true) by (apply Z.eqb_eq; nia).
    rewrite Hlt, Heq. simpl. rewrite <- Z.negb_odd. by destruct (Z.odd (m / 2 ^ k)).
  - (* Lt *)
    assert (¬ 2 ^ (k - 1) <= m mod 2 ^ k) by (intros Hy; by apply H2 in Hy).
    assert (Hlt : (2 ^ k <? 2 * (m mod 2 ^ k)) = false) by (apply Z.ltb_ge; nia).
    assert (Heq : (2 ^ k =? 2 * (m mod 2 ^ k)) = false) by (apply Z.eqb_neq; nia).
    by rewrite Hlt, Heq.
  - (* Exact *)
    assert (¬ 2 ^ (k - 1) <= m mod 2 ^ k) by (intros Hy; by apply H2 in Hy).
    assert (Hlt : (2 ^ k <? 2 * (m mod 2 ^ k)) = false) by (apply Z.ltb_ge; nia).
    assert (Heq : (2 ^ k =? 2 * (m mod 2 ^ k)) = false) by (apply Z.eqb_neq; nia).
    by rewrite Hlt, Heq.
Qed.

Lemma rne_bounds (Y k : Z) : Y / 2 ^ k <= rne Y k <= Y / 2 ^ k + 1.
Proof. unfold rne. destruct (_ || _); lia. Qed.

Lemma rne_exact (M k : Z) : 0 <= k → rne (M * 2 ^ k) k = M.
Proof.
  intros Hk. assert (Hp := pow2_pos k Hk). unfold rne.
  rewrite Z.mod_mul, Z.div_mul by lia.
  assert ((2 ^ k <? 2 * 0) = false) as -> by (apply Z.ltb_ge; lia).
  assert ((2 ^ k =? 2 * 0) = false) as -> by (apply Z.eqb_neq; lia).
  done.
Qed.

Lemma rne_mono (Y1 Y2 k : Z) :
  0 <= k → Y1 <= Y2 → rne Y1 k <= rne Y2 k.
Proof.
  intros Hk HY. assert (Hp := pow2_pos k Hk).
  assert (HM : Y1 / 2 ^ k <= Y2 / 2 ^ k) by (apply Z.div_le_mono; lia).
  assert (B1 := rne_bounds Y1 k). assert (B2 := rne_bounds Y2 k).
  destruct (Z.eq_dec (Y1 / 2 ^ k) (Y2 / 2 ^ k)) as [Heq|Hne]; [|lia].
  assert (E1 := Z.div_mod Y1 (2 ^ k) ltac:(lia)).
  assert (E2 := Z.div_mod Y2 (2 ^ k) ltac:(lia)).
  assert (Hr : Y1 mod 2 ^ k <= Y2 mod 2 ^ k) by nia.
  unfold rne. rewrite <- Heq.
  destruct (2 ^ k <? 2 * (Y1 mod 2 ^ k)) eqn:L1;
    destruct (2 ^ k <? 2 * (Y2 mod 2 ^ k)) eqn:L2;
    destruct (2 ^ k =? 2 * (Y1 mod 2 ^ k)) eqn:Q1;
    destruct (2 ^ k =? 2 * (Y2 mod 2 ^ k)) eqn:Q2;
    destruct (Z.odd (Y1 / 2 ^ k)); simpl; try lia.
Qed.

(** *** Valid binary64 numbers and their values *)

(** The format: a canonical number has at most 53 digits, exactly 53 above
    the least exponent. *)
Lemma valid_finite (s : bool) (m : positive) (e : Z) :
  valid_binary (S754_finite s m e) = true →
  -1074 <= e <= 971 ∧ Zpos (digits2_pos m) <= 53 ∧
  (-1074 < e → Zpos (digits2_pos m) = 53).
Proof.
  unfold SpecFloat.valid_binary, bounded, canonical_mantissa, fexp, SpecFloat.emin, prec, emax.
  intros [H1 H2]%andb_prop. apply Z.eqb_eq in H1. apply Z.leb_le in H2. lia.
Qed.

Lemma mag_pos (m : positive) (e : Z) : -1074 <= e → 0 < Zpos m * 2 ^ (e + 1074).
Proof. intros He. assert (H := pow2_pos (e + 1074) ltac:(lia)). nia. Qed.

Lemma mag_lt (m1 m2 : positive) (e1 e2 : Z) (s1 s2 : bool) :
  valid_binary (S754_finite s1 m1 e1) = true →
  valid_binary (S754_finite s2 m2 e2) = true →
  e1 < e2 →
  Zpos m1 * 2 ^ (e1 + 1074) < Zpos m2 * 2 ^ (e2 + 1074).
Proof.
  intros (He1 & Hd1 & _)%valid_finite (He2 & _ & Hd2)%valid_finite Hlt.
  specialize (Hd2 ltac:(lia)).
  destruct (digits2_bounds m1) as [_ Hm1]. destruct (digits2_bounds m2) as [Hm2 _].
  rewrite Hd2 in Hm2.
  assert (Hm1' : Zpos m1 < 2 ^ 53).
  { eapply Z.lt_le_trans; [exact Hm1|]. apply Z.pow_le_mono_r; lia. }
  replace (e2 + 1074) with ((e1 + 1074) + (e2 - e1)) by lia.
  rewrite (Z.pow_add_r 2 (e1 + 1074) (e2 - e1)) by lia.
  assert (Ha := pow2_pos (e1 + 1074) ltac:(lia)).
  assert (Hc : 2 ^ 1 <= 2 ^ (e2 - e1)) by (apply Z.pow_le_mono_r; lia).
  change (2 ^ 1) with 2 in Hc. change (53 - 1) with 52 in Hm2.
  assert (H53 : 2 ^ 53 = 2 * 2 ^ 52) by reflexivity.
  set (a := 2 ^ (e1 + 1074)) in *. set (c := 2 ^ (e2 - e1)) in *.
  set (P := 2 ^ 52) in *.
  assert (Zpos m1 * a < 2 * P * a) by nia.
  assert (2 * P * a <= Zpos m2 * a * 2) by nia.
  assert (Zpos m2 * a * 2 <= Zpos m2 * a * c) by nia.
  lia.
Qed.

Lemma SFcompare_pos (m1 m2 : positive) (e1 e2 : Z) (s1 s2 : bool) :
  valid_binary (S754_finite s1 m1 e1) = true →
  valid_binary (S754_finite s2 m2 e2) = true →
  match e1 ?= e2 with
  | Lt => Lt
  | Gt => Gt
  | Eq => Pos.compare_cont Eq m1 m2
  end = (Zpos m1 * 2 ^ (e1 + 1074) ?= Zpos m2 * 2 ^ (e2 + 1074)).
Proof.
  intros H1 H2. destruct (Z.compare_spec e1 e2) as [->|Hlt|Hgt].
  - change (Pos.compare_cont Eq m1 m2) with (Pos.compare m1 m2).
    rewrite Pos2Z.inj_compare. symmetry.
    apply valid_finite in H2 as (He & _).
    assert (Ha := pow2_pos (e2 + 1074) ltac:(lia)).
    destruct (Z.compare_spec (Zpos m1) (Zpos m2)) as [Heq|Hl|Hg].
    + rewrite Heq. apply Z.compare_refl.
    + apply Z.compare_lt_iff. nia.
    + apply Z.compare_gt_iff. nia.
  - symmetry. apply Z.compare_lt_iff. by eapply mag_lt.
  - symmetry. apply Z.compare_gt_iff. by eapply mag_lt.
Qed.

(** On valid finite numbers the comparison of the format is the comparison
    of the values. *)
Lemma SFcompare_sval (x y : spec_float) :
  valid_binary x = true → valid_binary y = true →
  finite_or_zero x = true → finite_or_zero y = true →
  SFcompare x y = Some (sval x ?= sval y).
Proof.
  intros Vx Vy Fx Fy.
  destruct x as [sx|sx| |sx mx ex], y as [sy|sy| |sy my ey]; try done.
  - assert (H := mag_pos my ey). apply valid_finite in Vy as (He & _).
    specialize (H ltac:(lia)). unfold SFcompare. f_equal. symmetry.
    destruct sy; [apply Z.compare_gt_iff|apply Z.compare_lt_iff];
      unfold sval, cond_Zopp; lia.
  - assert (H := mag_pos mx ex). apply valid_finite in Vx as (He & _).
    specialize (H ltac:(lia)). unfold SFcompare. f_equal. symmetry.
    destruct sx; [apply Z.compare_lt_iff|apply Z.compare_gt_iff];
      unfold sval, cond_Zopp; lia.
  - assert (Hx := mag_pos mx ex). assert (Hy := mag_pos my ey).
    assert (Vx' := Vx). assert (Vy' := Vy).
    apply valid_finite in Vx' as (Hex & _). apply valid_finite in Vy' as (Hey & _).
    specialize (Hx ltac:(lia)). specialize (Hy ltac:(lia)).
    unfold SFcompare. f_equal. destruct sx, sy; simpl sval; unfold cond_Zopp.
    + assert (Hc := SFcompare_pos mx my ex ey true true Vx Vy).
      rewrite Z.compare_opp.
      rewrite (Z.compare_antisym (Zpos mx * 2 ^ (ex + 1074)) (Zpos my * 2 ^ (ey + 1074))).
      rewrite <- Hc.
      by destruct (ex ?= ey).
    + symmetry. apply Z.compare_lt_iff. lia.
    + symmetry. apply Z.compare_gt_iff. lia.
    + apply (SFcompare_pos mx my ex ey false false Vx Vy).
Qed.

Lemma SFleb_sval (x y : spec_float) :
  valid_binary x = true → valid_binary y = true →
  finite_or_zero x = true → finite_or_zero y = true →
  SFleb x y = true ↔ sval x <= sval y.
Proof.
  intros Vx Vy Fx Fy. unfold SFleb. rewrite (SFcompare_sval x y) by done.
  destruct (Z.compare_spec (sval x) (sval y)); split; (done || lia).
Qed.

(** *** Rounding an integer number of units *)

Lemma Zdigits2_mono (Y1 Y2 : Z) : 0 < Y1 → Y1 <= Y2 → Zdigits2 Y1 <= Zdigits2 Y2.
Proof.
  intros H1 H2. destruct (Zdigits2_bounds Y1 H1) as [B1 _].
  destruct (Zdigits2_bounds Y2 ltac:(lia)) as [_ B2].
  assert (Hd := Zdigits2_pos Y1 H1).
  destruct (Z_lt_le_dec (Zdigits2 Y2) (Zdigits2 Y1)) as [Hlt|]; [|done].
  assert (2 ^ Zdigits2 Y2 <= 2 ^ (Zdigits2 Y1 - 1)).
  { apply Z.pow_le_mono_r; [lia|]. lia. }
  lia.
Qed.

Lemma Zdigits2_mul_pow2 (m j : Z) :
  0 < m → 0 <= j → Zdigits2 (m * 2 ^ j) = Zdigits2 m + j.
Proof.
  intros Hm Hj. destruct (Zdigits2_bounds m Hm) as [B1 B2].
  assert (Hd := Zdigits2_pos m Hm). assert (Hp := pow2_pos j Hj).
  apply Zdigits2_unique; [|nia].
  replace (Zdigits2 m + j - 1) with (Zdigits2 m - 1 + j) by lia.
  rewrite !Z.pow_add_r by lia. nia.
Qed.

Lemma rne_nonneg (Y k : Z) : 0 <= Y → 0 <= k → 0 <= rne Y k.
Proof.
  intros HY Hk. assert (Hp := pow2_pos k Hk).
  assert (0 <= Y / 2 ^ k) by (apply Z.div_pos; lia).
  assert (B := rne_bounds Y k). lia.
Qed.

Lemma kshift_nonneg (Y : Z) : 0 <= kshift Y.
Proof. unfold kshift. lia. Qed.

Lemma rnd_int_0 : rnd_int 0 = 0.
Proof. reflexivity. Qed.

Lemma rnd_int_nonneg (Y : Z) : 0 <= Y → 0 <= rnd_int Y.
Proof.
  intros HY. unfold rnd_int.
  assert (H1 := rne_nonneg Y (kshift Y) HY (kshift_nonneg Y)).
  assert (H2 := pow2_pos (kshift Y) (kshift_nonneg Y)). nia.
Qed.

(** Rounding is monotone. *)
Lemma rnd_int_mono (Y1 Y2 : Z) : 0 <= Y1 → Y1 <= Y2 → rnd_int Y1 <= rnd_int Y2.
Proof.
  intros H0 Hle. destruct (Z.eq_dec Y1 0) as [->|Hne].
  { rewrite rnd_int_0. apply rnd_int_nonneg. lia. }
  assert (Hpos : 0 < Y1) by lia.
  assert (Hd := Zdigits2_mono Y1 Y2 Hpos Hle).
  assert (Hd1 := Zdigits2_pos Y1 Hpos). assert (Hd2 := Zdigits2_pos Y2 ltac:(lia)).
  destruct (Zdigits2_bounds Y1 Hpos) as [L1 U1].
  destruct (Zdigits2_bounds Y2 ltac:(lia)) as [L2 U2].
  unfold rnd_int. set (k1 := kshift Y1). set (k2 := kshift Y2).
  assert (Hk1 : 0 <= k1) by apply kshift_nonneg.
  assert (Hk2 : 0 <= k2) by apply kshift_nonneg.
  assert (Hk : k1 <= k2) by (unfold k1, k2, kshift; lia).
  assert (P1 := pow2_pos k1 Hk1). assert (P2 := pow2_pos k2 Hk2).
  destruct (Z.eq_dec k1 k2) as [Heq|Hneq].
  - rewrite <- Heq. assert (M := rne_mono Y1 Y2 k1 Hk1 Hle). nia.
  - (* a smaller binade *)
    assert (Hk2' : k2 = Zdigits2 Y2 - 53) by (unfold k1, k2, kshift in *; lia).
    assert (Hdd : Zdigits2 Y1 < Zdigits2 Y2) by (unfold k1, k2, kshift in *; lia).
    assert (Hk1d : k1 <= Zdigits2 Y1) by (unfold k1, kshift; lia).
    (* the rounded small value does not exceed 2^d1 *)
    assert (V1 : rne Y1 k1 * 2 ^ k1 <= 2 ^ Zdigits2 Y1).
    { assert (B := rne_bounds Y1 k1).
      assert (Y1 / 2 ^ k1 < 2 ^ (Zdigits2 Y1 - k1)).
      { apply Z.div_lt_upper_bound; [lia|].
        rewrite <- Z.pow_add_r by lia. by replace (k1 + (Zdigits2 Y1 - k1)) with (Zdigits2 Y1) by lia. }
      assert (2 ^ Zdigits2 Y1 = 2 ^ (Zdigits2 Y1 - k1) * 2 ^ k1).
      { rewrite <- Z.pow_add_r by lia. f_equal. lia. }
      nia. }
    (* the rounded large value is at least 2^(d2-1) *)
    assert (V2 : 2 ^ (Zdigits2 Y2 - 1) <= rne Y2 k2 * 2 ^ k2).
    { assert (B := rne_bounds Y2 k2).
      assert (2 ^ (Zdigits2 Y2 - 1) = 2 ^ 52 * 2 ^ k2).
      { rewrite <- Z.pow_add_r by lia. f_equal. lia. }
      assert (2 ^ 52 <= Y2 / 2 ^ k2).
      { apply Z.div_le_lower_bound; [lia|]. lia. }
      nia. }
    assert (2 ^ Zdigits2 Y1 <= 2 ^ (Zdigits2 Y2 - 1)) by (apply Z.pow_le_mono_r; lia).
    lia.
Qed.

Lemma rne_scale (m k j : Z) :
  0 <= k → 0 <= j → rne (m * 2 ^ j) (k + j) = rne m k.
Proof.
  intros Hk Hj. assert (Pk := pow2_pos k Hk). assert (Pj := pow2_pos j Hj).
  unfold rne. rewrite Z.pow_add_r by lia.
  rewrite Z.mul_mod_distr_r, Z.div_mul_cancel_r by lia.
  assert (((2 ^ k * 2 ^ j <? 2 * (m mod 2 ^ k * 2 ^ j)) = (2 ^ k <? 2 * (m mod 2 ^ k)))) as ->.
  { destruct (Z.ltb_spec (2 ^ k) (2 * (m mod 2 ^ k))).
    - apply Z.ltb_lt. nia.
    - apply Z.ltb_ge. nia. }
  assert (((2 ^ k * 2 ^ j =? 2 * (m mod 2 ^ k * 2 ^ j)) = (2 ^ k =? 2 * (m mod 2 ^ k)))) as ->.
  { destruct (Z.eqb_spec (2 ^ k) (2 * (m mod 2 ^ k))).
    - apply Z.eqb_eq. nia.
    - apply Z.eqb_neq. nia. }
  done.
Qed.

Lemma iter_xO (m d : positive) : Zpos (Pos.iter xO m d) = Zpos m * 2 ^ Zpos d.
Proof.
  induction d as [|d IH] using Pos.peano_ind.
  - simpl. lia.
  - rewrite Pos.iter_succ, Pos2Z.inj_xO, IH, Pos2Z.inj_succ, Z.pow_succ_r by lia. lia.
Qed.

(** *** The rounding of the format computes [rnd_int] *)

Lemma shr_fexp_exact (m e : Z) :
  0 <= m →
  let k := Z.max (fexp prec emax (Zdigits2 m + e) - e) 0 in
  let mrs := fst (shr_fexp prec emax m e loc_Exact) in
  snd (shr_fexp prec emax m e loc_Exact) = e + k ∧
  shr_m mrs = m / 2 ^ k ∧
  round_nearest_even (shr_m mrs) (loc_of_shr_record mrs) = rne m k.
Proof.
  intros Hm k mrs. unfold shr_fexp in *.
  destruct (shr_m_spec (shr_record_of_loc m loc_Exact) e
              (fexp prec emax (Zdigits2 m + e) - e) Hm) as [H1 H2].
  fold k in H1, H2. fold mrs in H1. simpl shr_m in H1.
  split; [done|]. split; [done|].
  subst mrs. destruct (fexp prec emax (Zdigits2 m + e) - e) as [|p|p] eqn:Hk.
  - simpl. subst k. simpl. symmetry. replace m with (m * 2 ^ 0) at 1 by (simpl; lia).
    by apply rne_exact.
  - subst k. rewrite Z.max_l by lia. by apply shr_exact_round.
  - simpl. subst k. simpl. symmetry. replace m with (m * 2 ^ 0) at 1 by (simpl; lia).
    by apply rne_exact.
Qed.

(** What [binary_round_aux] returns for a positive exact mantissa that is
    at or below its canonical exponent. *)
Lemma round_aux_exact (mz ez : Z) :
  0 < mz → -1074 <= ez →
  ez <= fexp prec emax (Zdigits2 mz + ez) →
  match binary_round_aux prec emax false mz ez loc_Exact with
  | S754_finite false m' e' =>
      Zpos m' * 2 ^ (e' + 1074) = rnd_int (mz * 2 ^ (ez + 1074))
  | S754_infinity false => 2 ^ 2098 <= rnd_int (mz * 2 ^ (ez + 1074))
  | _ => False
  end.
Proof.
  intros Hm He Hfe. unfold binary_round_aux.
  destruct (shr_fexp_exact mz ez ltac:(lia)) as (S1 & M1 & R1).
  destruct (shr_fexp prec emax mz ez loc_Exact) as [mrs' e'] eqn:Hs1.
  simpl in S1, M1, R1. rewrite R1.
  set (E := fexp prec emax (Zdigits2 mz + ez)) in *.
  rewrite Z.max_l in * by lia. set (k := E - ez) in *.
  replace (ez + k) with E in S1 by (unfold k; lia). subst e'.
  assert (Hk : 0 <= k) by (unfold k; lia).
  destruct (Zdigits2_bounds mz Hm) as [L U].
  assert (Hd := Zdigits2_pos mz Hm).
  set (d := Zdigits2 mz) in *.
  assert (HE : E = Z.max (d + ez - 53) (-1074)) by reflexivity.
  assert (Pk := pow2_pos k Hk).
  (* the rounded mantissa *)
  set (M' := rne mz k).
  assert (HM' : mz / 2 ^ k <= M' <= mz / 2 ^ k + 1) by apply rne_bounds.
  (* its size *)
  assert (Hsize : (k = 0 ∧ M' = mz ∧ d <= 53 ∧ (-1074 < E → d = 53)) ∨
                  (0 < k ∧ k = d - 53 ∧ 2 ^ 52 <= M' <= 2 ^ 53)).
  { destruct (Z.eq_dec k 0) as [Hk0|Hk0].
    - left. split; [done|]. split.
      + unfold M'. rewrite Hk0. replace mz with (mz * 2 ^ 0) at 1 by (simpl; lia).
        by apply rne_exact.
      + unfold k in Hk0. lia.
    - right. assert (k = d - 53) by (unfold k; lia). split; [lia|]. split; [done|].
      assert (2 ^ (d - 1) = 2 ^ 52 * 2 ^ k).
      { rewrite <- Z.pow_add_r by lia. f_equal. lia. }
      assert (2 ^ d = 2 ^ 53 * 2 ^ k).
      { rewrite <- Z.pow_add_r by lia. f_equal. lia. }
      assert (2 ^ 52 <= mz / 2 ^ k) by (apply Z.div_le_lower_bound; lia).
      assert (mz / 2 ^ k < 2 ^ 53) by (apply Z.div_lt_upper_bound; lia).
      lia. }
  assert (HMpos : 0 < M').
  { destruct Hsize as [(_ & -> & _)|(_ & _ & H52)]; [done|].
    assert (0 < 2 ^ 52) by done. lia. }
  (* the value, in units *)
  assert (Hval : rnd_int (mz * 2 ^ (ez + 1074)) = M' * 2 ^ (E + 1074)).
  { unfold rnd_int, kshift. rewrite Zdigits2_mul_pow2 by lia. fold d.
    replace (Z.max (d + (ez + 1074) - 53) 0) with (k + (ez + 1074)) by (unfold k; lia).
    rewrite rne_scale by lia. fold M'. f_equal. f_equal. unfold k. lia. }
  rewrite Hval.
  (* the second alignment *)
  destruct (shr_fexp_exact M' E ltac:(lia)) as (S2 & M2 & _).
  destruct (shr_fexp prec emax M' E loc_Exact) as [mrs'' e''] eqn:Hs2.
  simpl in S2, M2.
  set (d' := Zdigits2 M') in *.
  assert (Hd' : (M' < 2 ^ 53 ∧ e'' = E ∧ shr_m mrs'' = M') ∨
                (M' = 2 ^ 53 ∧ e'' = E + 1 ∧ shr_m mrs'' = 2 ^ 52 ∧ 0 < k)).
  { destruct (Z.eq_dec M' (2 ^ 53)) as [H53|H53].
    - right. assert (d' = 54).
      { unfold d'. rewrite H53. reflexivity. }
      destruct Hsize as [(Hk0 & HMz & Hd53 & _)|(Hkp & Hkd & _)].
      + exfalso. rewrite HMz in H53. rewrite H53 in U.
        assert (2 ^ d <= 2 ^ 53) by (apply Z.pow_le_mono_r; lia). lia.
      + assert (fexp prec emax (d' + E) - E = 1).
        { unfold fexp, SpecFloat.emin, prec, emax. lia. }
        rewrite H0 in S2, M2. simpl Z.max in S2, M2.
        split; [done|]. split; [lia|]. split; [|done].
        rewrite M2, H53. reflexivity.
    - left. assert (HM53 : M' < 2 ^ 53).
      { destruct Hsize as [(_ & -> & Hd53 & _)|(_ & _ & H5)]; [|lia].
        eapply Z.lt_le_trans; [exact U|]. apply Z.pow_le_mono_r; lia. }
      split; [done|].
      destruct (Zdigits2_bounds M' HMpos) as [L' U']. fold d' in L', U'.
      assert (d' <= 53).
      { destruct (Z_lt_le_dec 53 d'); [|done].
        assert (2 ^ 53 <= 2 ^ (d' - 1)) by (apply Z.pow_le_mono_r; lia). lia. }
      assert (-1074 < E → d' = 53).
      { intros HE1. destruct Hsize as [(_ & HMz & _ & Hd53)|(_ & _ & H5)].
        - unfold d'. rewrite HMz. fold d. by apply Hd53.
        - destruct (Z_lt_le_dec d' 53); [|lia].
          assert (2 ^ d' <= 2 ^ 52) by (apply Z.pow_le_mono_r; lia). lia. }
      assert (fexp prec emax (d' + E) - E <= 0).
      { unfold fexp, SpecFloat.emin, prec, emax. lia. }
      rewrite Z.max_r in S2, M2 by lia. simpl in M2. rewrite Z.div_1_r in M2.
      split; [lia|done]. }
  assert (HEmin : -1074 <= E) by lia.
  destruct Hd' as [(HM53 & -> & Hm'')|(HM53 & -> & Hm'' & Hkp)]; rewrite Hm''.
  - destruct M' as [|p|p] eqn:HMp; try lia.
    destruct (Z.leb_spec E (emax - prec)) as [Hov|Hov]; [done|].
    unfold emax, prec in Hov.
    assert (HE1 : -1074 < E) by lia.
    assert (2 ^ 52 <= Zpos p).
    { destruct Hsize as [(_ & HMz & _ & Hd53)|(_ & _ & H5)]; [|lia].
      specialize (Hd53 HE1). rewrite Hd53 in L. rewrite HMz. exact L. }
    assert (2 ^ 2098 = 2 ^ 52 * 2 ^ 2046) by reflexivity.
    assert (2 ^ 2046 <= 2 ^ (E + 1074)) by (apply Z.pow_le_mono_r; lia).
    nia.
  - change (2 ^ 52) with (Zpos (2 ^ 52)%positive).
    cbv iota beta.
    assert (Hv : Z.pos (2 ^ 52) * 2 ^ (E + 1 + 1074) = M' * 2 ^ (E + 1074)).
    { rewrite HM53. replace (E + 1 + 1074) with (Z.succ (E + 1074)) by lia.
      rewrite Z.pow_succ_r by lia.
      change (2 ^ 53) with (2 * Z.pos (2 ^ 52)). lia. }
    destruct (Z.leb_spec (E + 1) (emax - prec)) as [Hov|Hov]; [done|].
    unfold emax, prec in Hov. rewrite <- Hv.
    assert (2 ^ 2098 = Z.pos (2 ^ 52) * 2 ^ 2046) by reflexivity.
    assert (2 ^ 2046 <= 2 ^ (E + 1 + 1074)) by (apply Z.pow_le_mono_r; lia).
    nia.
Qed.

Lemma shl_align_spec (m : positive) (e E : Z) :
  snd (shl_align m e E) = Z.min e E ∧
  Zpos (fst (shl_align m e E)) = Zpos m * 2 ^ (e - Z.min e E).
Proof.
  unfold shl_align. destruct (E - e) as [|p|p] eqn:Hd; simpl fst; simpl snd.
  - assert (E = e) by lia. subst. rewrite Z.min_id, Z.sub_diag. simpl. lia.
  - rewrite Z.min_l by lia. rewrite Z.sub_diag. simpl. lia.
  - rewrite Z.min_r by lia. rewrite iter_xO. split; [done|]. do 2 f_equal. lia.
Qed.

Lemma binary_round_ival (m : positive) (e : Z) :
  -1074 <= e →
  match binary_round prec emax false m e with
  | S754_finite false m' e' =>
      Zpos m' * 2 ^ (e' + 1074) = rnd_int (Zpos m * 2 ^ (e + 1074))
  | S754_infinity false => 2 ^ 2098 <= rnd_int (Zpos m * 2 ^ (e + 1074))
  | _ => False
  end.
Proof.
  intros He. unfold binary_round.
  set (E := fexp prec emax (Z.pos (digits2_pos m) + e)).
  destruct (shl_align_spec m e E) as [H1 H2].
  destruct (shl_align m e E) as [mz ez]. simpl in H1, H2.
  assert (HE : E = Z.max (Z.pos (digits2_pos m) + e - 53) (-1074)) by reflexivity.
  assert (Hez : -1074 <= ez) by lia.
  assert (Hdz : Zdigits2 (Zpos mz) + ez = Z.pos (digits2_pos m) + e).
  { rewrite H2, Zdigits2_mul_pow2 by lia. simpl Zdigits2. lia. }
  assert (Hval : Zpos mz * 2 ^ (ez + 1074) = Zpos m * 2 ^ (e + 1074)).
  { rewrite H2, <- Z.mul_assoc, <- Z.pow_add_r by lia. do 2 f_equal. lia. }
  rewrite <- Hval. apply round_aux_exact; [done|done|].
  rewrite Hdz. fold E. lia.
Qed.

Lemma rnd_int_valid (s : bool) (m : positive) (e : Z) :
  valid_binary (S754_finite s m e) = true →
  rnd_int (Zpos m * 2 ^ (e + 1074)) = Zpos m * 2 ^ (e + 1074).
Proof.
  intros (He & Hd & Hd53)%valid_finite. unfold rnd_int, kshift.
  rewrite Zdigits2_mul_pow2 by lia. simpl Zdigits2.
  replace (Z.max (Z.pos (digits2_pos m) + (e + 1074) - 53) 0) with (e + 1074) by lia.
  by rewrite rne_exact by lia.
Qed.

(** A difference that is not negative is the exact difference, rounded. *)
Lemma SFsub_rounds (x y : spec_float) :
  valid_binary x = true → valid_binary y = true →
  finite_or_zero x = true → finite_or_zero y = true →
  0 <= sval x - sval y →
  rounds_to (sval x - sval y) (SFsub prec emax x y).
Proof.
  intros Vx Vy Fx Fy HD.
  destruct x as [sx|sx| |sx mx ex], y as [sy|sy| |sy my ey]; try done.
  - simpl. by destruct sx, sy.
  - assert (He := valid_finite _ _ _ Vy). assert (Hp := mag_pos my ey ltac:(lia)).
    destruct sy; [|exfalso; simpl in HD; lia].
    unfold SFsub, rounds_to, sval, cond_Zopp, negb.
    replace (0 - - (Z.pos my * 2 ^ (ey + 1074))) with (Z.pos my * 2 ^ (ey + 1074)) by lia.
    symmetry. apply (rnd_int_valid true my ey Vy).
  - assert (He := valid_finite _ _ _ Vx). assert (Hp := mag_pos mx ex ltac:(lia)).
    destruct sx; [exfalso; simpl in HD; lia|].
    unfold SFsub, rounds_to, sval, cond_Zopp.
    rewrite Z.sub_0_r. symmetry. apply (rnd_int_valid false mx ex Vx).
  - assert (Hex := valid_finite _ _ _ Vx). assert (Hey := valid_finite _ _ _ Vy).
    unfold SFsub. set (ez := Z.min ex ey).
    destruct (shl_align_spec mx ex ez) as [_ Hx].
    destruct (shl_align_spec my ey ez) as [_ Hy].
    rewrite Hx, Hy. replace (Z.min ex ez) with ez by (unfold ez; lia).
    replace (Z.min ey ez) with ez by (unfold ez; lia).
    assert (Hez : -1074 <= ez) by (unfold ez; lia).
    assert (HDz : (cond_Zopp sx (Z.pos mx * 2 ^ (ex - ez))
                   - cond_Zopp sy (Z.pos my * 2 ^ (ey - ez))) * 2 ^ (ez + 1074)
                  = sval (S754_finite sx mx ex) - sval (S754_finite sy my ey)).
    { simpl sval.
      assert (Ex : Z.pos mx * 2 ^ (ex + 1074) = Z.pos mx * 2 ^ (ex - ez) * 2 ^ (ez + 1074)).
      { rewrite <- Z.mul_assoc, <- Z.pow_add_r by (unfold ez; lia). do 2 f_equal. lia. }
      assert (Ey : Z.pos my * 2 ^ (ey + 1074) = Z.pos my * 2 ^ (ey - ez) * 2 ^ (ez + 1074)).
      { rewrite <- Z.mul_assoc, <- Z.pow_add_r by (unfold ez; lia). do 2 f_equal. lia. }
      rewrite Ex, Ey. destruct sx, sy; unfold cond_Zopp; lia. }
    rewrite <- HDz in *.
    assert (Pz := pow2_pos (ez + 1074) ltac:(lia)).
    destruct (cond_Zopp sx (Z.pos mx * 2 ^ (ex - ez))
              - cond_Zopp sy (Z.pos my * 2 ^ (ey - ez))) as [|p|p] eqn:HD'.
    + simpl. lia.
    + unfold rounds_to, binary_normalize.
      assert (Hr := binary_round_ival p ez Hez).
      by destruct (binary_round prec emax false p ez) as [?|[]| |[] ? ?].
    + exfalso. assert (Z.neg p * 2 ^ (ez + 1074) < 0) by nia. lia.
Qed.

(** *** The order of all numbers *)

Lemma sval_bound (x : spec_float) :
  valid_binary x = true → - 2 ^ 2098 < sval x < 2 ^ 2098.
Proof.
  intros Vx. assert (0 < 2 ^ 2098) by done.
  destruct x as [s|s| |s m e]; simpl; try lia.
  apply valid_finite in Vx as (He & Hd & _).
  destruct (digits2_bounds m) as [_ U].
  assert (Zpos m < 2 ^ 53).
  { eapply Z.lt_le_trans; [exact U|]. apply Z.pow_le_mono_r; lia. }
  assert (2 ^ (e + 1074) <= 2 ^ 2045) by (apply Z.pow_le_mono_r; lia).
  assert (P := pow2_pos (e + 1074) ltac:(lia)).
  assert (2 ^ 2098 = 2 ^ 53 * 2 ^ 2045) by reflexivity.
  assert (Zpos m * 2 ^ (e + 1074) < 2 ^ 53 * 2 ^ 2045) by nia.
  destruct s; simpl; lia.
Qed.

Lemma SFcompare_xval (x y : spec_float) :
  valid_binary x = true → valid_binary y = true →
  not_nan x = true → not_nan y = true →
  SFcompare x y = Some (xval x ?= xval y).
Proof.
  intros Vx Vy Nx Ny.
  assert (Bx := sval_bound x Vx). assert (By := sval_bound y Vy).
  assert (0 < 2 ^ 2098) by done.
  destruct x as [sx|sx| |sx mx ex] eqn:Ex, y as [sy|sy| |sy my ey] eqn:Ey;
    try done;
    try (rewrite <- Ex, <- Ey; subst; by apply SFcompare_sval);
    unfold SFcompare, xval; f_equal; symmetry.
  - destruct sy; [apply Z.compare_gt_iff|apply Z.compare_lt_iff];
      unfold sval, cond_Zopp; lia.
  - destruct sx; [apply Z.compare_lt_iff|apply Z.compare_gt_iff];
      unfold sval, cond_Zopp; lia.
  - destruct sx, sy; [apply Z.compare_refl|apply Z.compare_lt_iff
                     |apply Z.compare_gt_iff|apply Z.compare_refl];
      unfold cond_Zopp; lia.
  - destruct sx; [apply Z.compare_lt_iff|apply Z.compare_gt_iff];
      unfold cond_Zopp in *; lia.
  - destruct sy; [apply Z.compare_gt_iff|apply Z.compare_lt_iff];
      unfold cond_Zopp in *; lia.
Qed.

Lemma SFleb_xval (x y : spec_float) :
  valid_binary x = true → valid_binary y = true →
  not_nan x = true → not_nan y = true →
  SFleb x y = true ↔ xval x <= xval y.
Proof.
  intros Vx Vy Nx Ny. unfold SFleb. rewrite (SFcompare_xval x y) by done.
  destruct (Z.compare_spec (xval x) (xval y)); split; (done || lia).
Qed.

Lemma SFltb_xval (x y : spec_float) :
  valid_binary x = true → valid_binary y = true →
  not_nan x = true → not_nan y = true →
  SFltb x y = true ↔ xval x < xval y.
Proof.
  intros Vx Vy Nx Ny. unfold SFltb. rewrite (SFcompare_xval x y) by done.
  destruct (Z.compare_spec (xval x) (xval y)); split; (done || lia).
Qed.

Lemma SFleb_not_nan (x y : spec_float) :
  SFleb x y = true → not_nan x = true ∧ not_nan y = true.
Proof. by destruct x, y. Qed.

Lemma xval_finite (x : spec_float) :
  valid_binary x = true → not_nan x = true →
  - 2 ^ 2098 < xval x < 2 ^ 2098 → finite_or_zero x = true.
Proof. intros _ Nx H. destruct x as [|[]| |]; try done; simpl in H; lia. Qed.

Lemma xval_sval (x : spec_float) : finite_or_zero x = true → xval x = sval x.
Proof. by destruct x. Qed.

(** *** Subtraction is monotone in its first argument *)

Lemma rounds_to_finite (D : Z) (r : spec_float) :
  0 <= D → rounds_to D r → finite_or_zero r = true → sval r = rnd_int D.
Proof.
  intros HD Hr Fr. destruct r as [s|[]| |[] m e]; try done; simpl in *.
  by rewrite Hr, rnd_int_0.
Qed.

Lemma rounds_to_mono (D1 D2 : Z) (r1 r2 : spec_float) :
  0 <= D1 → D1 <= D2 →
  rounds_to D1 r1 → rounds_to D2 r2 →
  valid_binary r1 = true → valid_binary r2 = true →
  finite_or_zero r2 = true →
  finite_or_zero r1 = true ∧ 0 <= sval r1 ∧ sval r1 <= sval r2.
Proof.
  intros H0 Hle R1 R2 V1 V2 F2.
  assert (Hm := rnd_int_mono D1 D2 H0 Hle).
  assert (Hn := rnd_int_nonneg D1 H0).
  assert (S2 := rounds_to_finite D2 r2 ltac:(lia) R2 F2).
  assert (B2 := sval_bound r2 V2).
  assert (F1 : finite_or_zero r1 = true).
  { destruct r1 as [s|[]| |[] m e]; try done. simpl in R1. lia. }
  assert (S1 := rounds_to_finite D1 r1 H0 R1 F1). split; [done|]. lia.
Qed.

Lemma SFsub_finite_args (x y : spec_float) :
  finite_or_zero (SFsub prec emax x y) = true →
  finite_or_zero x = true ∧ finite_or_zero y = true.
Proof.
  destruct x as [sx|sx| |sx mx ex], y as [sy|sy| |sy my ey]; try done.
  - by destruct sx, sy.
Qed.

(** For [a <= v <= b] with [b - a] finite: [0 <= v - a <= b - a], in the
    arithmetic of the format. *)
Lemma SFsub_mono (a v b : spec_float) :
  valid_binary a = true → valid_binary v = true → valid_binary b = true →
  valid_binary (SFsub prec emax v a) = true →
  valid_binary (SFsub prec emax b a) = true →
  SFleb a v = true → SFleb v b = true →
  finite_or_zero (SFsub prec emax b a) = true →
  finite_or_zero (SFsub prec emax v a) = true ∧
  0 <= sval (SFsub prec emax v a) ∧
  sval (SFsub prec emax v a) <= sval (SFsub prec emax b a).
Proof.
  intros Va Vv Vb Vva Vba Lav Lvb Fba.
  destruct (SFsub_finite_args b a Fba) as [Fb Fa].
  destruct (SFleb_not_nan a v Lav) as [Na Nv].
  destruct (SFleb_not_nan v b Lvb) as [_ Nb].
  apply (SFleb_xval a v Va Vv Na Nv) in Lav.
  apply (SFleb_xval v b Vv Vb Nv Nb) in Lvb.
  assert (Ba := sval_bound a Va). assert (Bb := sval_bound b Vb).
  rewrite (xval_sval a Fa) in Lav. rewrite (xval_sval b Fb) in Lvb.
  assert (Fv : finite_or_zero v = true) by (apply xval_finite; [done|done|lia]).
  rewrite (xval_sval v Fv) in Lav, Lvb.
  apply (rounds_to_mono (sval v - sval a) (sval b - sval a)); try done; try lia.
  - apply SFsub_rounds; try done. lia.
  - apply SFsub_rounds; try done. lia.
Qed.

(** *** Division of a smaller by a larger positive number *)

Lemma round_nearest_even_bounds (M : Z) (l : location) :
  M <= round_nearest_even M l <= M + 1.
Proof. destruct l as [|[]]; simpl; try lia. destruct (Z.even M); lia. Qed.

Lemma shr_record_of_loc_m (m : Z) (l : location) : shr_m (shr_record_of_loc m l) = m.
Proof. by destruct l as [|[]]. Qed.

(** A quotient below one rounds to at most one. *)
Lemma round_aux_le_one (mx ex : Z) (lx : location) :
  0 <= mx → ex <= 0 → mx + 1 <= 2 ^ (- ex) →
  match binary_round_aux prec emax false mx ex lx with
  | S754_zero _ => True
  | S754_finite false m' e' => e' <= 0 ∧ Zpos m' <= 2 ^ (- e')
  | _ => False
  end.
Proof.
  intros Hm He Hb. unfold binary_round_aux.
  assert (S1 := shr_m_spec (shr_record_of_loc mx lx) ex
                  (fexp prec emax (Zdigits2 mx + ex) - ex)).
  rewrite shr_record_of_loc_m in S1. specialize (S1 Hm).
  change (shr (shr_record_of_loc mx lx) ex (fexp prec emax (Zdigits2 mx + ex) - ex))
    with (shr_fexp prec emax mx ex lx) in S1.
  destruct S1 as [M1 E1].
  destruct (shr_fexp prec emax mx ex lx) as [mrs' e'] eqn:Hs1.
  simpl in M1, E1.
  set (kk := Z.max (fexp prec emax (Zdigits2 mx + ex) - ex) 0) in *.
  assert (Hkk : 0 <= kk) by (unfold kk; lia).
  assert (Pk := pow2_pos kk Hkk).
  assert (He' : e' <= 0).
  { destruct (Z.eq_dec mx 0) as [->|Hne].
    - unfold kk, fexp, SpecFloat.emin, prec, emax in *. simpl Zdigits2 in *. lia.
    - destruct (Zdigits2_bounds mx ltac:(lia)) as [L _].
      assert (Zdigits2 mx - 1 < - ex).
      { apply (Z.pow_lt_mono_r_iff 2); lia. }
      unfold kk, fexp, SpecFloat.emin, prec, emax in *. lia. }
  assert (Hpow : 2 ^ (- ex) = 2 ^ kk * 2 ^ (- e')).
  { rewrite <- Z.pow_add_r by lia. f_equal. lia. }
  assert (HM : shr_m mrs' + 1 <= 2 ^ (- e')).
  { rewrite M1. assert (mx / 2 ^ kk < 2 ^ (- e')); [|lia].
    apply Z.div_lt_upper_bound; lia. }
  assert (HM0 : 0 <= shr_m mrs') by (rewrite M1; apply Z.div_pos; lia).
  set (M' := round_nearest_even (shr_m mrs') (loc_of_shr_record mrs')).
  assert (HM' := round_nearest_even_bounds (shr_m mrs') (loc_of_shr_record mrs')).
  fold M' in HM'.
  destruct (shr_fexp_exact M' e' ltac:(lia)) as (S2 & M2 & _).
  destruct (shr_fexp prec emax M' e' loc_Exact) as [mrs'' e''] eqn:Hs2.
  simpl in S2, M2.
  set (k2 := Z.max (fexp prec emax (Zdigits2 M' + e') - e') 0) in *.
  assert (Hk2 : 0 <= k2) by (unfold k2; lia).
  assert (P2 := pow2_pos k2 Hk2).
  assert (He'' : e'' <= 0).
  { destruct (Z.eq_dec M' 0) as [HM0'|Hne].
    - assert (Hz : Zdigits2 M' = 0) by (by rewrite HM0').
      unfold k2, fexp, SpecFloat.emin, prec, emax in *. lia.
    - destruct (Zdigits2_bounds M' ltac:(lia)) as [L _].
      assert (Zdigits2 M' - 1 <= - e').
      { apply (Z.pow_le_mono_r_iff 2); lia. }
      unfold k2, fexp, SpecFloat.emin, prec, emax in *. lia. }
  assert (Hpow2 : 2 ^ (- e') = 2 ^ k2 * 2 ^ (- e'')).
  { rewrite <- Z.pow_add_r by lia. f_equal. lia. }
  assert (HM'' : 0 <= shr_m mrs'' <= 2 ^ (- e'')).
  { rewrite M2. split; [apply Z.div_pos; lia|].
    apply Z.div_le_upper_bound; lia. }
  destruct (shr_m mrs'') as [|p|p] eqn:Hp; [done| |lia].
  destruct (Z.leb_spec e'' (emax - prec)) as [Hov|Hov].
  - split; [done|lia].
  - unfold emax, prec in Hov. lia.
Qed.

Lemma le_one (m : positive) (e : Z) :
  e <= 0 → -1074 <= e → Zpos m <= 2 ^ (- e) →
  sval (S754_finite false m e) <= sval SFone.
Proof.
  intros He Hemin Hm. unfold SFone, sval, cond_Zopp.
  assert (P := pow2_pos (e + 1074) ltac:(lia)).
  assert (2 ^ (- e) * 2 ^ (e + 1074) = Z.pos (2 ^ 52) * 2 ^ (-52 + 1074)).
  { rewrite <- Z.pow_add_r by lia. replace (- e + (e + 1074)) with 1074 by lia.
    reflexivity. }
  nia.
Qed.

Lemma div_core_lt (mp mr : positive) (ep er : Z) :
  valid_binary (S754_finite false mp ep) = true →
  valid_binary (S754_finite false mr er) = true →
  Zpos mp * 2 ^ (ep + 1074) < Zpos mr * 2 ^ (er + 1074) →
  let '(q, e', _) := SFdiv_core_binary prec emax (Zpos mp) ep (Zpos mr) er in
  0 <= q ∧ e' <= 0 ∧ q + 1 <= 2 ^ (- e').
Proof.
  intros Vp Vr Hlt. unfold SFdiv_core_binary.
  apply valid_finite in Vp as (Hep & _). apply valid_finite in Vr as (Her & _).
  simpl Zdigits2.
  destruct (digits2_bounds mp) as [Lp Up]. destruct (digits2_bounds mr) as [Lr Ur].
  set (d1 := Z.pos (digits2_pos mp)) in *. set (d2 := Z.pos (digits2_pos mr)) in *.
  assert (Pp := pow2_pos (ep + 1074) ltac:(lia)).
  assert (Pr := pow2_pos (er + 1074) ltac:(lia)).
  (* the magnitudes *)
  assert (Hmag : d1 + ep <= d2 + er).
  { assert (2 ^ (d1 - 1 + (ep + 1074)) < 2 ^ (d2 + (er + 1074))).
    { assert (Hd1 : 0 < d1) by (unfold d1; lia).
      assert (Hd2 : 0 < d2) by (unfold d2; lia).
      rewrite (Z.pow_add_r 2 (d1 - 1) (ep + 1074)) by lia.
      rewrite (Z.pow_add_r 2 d2 (er + 1074)) by lia.
      assert (2 ^ (d1 - 1) * 2 ^ (ep + 1074) <= Z.pos mp * 2 ^ (ep + 1074)) by nia.
      assert (Z.pos mr * 2 ^ (er + 1074) < 2 ^ d2 * 2 ^ (er + 1074)) by nia.
      lia. }
    apply (Z.pow_lt_mono_r_iff 2) in H; lia. }
  set (e' := Z.min (fexp prec emax (d1 + ep - (d2 + er))) (ep - er)).
  assert (He' : e' <= -53).
  { unfold e', fexp, SpecFloat.emin, prec, emax. lia. }
  set (s := ep - er - e').
  assert (Hs : 0 <= s) by (unfold s, e'; lia).
  set (m' := match s with Z.pos _ => Z.pos mp ≪ s | 0 => Z.pos mp | Z.neg _ => 0 end).
  assert (Hm' : m' = Zpos mp * 2 ^ s).
  { unfold m'. destruct s as [|ps|ps] eqn:Es; [simpl; lia| |lia].
    by rewrite Z.shiftl_mul_pow2. }
  assert (Ps := pow2_pos s Hs).
  destruct (Z.div_eucl m' (Z.pos mr)) as [q r] eqn:Hdiv.
  assert (Hq : q = m' / Zpos mr) by (unfold Z.div; by rewrite Hdiv).
  assert (Hq0 : 0 <= q) by (rewrite Hq; apply Z.div_pos; nia).
  split; [done|]. split; [lia|].
  assert (Pe := pow2_pos (- e') ltac:(lia)).
  destruct (Z_lt_le_dec q (2 ^ (- e'))) as [|Hge]; [lia|]. exfalso.
  assert (Hqm : q * Zpos mr <= m').
  { rewrite Hq. rewrite Z.mul_comm. apply Z.mul_div_le. lia. }
  assert (H1 : Zpos mr * 2 ^ (- e') <= Zpos mp * 2 ^ s) by nia.
  (* scale both sides by the units of r *)
  assert (H2 : 2 ^ s * 2 ^ (er + 1074) = 2 ^ (ep + 1074) * 2 ^ (- e')).
  { rewrite <- !Z.pow_add_r by lia. f_equal. unfold s. lia. }
  assert (H3 : Zpos mr * 2 ^ (er + 1074) * 2 ^ (- e')
               <= Zpos mp * 2 ^ (ep + 1074) * 2 ^ (- e')) by nia.
  nia.
Qed.

Lemma SFdiv_same (s : bool) (m : positive) (e : Z) :
  SFdiv prec emax (S754_finite s m e) (S754_finite s m e) = SFone.
Proof.
  unfold SFdiv, SFdiv_core_binary. rewrite !Z.sub_diag.
  change (fexp prec emax 0) with (-53).
  change (Z.min (-53) 0) with (-53). change (0 - -53) with 53. cbv iota.
  rewrite Z.shiftl_mul_pow2 by lia.
  assert (Z.div_eucl (Z.pos m * 2 ^ 53) (Z.pos m) = (2 ^ 53, 0)) as ->.
  { assert (Hq : (Z.pos m * 2 ^ 53) / Z.pos m = 2 ^ 53)
      by (rewrite Z.mul_comm; apply Z.div_mul; lia).
    assert (Hr : (Z.pos m * 2 ^ 53) mod Z.pos m = 0)
      by (rewrite Z.mul_comm; apply Z.mod_mul; lia).
    unfold Z.div, Z.modulo in Hq, Hr.
    destruct (Z.div_eucl (Z.pos m * 2 ^ 53) (Z.pos m)) as [q r]. by subst. }
  assert (new_location (Z.pos m) 0 = loc_Exact) as ->.
  { unfold new_location, new_location_even, new_location_odd. by destruct (Z.even _). }
  destruct s; vm_compute; reflexivity.
Qed.

(** For [0 <= p <= r] with [r] positive and finite: [0 <= p / r <= 1]. *)
Lemma SFdiv_unit (p r : spec_float) :
  valid_binary p = true → valid_binary r = true →
  valid_binary (SFdiv prec emax p r) = true →
  finite_or_zero p = true → finite_or_zero r = true →
  0 <= sval p → sval p <= sval r → 0 < sval r →
  finite_or_zero (SFdiv prec emax p r) = true ∧
  0 <= sval (SFdiv prec emax p r) <= sval SFone.
Proof.
  intros Vp Vr Vq Fp Fr Hp Hpr Hr.
  assert (H1 : 0 <= sval SFone) by done.
  destruct r as [sr|sr| |sr mr er]; try done.
  assert (Her := valid_finite _ _ _ Vr). assert (Pr := mag_pos mr er ltac:(lia)).
  destruct sr; [simpl in Hr; lia|].
  destruct p as [sp|sp| |sp mp ep]; try done.
  - assert (Hep := valid_finite _ _ _ Vp). assert (Pp := mag_pos mp ep ltac:(lia)).
    destruct sp; [simpl in Hp; lia|]. simpl in Hpr.
    destruct (Z.eq_dec (Z.pos mp * 2 ^ (ep + 1074)) (Z.pos mr * 2 ^ (er + 1074)))
      as [Heq|Hne].
    + (* the same number *)
      assert (Hc := SFcompare_sval _ _ Vp Vr eq_refl eq_refl). simpl sval in Hc.
      rewrite Heq, Z.compare_refl in Hc. unfold SFcompare in Hc.
      injection Hc as Hc.
      destruct (Z.compare_spec ep er) as [->|?|?]; try done.
      apply Pos.compare_eq in Hc. subst mr.
      rewrite SFdiv_same. split; [done|]. split; [done|lia].
    + assert (Hlt : Z.pos mp * 2 ^ (ep + 1074) < Z.pos mr * 2 ^ (er + 1074)) by lia.
      assert (Hcore := div_core_lt mp mr ep er Vp Vr Hlt).
      unfold SFdiv in *. simpl xorb in *.
      destruct (SFdiv_core_binary prec emax (Z.pos mp) ep (Z.pos mr) er)
        as [[q e'] l].
      destruct Hcore as (Hq & He' & Hq1).
      assert (Hround := round_aux_le_one q e' l Hq He' Hq1).
      destruct (binary_round_aux prec emax false q e' l) as [s0|[]| |[] m0 e0];
        try done.
      destruct Hround as [He0 Hm0]. split; [done|].
      assert (Hv := valid_finite _ _ _ Vq).
      assert (P0 := mag_pos m0 e0 ltac:(lia)).
      split; [simpl; lia|]. apply le_one; lia.
Qed.

End B64_facts.

(** ** The same facts on the floats of the kernel *)

Lemma isnan_not_nan (x : float) :
  np.isnan x = false ↔ B64.not_nan (Prim2SF x) = true.
Proof.
  unfold np.isnan, is_nan. rewrite FloatAxioms.eqb_spec, negb_false_iff.
  unfold SFeqb. destruct (Prim2SF x) as [s|s| |s m e] eqn:Hx.
  - by rewrite SFcompare_refl.
  - by rewrite SFcompare_refl.
  - done.
  - by rewrite SFcompare_refl.
Qed.

Lemma leb_fval (x y : float) :
  np.isnan x = false → np.isnan y = false →
  PrimFloat.leb x y = true ↔ (fval x ≤ fval y)%Z.
Proof.
  intros Hx%isnan_not_nan Hy%isnan_not_nan. rewrite leb_spec.
  apply B64_facts.SFleb_xval; auto using Prim2SF_valid.
Qed.

Lemma ltb_fval (x y : float) :
  np.isnan x = false → np.isnan y = false →
  PrimFloat.ltb x y = true ↔ (fval x < fval y)%Z.
Proof.
  intros Hx%isnan_not_nan Hy%isnan_not_nan. rewrite ltb_spec.
  apply B64_facts.SFltb_xval; auto using Prim2SF_valid.
Qed.

Lemma leb_not_nan (x y : float) :
  PrimFloat.leb x y = true → np.isnan x = false ∧ np.isnan y = false.
Proof.
  rewrite leb_spec. intros [H1 H2]%B64_facts.SFleb_not_nan.
  split; by apply isnan_not_nan.
Qed.

Lemma isfinite_spec (x : float) :
  np.isfinite x = true ↔ B64.finite_or_zero (Prim2SF x) = true.
Proof.
  split.
  - intros [[s ->]|(s & m & e & ->)]%isfinite_cases; done.
  - unfold np.isfinite, is_finite, is_nan, is_infinity.
    rewrite !FloatAxioms.eqb_spec, abs_spec.
    change (Prim2SF infinity) with (S754_infinity false).
    destruct (Prim2SF x) as [s|s| |s m e]; try done; intros _.
    all: unfold SFeqb; simpl; rewrite ?Z.compare_refl, ?Pcompare_refl;
      by destruct s.
Qed.

Lemma isfinite_isnan (x : float) : np.isfinite x = true → np.isnan x = false.
Proof.
  unfold np.isfinite, is_finite. intros H.
  by apply negb_true_iff, orb_false_iff in H as [? _].
Qed.

(** For [a <= v <= b] with a finite [b - a]: [0 <= v - a <= b - a]. *)
Lemma float_sub_mono (a v b : float) :
  PrimFloat.leb a v = true → PrimFloat.leb v b = true →
  np.isfinite (b - a) = true →
  np.isfinite (v - a) = true ∧
  PrimFloat.leb 0 (v - a) = true ∧ PrimFloat.leb (v - a) (b - a) = true.
Proof.
  intros Hav Hvb Hfin. rewrite leb_spec in Hav, Hvb.
  apply isfinite_spec in Hfin. rewrite sub_spec in Hfin.
  destruct (B64_facts.SFsub_mono (Prim2SF a) (Prim2SF v) (Prim2SF b)) as (F & H0 & Hle);
    try apply Prim2SF_valid; try done.
  { rewrite <- sub_spec. apply Prim2SF_valid. }
  { rewrite <- sub_spec. apply Prim2SF_valid. }
  rewrite <- !sub_spec in *.
  assert (Fva : np.isfinite (v - a) = true) by by apply isfinite_spec.
  assert (Fba : np.isfinite (b - a) = true) by by apply isfinite_spec.
  split; [done|].
  rewrite !leb_fval by (by apply isfinite_isnan || done). unfold fval.
  rewrite (B64_facts.xval_sval (Prim2SF (v - a)) F).
  rewrite (B64_facts.xval_sval (Prim2SF (b - a)) Hfin).
  change (B64.xval (Prim2SF 0)) with 0%Z. by split.
Qed.

(** For [0 <= p <= r] with [r] finite and not zero: [0 <= p / r <= 1]. *)
Lemma float_div_unit (p r : float) :
  np.isfinite p = true → np.isfinite r = true →
  PrimFloat.leb 0 p = true → PrimFloat.leb p r = true →
  PrimFloat.eqb r 0 = false →
  PrimFloat.leb 0 (p / r) = true ∧ PrimFloat.leb (p / r) 1 = true.
Proof.
  intros Fp Fr H0 Hpr Hr0.
  assert (Np := isfinite_isnan p Fp). assert (Nr := isfinite_isnan r Fr).
  apply (leb_fval 0 p eq_refl Np) in H0. apply (leb_fval p r Np Nr) in Hpr.
  apply isfinite_spec in Fp, Fr. unfold fval in *.
  change (B64.xval (Prim2SF 0)) with 0%Z in H0.
  rewrite (B64_facts.xval_sval (Prim2SF p) Fp) in H0, Hpr.
  rewrite (B64_facts.xval_sval (Prim2SF r) Fr) in Hpr.
  assert (Hpos : (0 < B64.sval (Prim2SF r))%Z).
  { assert (Hne : B64.sval (Prim2SF r) ≠ 0%Z); [|lia].
    intros Hz. rewrite FloatAxioms.eqb_spec in Hr0. unfold SFeqb in Hr0.
    rewrite (B64_facts.SFcompare_sval (Prim2SF r) (Prim2SF 0)) in Hr0;
      try apply Prim2SF_valid; try done.
    change (B64.sval (Prim2SF 0)) with 0%Z in Hr0. by rewrite Hz in Hr0. }
  destruct (B64_facts.SFdiv_unit (Prim2SF p) (Prim2SF r)) as (Fq & Hq0 & Hq1);
    try apply Prim2SF_valid; try done.
  { rewrite <- div_spec. apply Prim2SF_valid. }
  rewrite <- div_spec in *.
  assert (Nq : np.isnan (p / r) = false).
  { apply isfinite_isnan. by apply isfinite_spec. }
  rewrite !leb_fval by done. unfold fval.
  rewrite (B64_facts.xval_sval (Prim2SF (p / r)) Fq).
  change (B64.xval (Prim2SF 0)) with 0%Z.
  change (B64.xval (Prim2SF 1)) with (B64.sval B64.SFone). by split.
Qed.

(** A finite number that is not zero, divided by itself, is one. *)
Lemma float_div_same (r : float) :
  np.isfinite r = true → PrimFloat.eqb r 0 = false → (r / r)%float = 1%float.
Proof.
  intros Fr Hr0. apply Prim2SF_inj. rewrite div_spec.
  change (Prim2SF 1) with B64.SFone.
  destruct (isfinite_cases r Fr) as [[s Hs]|(s & m & e & Hs)].
  - rewrite FloatAxioms.eqb_spec, Hs in Hr0. done.
  - rewrite Hs. apply B64_facts.SFdiv_same.
Qed.

(** Zero divided by a positive finite number is zero. *)
Lemma float_zero_div (r : float) :
  np.isfinite r = true → PrimFloat.leb 0 r = true → PrimFloat.eqb r 0 = false →
  (0 / r)%float = 0%float.
Proof.
  intros Fr H0 Hr0. apply Prim2SF_inj. rewrite div_spec.
  rewrite leb_spec in H0. rewrite FloatAxioms.eqb_spec in Hr0.
  change (Prim2SF 0) with (S754_zero false) in *.
  destruct (isfinite_cases r Fr) as [[s Hs]|(s & m & e & Hs)]; rewrite Hs in *.
  - done.
  - by destruct s.
Qed.

(** A finite number minus itself is positive zero. *)
Lemma float_sub_same (x : float) : np.isfinite x = true → (x - x)%float = 0%float.
Proof.
  intros Hx. apply Prim2SF_inj. rewrite sub_spec.
  change (Prim2SF 0) with (S754_zero false).
  destruct (isfinite_cases x Hx) as [[s ->]|(s & m & e & ->)].
  - by destruct s.
  - unfold SF64sub, SFsub. by rewrite Z.sub_diag.
Qed.

Lemma float_sub_finite_args (a b : float) :
  np.isfinite (b - a) = true → np.isfinite a = true ∧ np.isfinite b = true.
Proof.
  intros H%isfinite_spec. rewrite sub_spec in H.
  apply B64_facts.SFsub_finite_args in H as [Hb Ha]. split; by apply isfinite_spec.
Qed.

(** ** The extrema of a column *)

Lemma fmin_spec (a b : float) :
  np.isnan a = false → np.isnan b = false →
  (np.fmin a b = a ∨ np.fmin a b = b) ∧
  (fval (np.fmin a b) ≤ fval a)%Z ∧ (fval (np.fmin a b) ≤ fval b)%Z.
Proof.
  intros Ha Hb. unfold np.fmin. destruct (PrimFloat.ltb b a) eqn:H.
  - apply (ltb_fval b a Hb Ha) in H. split; [by right|lia].
  - split; [by left|].
    assert (¬ (fval b < fval a)%Z); [|lia].
    intros H'%(ltb_fval b a Hb Ha). congruence.
Qed.

Lemma fmax_spec (a b : float) :
  np.isnan a = false → np.isnan b = false →
  (np.fmax a b = a ∨ np.fmax a b = b) ∧
  (fval a ≤ fval (np.fmax a b))%Z ∧ (fval b ≤ fval (np.fmax a b))%Z.
Proof.
  intros Ha Hb. unfold np.fmax. destruct (PrimFloat.ltb a b) eqn:H.
  - apply (ltb_fval a b Ha Hb) in H. split; [by right|lia].
  - split; [by left|].
    assert (¬ (fval a < fval b)%Z); [|lia].
    intros H'%(ltb_fval a b Ha Hb). congruence.
Qed.

(** The fold of [nanmin] returns one of the values, below all of them. *)
Lemma fold_fmin_spec (ys : list float) (y : float) :
  np.isnan y = false → Forall (fun v => np.isnan v = false) ys →
  fold_left np.fmin ys y ∈ y :: ys ∧
  ∀ v, v ∈ y :: ys → (fval (fold_left np.fmin ys y) ≤ fval v)%Z.
Proof.
  intros Hy Hys. revert y Hy. induction Hys as [|z ys Hz Hys IH]; intros y Hy.
  - simpl. split; [by left|]. intros v ->%list_elem_of_singleton. lia.
  - simpl. destruct (fmin_spec y z Hy Hz) as (Hsel & Hly & Hlz).
    assert (Hn : np.isnan (np.fmin y z) = false) by (by destruct Hsel as [->| ->]).
    destruct (IH _ Hn) as [Hin Hle]. split.
    + apply elem_of_cons in Hin as [->|Hin].
      * destruct Hsel as [->| ->]; [by left|right; by left].
      * by do 2 right.
    + assert (H0 := Hle _ (list_elem_of_here _ _)).
      intros v [->|[->|Hv]%elem_of_cons]%elem_of_cons; [lia|lia|].
      apply Hle. by right.
Qed.

Lemma fold_fmax_spec (ys : list float) (y : float) :
  np.isnan y = false → Forall (fun v => np.isnan v = false) ys →
  fold_left np.fmax ys y ∈ y :: ys ∧
  ∀ v, v ∈ y :: ys → (fval v ≤ fval (fold_left np.fmax ys y))%Z.
Proof.
  intros Hy Hys. revert y Hy. induction Hys as [|z ys Hz Hys IH]; intros y Hy.
  - simpl. split; [by left|]. intros v ->%list_elem_of_singleton. lia.
  - simpl. destruct (fmax_spec y z Hy Hz) as (Hsel & Hly & Hlz).
    assert (Hn : np.isnan (np.fmax y z) = false) by (by destruct Hsel as [->| ->]).
    destruct (IH _ Hn) as [Hin Hle]. split.
    + apply elem_of_cons in Hin as [->|Hin].
      * destruct Hsel as [->| ->]; [by left|right; by left].
      * by do 2 right.
    + assert (H0 := Hle _ (list_elem_of_here _ _)).
      intros v [->|[->|Hv]%elem_of_cons]%elem_of_cons; [lia|lia|].
      apply Hle. by right.
Qed.

Lemma dropna_spec (x : list float) (v : float) :
  v ∈ np.dropna x ↔ v ∈ x ∧ np.isnan v = false.
Proof. unfold np.dropna. rewrite list_elem_of_filter. tauto. Qed.

(** On a column with a value, [nanmin] and [nanmax] are cells of the
    column, and every non-missing cell lies between them. *)
Lemma nan_extrema_spec (x : list float) :
  np.dropna x ≠ [] →
  (np.nanmin x ∈ x ∧ np.isnan (np.nanmin x) = false) ∧
  (np.nanmax x ∈ x ∧ np.isnan (np.nanmax x) = false) ∧
  ∀ v, v ∈ x → np.isnan v = false →
    PrimFloat.leb (np.nanmin x) v = true ∧ PrimFloat.leb v (np.nanmax x) = true.
Proof.
  intros Hne. unfold np.nanmin, np.nanmax.
  assert (Hall : Forall (fun v => np.isnan v = false) (np.dropna x)).
  { apply Forall_forall. by intros v [_ Hv]%dropna_spec. }
  assert (Hmem : ∀ v, v ∈ x → np.isnan v = false → v ∈ np.dropna x).
  { intros v ? ?. by apply dropna_spec. }
  assert (Hsub : ∀ v, v ∈ np.dropna x → v ∈ x ∧ np.isnan v = false).
  { intros v. apply dropna_spec. }
  destruct (np.dropna x) as [|y ys]; [done|].
  apply Forall_cons in Hall as [Hy Hys].
  destruct (fold_fmin_spec ys y Hy Hys) as [Hin1 Hle1].
  destruct (fold_fmax_spec ys y Hy Hys) as [Hin2 Hle2].
  apply Hsub in Hin1 as [Hin1 Hn1]. apply Hsub in Hin2 as [Hin2 Hn2].
  split; [done|]. split; [done|]. intros v Hv Hnv. split.
  - apply leb_fval; [done|done|]. by apply Hle1, Hmem.
  - apply leb_fval; [done|done|]. by apply Hle2, Hmem.
Qed.

(** A finite range comes from a column with a value. *)
Lemma finite_range_dropna (x : list float) :
  np.isfinite (np.nanmax x - np.nanmin x) = true → np.dropna x ≠ [].
Proof.
  intros [H _]%float_sub_finite_args Hnil.
  apply isfinite_isnan in H. unfold np.nanmin in H. by rewrite Hnil in H.
Qed.

(** The arithmetic of min-max scaling: with [mn <= v <= mx] and a range
    [mx - mn] that is finite and not zero, [(v - mn) / (mx - mn)] lies
    between 0 and 1; it is 0 at [mn] and 1 at [mx]. *)
Lemma minmax_unit (mn mx : float) :
  PrimFloat.leb mn mx = true →
  np.isfinite (mx - mn) = true → PrimFloat.eqb (mx - mn) 0 = false →
  ((mn - mn) / (mx - mn) = 0)%float ∧ ((mx - mn) / (mx - mn) = 1)%float ∧
  ∀ v, PrimFloat.leb mn v = true → PrimFloat.leb v mx = true →
    PrimFloat.leb 0 ((v - mn) / (mx - mn)) = true ∧
    PrimFloat.leb ((v - mn) / (mx - mn)) 1 = true.
Proof.
  intros Hle Hfin Hnz.
  destruct (float_sub_finite_args _ _ Hfin) as [Fmn Fmx].
  assert (Hmx : PrimFloat.leb mx mx = true).
  { apply isfinite_isnan in Fmx. apply leb_fval; [done|done|lia]. }
  destruct (float_sub_mono mn mx mx Hle Hmx Hfin) as (_ & H0 & _).
  split; [|split].
  - rewrite (float_sub_same mn Fmn). by apply float_zero_div.
  - by apply float_div_same.
  - intros v H1 H2.
    destruct (float_sub_mono mn v mx H1 H2 Hfin) as (Fv & Hv0 & Hv1).
    by apply float_div_unit.
Qed.

(** A missing cell stays missing through the scaling. *)
Lemma isnan_true (x : float) : np.isnan x = true ↔ Prim2SF x = S754_nan.
Proof.
  unfold np.isnan, is_nan. rewrite negb_true_iff, FloatAxioms.eqb_spec.
  unfold SFeqb. destruct (Prim2SF x) as [s|s| |s m e] eqn:Hx; [| |done|].
  all: by rewrite SFcompare_refl.
Qed.

Lemma nan_sub_div (v a r : float) :
  np.isnan v = true → np.isnan ((v - a) / r) = true.
Proof.
  rewrite !isnan_true, div_spec, sub_spec. by intros ->.
Qed.

Lemma leb_trans (a b c : float) :
  PrimFloat.leb a b = true → PrimFloat.leb b c = true → PrimFloat.leb a c = true.
Proof.
  intros H1 H2. destruct (leb_not_nan _ _ H1) as [Na Nb].
  destruct (leb_not_nan _ _ H2) as [_ Nc].
  apply (leb_fval a b Na Nb) in H1. apply (leb_fval b c Nb Nc) in H2.
  apply leb_fval; [done|done|lia].
Qed.

Lemma leb_antisym (a b : float) :
  PrimFloat.leb a b = true → PrimFloat.leb b a = true → PrimFloat.eqb a b = true.
Proof.
  intros H1 H2. destruct (leb_not_nan _ _ H1) as [Na Nb].
  apply (leb_fval a b Na Nb) in H1. apply (leb_fval b a Nb Na) in H2.
  rewrite FloatAxioms.eqb_spec. unfold SFeqb.
  rewrite (B64_facts.SFcompare_xval (Prim2SF a) (Prim2SF b));
    [|apply Prim2SF_valid|apply Prim2SF_valid|by apply isnan_not_nan|by apply isnan_not_nan].
  unfold fval in *.
  assert (Hc : (B64.xval (Prim2SF a) ?= B64.xval (Prim2SF b))%Z = Eq).
  { apply Z.compare_eq_iff. lia. }
  by rewrite Hc.
Qed.

(** The floats equal to 0 are the two zeros; the one equal to 1 is 1. *)
Lemma eqb_zero (q : float) :
  PrimFloat.eqb q 0 = true → q = 0%float ∨ q = PrimFloat.neg_zero.
Proof.
  rewrite FloatAxioms.eqb_spec. intros H.
  change (Prim2SF 0) with (S754_zero false) in H.
  assert (∃ s, Prim2SF q = S754_zero s) as [s Hs].
  { destruct (Prim2SF q) as [s|s| |s m e]; [by exists s|by destruct s|done|by destruct s]. }
  destruct s; [right|left]; apply Prim2SF_inj; by rewrite Hs.
Qed.

Lemma eqb_one (q : float) : PrimFloat.eqb q 1 = true → q = 1%float.
Proof.
  rewrite FloatAxioms.eqb_spec. intros H. apply Prim2SF_inj.
  change (Prim2SF 1) with (S754_finite false 4503599627370496 (-52)) in *.
  destruct (Prim2SF q) as [s|s| |s m e]; [done|by destruct s|done|].
  unfold SFeqb, SFcompare in H. destruct s; [done|].
  destruct (Z.compare_spec e (-52)) as [He| |]; [|done|done].
  destruct (Pos.compare_cont Eq m 4503599627370496) eqn:Hm; [|done|done].
  apply Pos.compare_eq in Hm. by rewrite He, Hm.
Qed.

(** ** Imputation *)

Lemma lookup_column_app (c : string) (pre post : list (string * Series)) :
  c ∉ map fst pre →
  lookup_column c (pre ++ post) = lookup_column c post.
Proof.
  induction pre as [|[k s] pre IH]; [done|]. simpl. intros Hc.
  rewrite decide_False by (intros ->; apply Hc; left).
  apply IH. intros H. apply Hc. by right.
Qed.

Lemma assign_column_app (c : string) (s : Series) (pre post : list (string * Series)) :
  c ∉ map fst pre →
  assign_column c s (pre ++ post) = pre ++ assign_column c s post.
Proof.
  induction pre as [|[k s0] pre IH]; [done|]. simpl. intros Hc.
  rewrite decide_False by (intros ->; apply Hc; left).
  f_equal. apply IH. intros H. apply Hc. by right.
Qed.

Lemma fillna_fold (idx : list Z) (post pre : list (string * Series)) :
  NoDup (map fst (pre ++ post)) →
  DataFrame_fillna (omap (fun c => pair (fst c) <$> Series_median (snd c)) post)
                   (mkDataFrame idx (pre ++ post))
  = mkDataFrame idx (pre ++ map (fun c => (fst c, fill_col (snd c))) post).
Proof.
  unfold DataFrame_fillna. revert pre.
  induction post as [|[k s] post IH]; intros pre Hnd; [done|].
  assert (Hk : k ∉ map fst pre).
  { rewrite map_app in Hnd. apply NoDup_app in Hnd as (_ & Hd & _).
    intros Hin. apply (Hd k Hin). left. }
  assert (Hnd' : ∀ s', NoDup (map fst ((pre ++ [(k, s')]) ++ post))).
  { intros s'. rewrite <- app_assoc. simpl.
    rewrite map_app in *. simpl in *. done. }
  cbn [omap list_omap map fst snd]. unfold fill_col at 1.
  destruct (Series_median s) as [v|] eqn:Hmed; simpl.
  - unfold fillna_step at 2, getitem, setitem; simpl.
    rewrite (lookup_column_app k pre _ Hk). simpl. rewrite decide_True by done.
    rewrite (assign_column_app k _ pre _ Hk). simpl. rewrite decide_True by done.
    specialize (IH (pre ++ [(k, Series_fillna v s)]) (Hnd' _)).
    rewrite <- !app_assoc in IH. simpl in IH. exact IH.
  - specialize (IH (pre ++ [(k, s)]) (Hnd' _)).
    rewrite <- !app_assoc in IH. simpl in IH. exact IH.
Qed.

Lemma fillna_step_names (r : DataFrame) (kv : string * float) :
  names (fillna_step r kv) = names r ∧ index (fillna_step r kv) = index r.
Proof.
  unfold fillna_step, getitem, setitem, names.
  destruct (lookup_column (fst kv) (columns r)) as [s|] eqn:Hs; [|done].
  simpl. split; [|done]. revert Hs.
  induction (columns r) as [|[k s0] cs IH]; [done|]. simpl.
  destruct (decide (k = fst kv)); [done|]. intros Hs. simpl. f_equal. by apply IH.
Qed.

Lemma fillna_names (value : list (string * float)) (r : DataFrame) :
  names (DataFrame_fillna value r) = names r.
Proof.
  unfold DataFrame_fillna. revert r.
  induction value as [|kv value IH]; intros r; [done|]. simpl.
  rewrite IH. apply fillna_step_names.
Qed.

Lemma getitem_list_columns (t : DataFrame) (cols : list string) :
  (∀ c, c ∈ cols → c ∈ names t) →
  ∃ sub, getitem_list t cols = Ok sub ∧ index sub = index t ∧
         names sub = cols ∧
         ∀ k, lookup_column k (columns sub)
              = if decide (k ∈ cols) then getitem t k else None.
Proof.
  intros Hin. unfold getitem_list.
  rewrite decide_True by by apply missing_labels_nil.
  eexists. split; [done|]. split; [done|]. unfold names. simpl. split.
  - induction cols as [|c cols IH]; [done|].
    destruct (getitem_is_Some t c) as [s Hs]; [apply Hin; left|].
    cbn [omap list_omap]. rewrite Hs. simpl. f_equal. apply IH.
    intros c' Hc'. apply Hin. by right.
  - intros k. clear Hin. induction cols as [|c cols IH].
    + simpl. destruct (decide (k ∈ [])) as [H%elem_of_nil|]; done.
    + cbn [omap list_omap]. destruct (decide (c = k)) as [->|Hck].
      * rewrite decide_True by left.
        destruct (getitem t k) as [s|] eqn:Hs; simpl.
        -- by rewrite decide_True.
        -- rewrite IH. by destruct (decide (k ∈ cols)).
      * assert (Hstep : (if decide (k ∈ c :: cols) then getitem t k else None)
                        = if decide (k ∈ cols) then getitem t k else None).
        { destruct (decide (k ∈ cols)) as [H|H].
          - rewrite decide_True; [done|by right].
          - rewrite decide_False; [done|]. intros [->|?]%elem_of_cons; done. }
        rewrite Hstep. destruct (getitem t c) as [s|]; simpl; [|done].
        by rewrite decide_False.
Qed.

Lemma lookup_column_fmap (f : Series → Series) (k : string)
    (cs : list (string * Series)) :
  lookup_column k (map (fun c => (fst c, f (snd c))) cs) = f <$> lookup_column k cs.
Proof.
  induction cs as [|[k0 s] cs IH]; [done|]. simpl.
  by destruct (decide (k0 = k)).
Qed.

Lemma assign_column_map (k : string) (s : Series) (cs : list (string * Series)) :
  NoDup (map fst cs) → k ∈ map fst cs →
  assign_column k s cs = map (fun c => if decide (fst c = k) then (k, s) else c) cs.
Proof.
  induction cs as [|[k0 s0] cs IH]; simpl.
  - by intros _ ?%elem_of_nil.
  - intros [Hk0 Hnd]%NoDup_cons Hin. destruct (decide (k0 = k)) as [->|Hne].
    + f_equal. symmetry. rewrite <- (map_id cs) at 2. apply map_ext_Forall.
      apply Forall_forall. intros [k1 s1] H1. simpl.
      rewrite decide_False; [done|]. intros ->. apply Hk0.
      apply list_elem_of_fmap. by exists (k, s1).
    + f_equal. apply IH; [done|].
      apply elem_of_cons in Hin as [->|]; done.
Qed.

(** Assigning columns one label after the other, each label once. *)
Lemma assign_fold (kvs : list (string * Series)) (idx : list Z)
    (cs : list (string * Series)) :
  NoDup (map fst cs) → NoDup (map fst kvs) →
  (∀ k, k ∈ map fst kvs → k ∈ map fst cs) →
  fold_left (fun r kc => setitem r (fst kc) (snd (snd kc)))
            (zip (map fst kvs) kvs) (mkDataFrame idx cs)
  = mkDataFrame idx
      (map (fun c => (fst c, from_option id (snd c) (lookup_column (fst c) kvs))) cs).
Proof.
  revert cs. induction kvs as [|[k s] kvs IH]; intros cs Hcs Hnd Hin.
  - simpl. f_equal. rewrite <- (map_id cs) at 1. apply map_ext. by intros [? ?].
  - simpl in *. apply NoDup_cons in Hnd as [Hk Hnd].
    unfold setitem at 2. simpl.
    rewrite (assign_column_map k s cs Hcs) by (apply Hin; left).
    rewrite IH; [| | done |].
    + f_equal. rewrite map_map. apply map_ext. intros [k0 s0]. simpl.
      destruct (decide (k0 = k)) as [->|Hne]; simpl.
      * rewrite decide_True by done.
        assert (lookup_column k kvs = None) as ->; [|done].
        clear -Hk. induction kvs as [|[k1 s1] kvs IH]; [done|]. simpl.
        rewrite decide_False by (intros ->; apply Hk; left).
        apply IH. intros H. apply Hk. by right.
      * by rewrite decide_False.
    + rewrite map_map.
      assert (map (fun x => fst (if decide (fst x = k) then (k, s) else x)) cs
              = map fst cs) as ->; [|done].
      apply map_ext. intros [k0 s0]. simpl. by destruct (decide (k0 = k)) as [->|].
    + intros k0 Hk0. rewrite map_map.
      assert (map (fun x => fst (if decide (fst x = k) then (k, s) else x)) cs
              = map fst cs) as ->.
      { apply map_ext. intros [k1 s1]. simpl. by destruct (decide (k1 = k)) as [->|]. }
      apply Hin. by right.
Qed.

Lemma lookup_column_elem (cs : list (string * Series)) (c : string * Series) :
  NoDup (map fst cs) → c ∈ cs → lookup_column (fst c) cs = Some (snd c).
Proof.
  induction cs as [|[k s] cs IH]; simpl.
  - by intros _ ?%elem_of_nil.
  - intros [Hk Hnd]%NoDup_cons [->|Hin]%elem_of_cons; simpl.
    + by rewrite decide_True.
    + rewrite decide_False; [by apply IH|]. intros ->. apply Hk.
      apply list_elem_of_fmap. by exists c.
Qed.

(** With each label asked once, imputation returns and rewrites exactly the
    asked columns. *)
Lemma filled_NoDup (t : DataFrame) (cols : list string) :
  wf_table t → NoDup cols → (∀ c, c ∈ cols → c ∈ names t) →
  filled t cols = Ok (fill_columns cols t).
Proof.
  intros [Hnd Hlen] Hcols Hin. unfold filled.
  destruct (getitem_list_columns t cols Hin) as (sub & -> & Hidx & Hnames & Hlook).
  assert (Hfill : DataFrame_fillna (DataFrame_median sub) sub
                  = mkDataFrame (index sub)
                      (map (fun c => (fst c, fill_col (snd c))) (columns sub))).
  { unfold DataFrame_median. destruct sub as [idx cs]. simpl.
    apply (fillna_fold idx cs []). simpl. unfold names in Hnames. simpl in Hnames.
    by rewrite Hnames. }
  rewrite Hfill. unfold setitem_list. simpl.
  assert (Hn2 : map fst (map (fun c => (fst c, fill_col (snd c))) (columns sub)) = cols).
  { rewrite map_map. simpl. exact Hnames. }
  rewrite decide_True; last first.
  { split.
    - rewrite length_map, <- Hnames. unfold names. by rewrite length_map.
    - unfold names. simpl. by rewrite Hn2. }
  f_equal. rewrite <- Hn2 at 1. destruct t as [idx cs]. simpl in *.
  rewrite assign_fold; [| done | by rewrite Hn2 | by rewrite Hn2 ].
  unfold fill_columns. simpl. f_equal. apply map_ext_Forall, Forall_forall.
  intros [k s] Hks. simpl. f_equal.
  rewrite lookup_column_fmap, Hlook. unfold getitem. simpl.
  destruct (decide (k ∈ cols)); [|done].
  assert (H := lookup_column_elem cs (k, s) Hnd Hks). simpl in H. by rewrite H.
Qed.

(** With a label asked twice, the assignment [out[cols] = ...] raises. *)
Lemma filled_dup (t : DataFrame) (cols : list string) :
  ¬ NoDup cols → (∀ c, c ∈ cols → c ∈ names t) →
  filled t cols = Raise (ValueError "Columns must be same length as key").
Proof.
  intros Hdup Hin. unfold filled.
  destruct (getitem_list_columns t cols Hin) as (sub & -> & Hidx & Hnames & Hlook).
  unfold setitem_list. rewrite decide_False; [done|].
  intros [_ Hnd]. rewrite fillna_names, Hnames in Hnd. done.
Qed.

Lemma fillna_nan (xs : list float) :
  map (fun x => if np.isnan x then np.nan else x) xs = xs.
Proof.
  rewrite <- (map_id xs) at 2. apply map_ext. intros x.
  destruct (np.isnan x) eqn:Hx; [|done]. symmetry. by apply isnan_eq.
Qed.

Lemma fillna_no_nan (v : float) (xs : list float) :
  Forall (fun x => np.isnan x = false) xs →
  map (fun x => if np.isnan x then v else x) xs = xs.
Proof.
  intros H. rewrite <- (map_id xs) at 2. apply map_ext_Forall.
  eapply Forall_impl; [exact H|]. intros x Hx. simpl. by rewrite Hx.
Qed.

(** Imputing a column a second time changes nothing, whatever its median. *)
Lemma fill_col_idemp (s : Series) : fill_col (fill_col s) = fill_col s.
Proof.
  destruct s as [xs|xs|xs]; try done. unfold fill_col at 2. simpl.
  destruct (np.isnan (np.nanmedian xs)) eqn:Hv.
  - rewrite (isnan_eq _ Hv), fillna_nan. unfold fill_col. simpl.
    by rewrite (isnan_eq _ Hv), fillna_nan.
  - unfold fill_col. simpl. f_equal. apply fillna_no_nan.
    rewrite Forall_map. apply Forall_forall. intros x _. simpl.
    by destruct (np.isnan x) eqn:Hx.
Qed.

Lemma fill_col_len (s : Series) : Series_len (fill_col s) = Series_len s.
Proof. destruct s; unfold fill_col; simpl; by rewrite ?length_map. Qed.

Lemma fill_col_numeric (s : Series) : is_numeric (fill_col s) = is_numeric s.
Proof. by destruct s. Qed.

(** A column with no value keeps its cells. *)
Lemma fill_col_all_missing (s : Series) :
  Forall (fun b => b = false) (Series_notna s) → fill_col s = s.
Proof.
  destruct s as [xs|xs|xs]; [| |done]; simpl; intros H.
  - unfold fill_col. simpl. f_equal.
    assert (np.dropna xs = []) as Hd.
    { unfold np.dropna. apply Forall_map in H. induction H as [|x xs Hx H IH]; [done|].
      rewrite filter_cons_False; [done|]. simpl in Hx.
      apply negb_false_iff in Hx. by rewrite Hx. }
    unfold np.nanmedian. rewrite Hd. simpl. apply fillna_nan.
  - destruct xs; [done|]. by apply Forall_cons in H as [? _].
Qed.

Lemma fill_columns_names (cols : list string) (t : DataFrame) :
  names (fill_columns cols t) = names t.
Proof. unfold names, fill_columns. simpl. rewrite map_map. by apply map_ext. Qed.

Lemma fill_columns_wf (cols : list string) (t : DataFrame) :
  wf_table t → wf_table (fill_columns cols t).
Proof.
  intros [Hnd Hlen]. split.
  - fold (names (fill_columns cols t)). by rewrite fill_columns_names.
  - unfold fill_columns. simpl. rewrite Forall_map.
    eapply Forall_impl; [exact Hlen|]. intros [k s]. simpl.
    destruct (decide (k ∈ cols)); [by rewrite fill_col_len|done].
Qed.

Lemma fill_columns_idemp (cols : list string) (t : DataFrame) :
  fill_columns cols (fill_columns cols t) = fill_columns cols t.
Proof.
  unfold fill_columns. simpl. f_equal. rewrite map_map. apply map_ext.
  intros [k s]. simpl. destruct (decide (k ∈ cols)); [|done].
  by rewrite fill_col_idemp.
Qed.

Lemma fill_columns_getitem (cols : list string) (t : DataFrame) (c : string) :
  getitem (fill_columns cols t) c
  = (fun s => if decide (c ∈ cols) then fill_col s else s) <$> getitem t c.
Proof.
  unfold getitem, fill_columns. simpl.
  induction (columns t) as [|[k s] cs IH]; [done|]. simpl.
  destruct (decide (k = c)) as [->|]; [done|]. apply IH.
Qed.

Lemma fill_columns_resolved (cols : list string) (t : DataFrame)
    (requested : option (list string)) :
  resolved (fill_columns cols t) requested = resolved t requested.
Proof.
  destruct requested as [cs|]; simpl.
  - by rewrite fill_columns_names.
  - unfold select_dtypes_number, fill_columns. simpl.
    induction (columns t) as [|[k s] l IH]; [done|]. simpl.
    assert (Hn : is_numeric (if decide (k ∈ cols) then fill_col s else s)
                 = is_numeric s).
    { destruct (decide (k ∈ cols)); [apply fill_col_numeric|done]. }
    destruct (is_numeric s) eqn:Hs.
    + rewrite !filter_cons_True by (simpl; congruence). simpl. by rewrite IH.
    + rewrite !filter_cons_False by (simpl; congruence). done.
Qed.

Lemma resolved_names (t : DataFrame) (requested : option (list string)) :
  ∀ c, c ∈ resolved t requested → c ∈ names t.
Proof.
  intros c. destruct requested as [cs|]; unfold resolved.
  - by intros [? _]%list_elem_of_filter.
  - unfold select_dtypes_number, names. intros H.
    eapply elem_of_sublist; [exact H|]. apply fmap_sublist, sublist_filter.
Qed.

Lemma fill_missing_median_returned (w : world) (df : ref) (t : DataFrame)
    (requested : option (list string)) :
  heap w !! df = Some t →
  returned_table (fill_missing_median df requested w)
  = filled t (resolved t requested).
Proof.
  intros Hdf. rewrite (fill_missing_median_run _ _ _ _ Hdf). simpl.
  destruct (filled t (resolved t requested)) as [t'|e]; [|done].
  simpl. by rewrite lookup_insert_eq.
Qed.

(** C3: imputation is idempotent.  For every table and every [columns]
    argument, calling [fill_missing_median] on the table a first call
    returned gives a table equal to that one; and when the first call
    raises, so does the composition, with the same exception. *)
Theorem fill_missing_median_idempotent (w : world) (df : ref) (t : DataFrame)
    (requested : option (list string)) :
  heap w !! df = Some t →
  wf_table t →
  returned_table
    ((out ← fill_missing_median df requested; fill_missing_median out requested) w)
  = returned_table (fill_missing_median df requested w).
Proof.
  intros Hdf Hwf.
  rewrite (fill_missing_median_returned w df t requested Hdf).
  assert (Hrun := fill_missing_median_run w df t requested Hdf). simpl in Hrun.
  set (cols := resolved t requested) in *.
  destruct (decide (NoDup cols)) as [Hnd|Hnd].
  - rewrite (filled_NoDup t cols Hwf Hnd (resolved_names t requested)) in *.
    rewrite (bind_Ok _ _ _ _ _ Hrun).
    rewrite (fill_missing_median_returned _ _ (fill_columns cols t));
      [|simpl; apply lookup_insert_eq].
    rewrite fill_columns_resolved. fold cols.
    rewrite (filled_NoDup _ cols (fill_columns_wf cols t Hwf) Hnd).
    + by rewrite fill_columns_idemp.
    + intros c Hc. rewrite fill_columns_names. by apply (resolved_names t requested).
  - rewrite (filled_dup t cols Hnd (resolved_names t requested)) in *.
    by rewrite (bind_Raise _ _ _ _ _ Hrun).
Qed.

(** C10: a resolved column that holds no value has no median, and
    [fill_missing_median] substitutes nothing for its cells: the column of
    the returned table is the column of the input, every cell missing. *)
Theorem fill_missing_median_all_missing (w : world) (df : ref) (t t' : DataFrame)
    (requested : option (list string)) (c : string) (s : Series) :
  heap w !! df = Some t →
  wf_table t →
  returned_table (fill_missing_median df requested w) = Ok t' →
  c ∈ resolved t requested →
  getitem t c = Some s →
  Forall (fun b => b = false) (Series_notna s) →
  getitem t' c = Some s.
Proof.
  intros Hdf Hwf Hret Hc Hs Hmiss.
  rewrite (fill_missing_median_returned w df t requested Hdf) in Hret.
  destruct (decide (NoDup (resolved t requested))) as [Hnd|Hnd].
  - rewrite (filled_NoDup t _ Hwf Hnd (resolved_names t requested)) in Hret.
    injection Hret as <-.
    rewrite fill_columns_getitem, Hs. simpl. rewrite decide_True by done.
    by rewrite fill_col_all_missing.
  - by rewrite (filled_dup t _ Hnd (resolved_names t requested)) in Hret.
Qed.

Section NormalizeStore.

Variable py_float : string → option float.

Lemma normalize_column_run (w : world) (out : ref) (t0 : DataFrame)
    (method c : string) (params : gmap string fit) :
  heap w !! out = Some t0 →
  normalize_column py_float out method c params w =
    match normalize_step py_float method c (t0, params) with
    | Raise e => (Raise e, w)
    | Ok st => (Ok (snd st), mkWorld (<[out := fst st]> (heap w)) (stdout w))
    end.
Proof.
  intros Hout. unfold normalize_column, normalize_step, getitem_ref; simpl.
  assert (Hd := deref_Some _ _ _ Hout).
  destruct (getitem t0 c) as [s|] eqn:Hs.
  2:{ erewrite bind_Raise; [done|]. erewrite bind_Ok; [|done]. by rewrite Hs. }
  erewrite bind_Ok; last first.
  { erewrite bind_Ok; [|done]. by rewrite Hs. }
  destruct (astype_float py_float s) as [x|e].
  2:{ by erewrite bind_Raise. }
  erewrite bind_Ok; [|done].
  unfold scaled, setitem_scalar, setitem_ref.
  destruct (decide (method = "standard")).
  - destruct (PrimFloat.eqb _ 0).
    + erewrite bind_Ok; last first.
      { erewrite bind_Ok; [|done]. done. }
      done.
    + erewrite bind_Ok; last first.
      { erewrite bind_Ok; [|done]. done. }
      done.
  - destruct (PrimFloat.eqb _ 0).
    + erewrite bind_Ok; last first.
      { erewrite bind_Ok; [|done]. done. }
      done.
    + erewrite bind_Ok; last first.
      { erewrite bind_Ok; [|done]. done. }
      done.
Qed.

(** The loop reads and writes the object [out] and nothing else. *)
Lemma for_each_normalize_run (cols : list string) (w : world) (out : ref)
    (t0 : DataFrame) (method : string) (params : gmap string fit) :
  heap w !! out = Some t0 →
  ∃ w', for_each cols (normalize_column py_float out method) params w
        = (match normalize_steps py_float method cols (t0, params) with
           | Ok st => Ok (snd st)
           | Raise e => Raise e
           end, w') ∧
    stdout w' = stdout w ∧
    (∀ r, r ≠ out → heap w' !! r = heap w !! r) ∧
    match normalize_steps py_float method cols (t0, params) with
    | Ok st => heap w' !! out = Some (fst st)
    | Raise _ => is_Some (heap w' !! out)
    end.
Proof.
  revert w t0 params. induction cols as [|c cols IH]; intros w t0 params Hout.
  - exists w. simpl. by repeat split.
  - simpl. unfold mbind at 1, M_bind at 1.
    rewrite (normalize_column_run _ _ _ _ _ _ Hout).
    destruct (normalize_step py_float method c (t0, params)) as [[t1 p1]|e]; simpl.
    + set (w1 := mkWorld (<[out := t1]> (heap w)) (stdout w)).
      destruct (IH w1 t1 p1) as (w' & Hrun & Hstd & Hframe & Hout').
      { apply lookup_insert_eq. }
      exists w'. rewrite Hrun. split; [done|]. split; [done|]. split; [|done].
      intros r Hr. rewrite (Hframe r Hr). simpl. by rewrite lookup_insert_ne.
    + exists w. by repeat split.
Qed.

Lemma normalize_data_run (w : world) (df : ref) (t : DataFrame)
    (requested : option (list string)) (method : string) :
  heap w !! df = Some t →
  ∃ w', normalize_data py_float df requested method w
        = (if decide (method ∉ ["standard"; "minmax"])
           then Raise (ValueError "method must be one of {standard, minmax}")
           else match normalize_steps py_float method (resolved t requested) (t, ∅) with
                | Ok st => Ok (fresh (dom (heap w)), snd st)
                | Raise e => Raise e
                end, w') ∧
    preserved w w' ∧
    (∀ st, method ∈ ["standard"; "minmax"] →
           normalize_steps py_float method (resolved t requested) (t, ∅) = Ok st →
           heap w' !! fresh (dom (heap w)) = Some (fst st)).
Proof.
  intros Hdf. unfold normalize_data.
  rewrite (bind_Ok _ _ _ _ _ (coerce_columns_run _ _ _ _ Hdf)).
  rewrite (bind_Ok _ _ _ _ _ (copy_run _ _ _ Hdf)).
  set (r1 := fresh (dom (heap w))).
  set (w1 := mkWorld (<[r1 := t]> (heap w)) (stdout w)).
  assert (H1 : heap w1 !! r1 = Some t) by apply lookup_insert_eq.
  assert (Hp : preserved w w1) by apply (preserved_alloc t w).
  simpl. destruct (decide (method ∉ ["standard"; "minmax"])) as [Hm|Hm].
  - exists w1. split; [done|]. split; [done|]. intros st Hin. done.
  - destruct (for_each_normalize_run (resolved t requested) w1 r1 t method ∅ H1)
      as (w2 & Hrun & Hstd & Hframe & Hout).
    assert (Hp2 : preserved w w2).
    { unfold preserved. apply map_subseteq_spec. intros r t0 Hr.
      assert (r ≠ r1) by (intros ->; subst r1; by rewrite alloc_fresh in Hr).
      rewrite Hframe by done. by apply (preserved_lookup w w1). }
    destruct (normalize_steps py_float method (resolved t requested) (t, ∅))
      as [[t' p']|e].
    + rewrite (bind_Ok _ _ _ _ _ Hrun).
      eexists. split; [done|]. split; [done|].
      intros st _ [= <-]. done.
    + rewrite (bind_Raise _ _ _ _ _ Hrun).
      exists w2. split; [done|]. split; [done|]. done.
Qed.

(** ** Non-mutation of the input *)

(** C2: whatever the table and the arguments, a call of
    [fill_missing_median], [drop_missing] or [normalize_data] leaves the
    input table, and every other table of the store, with the value it had
    before the call, whether the call returns or raises; a returned table
    is a new object, not the input. *)
Theorem input_not_mutated (w : world) (df : ref) (t : DataFrame) :
  heap w !! df = Some t →
  (∀ requested,
     let r := fill_missing_median df requested w in
     heap (snd r) !! df = Some t ∧ fresh_result id w r) ∧
  (∀ how thresh subset,
     let r := drop_missing df how thresh subset w in
     heap (snd r) !! df = Some t ∧ fresh_result id w r) ∧
  (∀ requested method,
     let r := normalize_data py_float df requested method w in
     heap (snd r) !! df = Some t ∧ fresh_result fst w r).
Proof.
  intros Hdf.
  assert (Hkeep : ∀ {A} (get : A → ref) r, fresh_result get w r →
            heap (snd r) !! df = Some t ∧ fresh_result get w r).
  { intros A get r Hr. split; [|done]. destruct Hr as [Hp _].
    by apply (preserved_lookup w). }
  split; [|split].
  - intros requested r. apply Hkeep. subst r.
    rewrite (fill_missing_median_run _ _ _ _ Hdf). simpl.
    destruct (filled t (resolved t requested)) as [t'|e].
    + split; simpl.
      * unfold preserved; simpl. apply insert_subseteq, alloc_fresh.
      * intros a [= <-]. split; [apply alloc_fresh|].
        rewrite lookup_insert_eq. by eexists.
    + split; simpl; [apply (preserved_alloc t w)|]. intros a [=].
  - intros how thresh subset r. apply Hkeep. subst r.
    rewrite (drop_missing_run _ _ _ _ _ _ Hdf). simpl.
    set (r1 := fresh (dom (heap w))).
    destruct (DataFrame_dropna t how thresh subset) as [t'|e].
    + split; simpl.
      * unfold preserved; simpl. etrans; [apply (preserved_alloc t w)|]. simpl.
        apply insert_subseteq. apply not_elem_of_dom, is_fresh.
      * intros a [= <-]. split.
        -- eapply lookup_weaken_None; [|apply (preserved_alloc t w)]. simpl.
           apply not_elem_of_dom, is_fresh.
        -- rewrite lookup_insert_eq. by eexists.
    + split; simpl; [apply (preserved_alloc t w)|]. intros a [=].
  - intros requested method r. apply Hkeep. subst r.
    destruct (normalize_data_run w df t requested method Hdf) as (w' & -> & Hp & Hout).
    split; simpl; [done|].
    intros [out p] Hok. simpl.
    destruct (decide (method ∉ ["standard"; "minmax"])) as [Hm|Hm]; [done|].
    destruct (normalize_steps _ _ _ _) as [st|e] eqn:Hst; [|done].
    injection Hok as <- <-.
    split; [apply alloc_fresh|].
    rewrite (Hout st); [by eexists| |done].
    destruct (decide (method ∈ ["standard"; "minmax"])); [done|]. by destruct Hm.
Qed.

(** ** The normalisation loop on values *)

Lemma getitem_setitem (t : DataFrame) (c c' : string) (s : Series) :
  getitem (setitem t c s) c' = if decide (c = c') then Some s else getitem t c'.
Proof.
  unfold getitem, setitem. simpl.
  induction (columns t) as [|[k s0] cs IH]; simpl.
  - by destruct (decide (c = c')).
  - destruct (decide (k = c)) as [->|Hkc]; simpl.
    + by destruct (decide (c = c')).
    + destruct (decide (k = c')) as [->|Hkc'].
      * by rewrite decide_False by done.
      * exact IH.
Qed.

Lemma normalize_step_inv (method c : string) (st st' : DataFrame * gmap string fit) :
  normalize_step py_float method c st = Ok st' →
  ∃ s x, getitem (fst st) c = Some s ∧ astype_float py_float s = Ok x ∧
    st' = (setitem (fst st) c (fst (scaled method (nrows (fst st)) x)),
           <[c := snd (scaled method (nrows (fst st)) x)]> (snd st)).
Proof.
  unfold normalize_step. destruct (getitem (fst st) c) as [s|] eqn:Hs; [|done].
  destruct (astype_float py_float s) as [x|] eqn:Hx; [|done].
  intros [= <-]. exists s, x. by repeat split.
Qed.

(** The loop leaves alone the columns and the entries it is not asked. *)
Lemma normalize_steps_other (method : string) (cols : list string)
    (st st' : DataFrame * gmap string fit) (c : string) :
  normalize_steps py_float method cols st = Ok st' →
  c ∉ cols →
  getitem (fst st') c = getitem (fst st) c ∧ snd st' !! c = snd st !! c ∧
  nrows (fst st') = nrows (fst st).
Proof.
  revert st. induction cols as [|k cols IH]; intros st Hrun Hc.
  - by injection Hrun as <-.
  - simpl in Hrun.
    destruct (normalize_step py_float method k st) as [st1|] eqn:Hstep; [|done].
    destruct (normalize_step_inv _ _ _ _ Hstep) as (s & x & Hs & Hx & ->).
    assert (k ≠ c) by (intros ->; apply Hc; left).
    destruct (IH _ Hrun) as (H1 & H2 & H3); [intros ?; apply Hc; by right|].
    simpl in *. rewrite H1, H2, H3, getitem_setitem, decide_False by done.
    by rewrite lookup_insert_ne.
Qed.

Lemma normalize_steps_nrows (method : string) (cols : list string)
    (st st' : DataFrame * gmap string fit) :
  normalize_steps py_float method cols st = Ok st' →
  nrows (fst st') = nrows (fst st).
Proof.
  revert st. induction cols as [|k cols IH]; intros st Hrun.
  - by injection Hrun as <-.
  - simpl in Hrun.
    destruct (normalize_step py_float method k st) as [st1|] eqn:Hstep; [|done].
    destruct (normalize_step_inv _ _ _ _ Hstep) as (s & x & Hs & Hx & ->).
    by rewrite (IH _ Hrun).
Qed.


Lemma listed_once_split (c : string) (cols : list string) :
  listed_once c cols →
  ∃ pre post, cols = pre ++ (c :: post) ∧ (c ∉ pre) ∧ (c ∉ post).
Proof.
  unfold listed_once. induction cols as [|k cols IH]; [done|].
  destruct (decide (k = c)) as [->|Hne].
  - rewrite filter_cons_True by done. simpl. intros [= Hlen].
    exists [], cols. split; [done|]. split; [apply not_elem_of_nil|].
    intros Hin. apply length_zero_iff_nil in Hlen.
    assert (c ∈ filter (fun k => k = c) cols) by by apply list_elem_of_filter.
    rewrite Hlen in H. by apply elem_of_nil in H.
  - rewrite filter_cons_False by done. intros H.
    destruct (IH H) as (pre & post & -> & Hpre & Hpost).
    exists (k :: pre), post. split; [done|]. split; [|done].
    intros [->|?]%elem_of_cons; done.
Qed.

Lemma normalize_steps_app (method : string) (pre post : list string)
    (st : DataFrame * gmap string fit) :
  normalize_steps py_float method (pre ++ post) st
  = match normalize_steps py_float method pre st with
    | Ok st1 => normalize_steps py_float method post st1
    | Raise e => Raise e
    end.
Proof.
  revert st. induction pre as [|k pre IH]; intros st; [done|]. simpl.
  destruct (normalize_step py_float method k st); [apply IH|done].
Qed.

(** A column asked once is rewritten once, from its cells in the input. *)
Lemma normalize_steps_once (method : string) (cols : list string)
    (t t' : DataFrame) (params : gmap string fit) (c : string) :
  normalize_steps py_float method cols (t, ∅) = Ok (t', params) →
  listed_once c cols →
  ∃ s x, getitem t c = Some s ∧ astype_float py_float s = Ok x ∧
    getitem t' c = Some (fst (scaled method (nrows t) x)) ∧
    params !! c = Some (snd (scaled method (nrows t) x)).
Proof.
  intros Hrun Hc.
  destruct (listed_once_split c cols Hc) as (pre & post & -> & Hpre & Hpost).
  rewrite normalize_steps_app in Hrun.
  destruct (normalize_steps py_float method pre (t, ∅)) as [st1|] eqn:H1; [|done].
  destruct (normalize_steps_other _ _ _ _ c H1 Hpre) as (Hg1 & _ & Hn1).
  simpl in Hrun.
  destruct (normalize_step py_float method c st1) as [st2|] eqn:Hstep; [|done].
  destruct (normalize_step_inv _ _ _ _ Hstep) as (s & x & Hs & Hx & ->).
  destruct (normalize_steps_other _ _ _ _ c Hrun Hpost) as (Hg2 & Hp2 & _).
  simpl in *. exists s, x. rewrite <- Hg1, <- Hn1. split; [done|]. split; [done|].
  rewrite Hg2, Hp2, getitem_setitem, decide_True by done.
  by rewrite lookup_insert_eq.
Qed.

(** What a returning call of [normalize_data] leaves: the table and the
    dict the loop computed from the value of the input. *)
Lemma normalize_data_returned (w w' : world) (df out : ref) (t : DataFrame)
    (requested : option (list string)) (method : string)
    (params : gmap string fit) :
  heap w !! df = Some t →
  normalize_data py_float df requested method w = (Ok (out, params), w') →
  method ∈ ["standard"; "minmax"] ∧
  ∃ t', heap w' !! out = Some t' ∧
        normalize_steps py_float method (resolved t requested) (t, ∅) = Ok (t', params).
Proof.
  intros Hdf Hrun.
  destruct (normalize_data_run w df t requested method Hdf) as (w2 & Hrun2 & _ & Hout).
  rewrite Hrun in Hrun2. injection Hrun2 as Hres ->.
  destruct (decide (method ∉ ["standard"; "minmax"])) as [|Hm]; [done|].
  assert (Hm' : method ∈ ["standard"; "minmax"]).
  { destruct (decide (method ∈ ["standard"; "minmax"])); [done|]. by destruct Hm. }
  split; [done|].
  destruct (normalize_steps _ _ _ _) as [[t' p']|] eqn:Hst; [|done].
  injection Hres as -> ->. exists t'. split; [|done].
  by apply (Hout (t', p')).
Qed.

(** ** Normalisation *)

(** C6: with a [method] other than standard and minmax, [normalize_data]
    raises ValueError for every table and [columns] argument.  It raises
    before the loop: the store is the one [out = df.copy()] left, nothing
    is printed, and the input table has the value it had. *)
Theorem normalize_data_rejects_method (w : world) (df : ref) (t : DataFrame)
    (requested : option (list string)) (method : string) :
  heap w !! df = Some t →
  method ≠ "standard" →
  method ≠ "minmax" →
  normalize_data py_float df requested method w
  = (Raise (ValueError "method must be one of {standard, minmax}"),
     snd (DataFrame_copy df w)) ∧
  heap (snd (DataFrame_copy df w)) !! df = Some t ∧
  preserved w (snd (DataFrame_copy df w)) ∧
  stdout (snd (DataFrame_copy df w)) = stdout w.
Proof.
  intros Hdf Hs Hm. rewrite (copy_run _ _ _ Hdf).
  assert (Hp : preserved w (alloc t w).2) by apply preserved_alloc.
  split; [|split; [by apply (preserved_lookup w)|by split]].
  unfold normalize_data.
  rewrite (bind_Ok _ _ _ _ _ (coerce_columns_run _ _ _ _ Hdf)).
  rewrite (bind_Ok _ _ _ _ _ (copy_run _ _ _ Hdf)).
  rewrite decide_True; [done|].
  intros [->|[->|?%elem_of_nil]%elem_of_cons]%elem_of_cons; done.
Qed.




(** C5, amended: for every table and every resolved column asked once,
    when the range [max - min] computed for its cells is not 0,
    [normalize_data] with method minmax maps each cell [v] of the column
    to [(v - min) / (max - min)] and records [{minmax, min, max}] under
    its label.  When that range is moreover finite, [min] and [max] are
    cells of the column with every non-missing cell between them, [min]
    is mapped to 0, [max] is mapped to 1, every non-missing cell is mapped
    into [0, 1], and a missing cell stays missing. *)
Theorem normalize_data_minmax (w w' : world) (df out : ref) (t : DataFrame)
    (requested : option (list string)) (params : gmap string fit) (c : string) :
  heap w !! df = Some t →
  normalize_data py_float df requested "minmax" w = (Ok (out, params), w') →
  listed_once c (resolved t requested) →
  ∃ s x t',
    getitem t c = Some s ∧ astype_float py_float s = Ok x ∧
    heap w' !! out = Some t' ∧
    (PrimFloat.eqb (np.nanmax x - np.nanmin x) 0 = false →
     getitem t' c
     = Some (Float64 (map (fun v => ((v - np.nanmin x)
                                     / (np.nanmax x - np.nanmin x))%float) x)) ∧
     params !! c = Some (MinMax (np.nanmin x) (np.nanmax x))) ∧
    (PrimFloat.eqb (np.nanmax x - np.nanmin x) 0 = false →
     np.isfinite (np.nanmax x - np.nanmin x) = true →
     np.nanmin x ∈ x ∧ np.nanmax x ∈ x ∧
     (∀ v, v ∈ x → np.isnan v = false →
        PrimFloat.leb (np.nanmin x) v = true ∧
        PrimFloat.leb v (np.nanmax x) = true) ∧
     ((np.nanmin x - np.nanmin x) / (np.nanmax x - np.nanmin x))%float = 0%float ∧
     ((np.nanmax x - np.nanmin x) / (np.nanmax x - np.nanmin x))%float = 1%float ∧
     (∀ v, v ∈ x → np.isnan v = false →
        PrimFloat.leb 0 ((v - np.nanmin x) / (np.nanmax x - np.nanmin x)) = true ∧
        PrimFloat.leb ((v - np.nanmin x) / (np.nanmax x - np.nanmin x)) 1 = true) ∧
     (∀ v, v ∈ x → np.isnan v = true →
        np.isnan ((v - np.nanmin x) / (np.nanmax x - np.nanmin x)) = true)).
Proof.
  intros Hdf Hrun Hc.
  destruct (normalize_data_returned _ _ _ _ _ _ _ _ Hdf Hrun) as (_ & t' & Hout & Hst).
  destruct (normalize_steps_once _ _ _ _ _ _ Hst Hc) as (s & x & Hs & Hx & Hg & Hp).
  exists s, x, t'. split; [done|]. split; [done|]. split; [done|]. split.
  - intros Hnz. rewrite Hg, Hp. unfold scaled.
    rewrite decide_False by done. simpl. by rewrite Hnz.
  - intros Hnz Hfin.
    destruct (nan_extrema_spec x (finite_range_dropna x Hfin))
      as ((Hmn & Nmn) & (Hmx & Nmx) & Hbetween).
    destruct (Hbetween _ Hmx Nmx) as [Hle _].
    destruct (minmax_unit _ _ Hle Hfin Hnz) as (H0 & H1 & Hunit).
    split; [done|]. split; [done|]. split; [done|]. split; [done|].
    split; [done|]. split.
    + intros v Hv Hnv. destruct (Hbetween v Hv Hnv). by apply Hunit.
    + intros v _ Hnv. by apply nan_sub_div.
Qed.



End NormalizeStore.

(** * Further properties of the three functions *)

(** ** Row deletion: the rule of [how] *)












(** ** Row deletion: masks and counts *)

























(** ** Imputation, cell by cell *)


(** X10: with each resolved label asked once, [fill_missing_median]
    returns; the table has the row labels, the column labels and the
    invariant of the input; in a resolved float64 column each missing cell
    holds the median of the column and every other cell is the input's;
    int64 columns, object columns and the columns not resolved are the
    input's. *)
Theorem fill_missing_median_cells (w : world) (df : ref) (t : DataFrame)
    (requested : option (list string)) :
  heap w !! df = Some t →
  wf_table t →
  NoDup (resolved t requested) →
  ∃ t', returned_table (fill_missing_median df requested w) = Ok t' ∧
    wf_table t' ∧ index t' = index t ∧ names t' = names t ∧
    ∀ c s, getitem t c = Some s →
      getitem t' c
      = Some (match s with
              | Float64 xs =>
                  if decide (c ∈ resolved t requested)
                  then Float64 (map (fun x => if np.isnan x then np.nanmedian xs else x) xs)
                  else s
              | _ => s
              end).
Proof.
  intros Hdf Hwf Hnd. rewrite (fill_missing_median_returned _ _ _ _ Hdf).
  rewrite (filled_NoDup t _ Hwf Hnd (resolved_names t requested)).
  eexists. split; [done|]. split; [by apply fill_columns_wf|]. split; [done|].
  split; [apply fill_columns_names|].
  intros c s Hs. rewrite fill_columns_getitem, Hs. simpl. f_equal.
  destruct s as [xs|xs|xs]; by destruct (decide (c ∈ resolved t requested)).
Qed.

Lemma fill_columns_clean (cols : list string) (t : DataFrame) :
  (∀ c xs, c ∈ cols → getitem t c = Some (Float64 xs) →
     Forall (fun x => np.isnan x = false) xs) →
  NoDup (names t) →
  fill_columns cols t = t.
Proof.
  intros Hclean Hnd. unfold fill_columns. destruct t as [idx cs]. simpl. f_equal.
  rewrite <- (map_id cs) at 2. apply map_ext_Forall, Forall_forall.
  intros [k s] Hks. simpl. f_equal.
  destruct (decide (k ∈ cols)) as [Hk|]; [|done].
  destruct s as [xs|xs|xs]; [|done|done].
  unfold fill_col. simpl. f_equal. apply fillna_no_nan.
  apply (Hclean k xs Hk). unfold getitem. simpl.
  apply (lookup_column_elem cs (k, Float64 xs) Hnd Hks).
Qed.

(** X11: on a table whose resolved float64 columns have no missing cell,
    [fill_missing_median] returns a table equal to the input. *)
Theorem fill_missing_median_clean (w : world) (df : ref) (t : DataFrame)
    (requested : option (list string)) :
  heap w !! df = Some t →
  wf_table t →
  NoDup (resolved t requested) →
  (∀ c xs, c ∈ resolved t requested → getitem t c = Some (Float64 xs) →
     Forall (fun x => np.isnan x = false) xs) →
  returned_table (fill_missing_median df requested w) = Ok t.
Proof.
  intros Hdf Hwf Hnd Hclean. rewrite (fill_missing_median_returned _ _ _ _ Hdf).
  rewrite (filled_NoDup t _ Hwf Hnd (resolved_names t requested)).
  f_equal. apply fill_columns_clean; [done|apply Hwf].
Qed.

(** ** The median of finite values is a number *)

Module B64_total.

Import B64 B64_facts.

Local Open Scope Z_scope.


(** Rounding a mantissa that is not negative gives a number. *)
Lemma round_aux_not_nan (s : bool) (mx ex : Z) (lx : location) :
  0 <= mx → not_nan (binary_round_aux prec emax s mx ex lx) = true.
Proof.
  intros Hm. unfold binary_round_aux.
  assert (S1 := shr_m_spec (shr_record_of_loc mx lx) ex
                  (fexp prec emax (Zdigits2 mx + ex) - ex)).
  rewrite shr_record_of_loc_m in S1. specialize (S1 Hm).
  change (shr (shr_record_of_loc mx lx) ex (fexp prec emax (Zdigits2 mx + ex) - ex))
    with (shr_fexp prec emax mx ex lx) in S1.
  destruct S1 as [M1 _].
  destruct (shr_fexp prec emax mx ex lx) as [mrs' e'].
  simpl in M1.
  assert (HM0 : 0 <= shr_m mrs').
  { rewrite M1. apply Z.div_pos; [done|]. apply pow2_pos. lia. }
  set (M' := round_nearest_even (shr_m mrs') (loc_of_shr_record mrs')).
  assert (HM' := round_nearest_even_bounds (shr_m mrs') (loc_of_shr_record mrs')).
  fold M' in HM'.
  assert (S2 := shr_m_spec (shr_record_of_loc M' loc_Exact) e'
                  (fexp prec emax (Zdigits2 M' + e') - e')).
  rewrite shr_record_of_loc_m in S2. specialize (S2 ltac:(lia)).
  change (shr (shr_record_of_loc M' loc_Exact) e' (fexp prec emax (Zdigits2 M' + e') - e'))
    with (shr_fexp prec emax M' e' loc_Exact) in S2.
  destruct S2 as [M2 _].
  destruct (shr_fexp prec emax M' e' loc_Exact) as [mrs'' e''].
  simpl in M2.
  assert (HM2 : 0 <= shr_m mrs'').
  { rewrite M2. apply Z.div_pos; [lia|]. apply pow2_pos. lia. }
  destruct (shr_m mrs'') as [|p|p]; [done| |lia].
  by destruct (e'' <=? emax - prec).
Qed.

Lemma binary_normalize_not_nan (m e : Z) (szero : bool) :
  not_nan (binary_normalize prec emax m e szero) = true.
Proof.
  unfold binary_normalize, binary_round.
  destruct m as [|p|p]; [done| |];
    destruct (shl_align p e _) as [mz ez];
    by apply round_aux_not_nan.
Qed.

(** The sum of two finite numbers is a number. *)
Lemma SFadd_not_nan (x y : spec_float) :
  finite_or_zero x = true → finite_or_zero y = true →
  not_nan (SFadd prec emax x y) = true.
Proof.
  destruct x as [sx|sx| |sx mx ex], y as [sy|sy| |sy my ey]; try done; intros _ _.
  - simpl. by destruct sx, sy.
  - apply binary_normalize_not_nan.
Qed.

Lemma div_core_nonneg (m1 m2 : positive) (e1 e2 : Z) :
  0 <= fst (fst (SFdiv_core_binary prec emax (Zpos m1) e1 (Zpos m2) e2)).
Proof.
  unfold SFdiv_core_binary.
  set (s := e1 - e2 - _).
  set (m' := match s with Z.pos _ => Z.pos m1 ≪ s | 0 => Z.pos m1 | Z.neg _ => 0 end).
  assert (Hm' : 0 <= m').
  { unfold m'. destruct s as [|ps|ps]; [lia| |lia]. apply Z.shiftl_nonneg. lia. }
  destruct (Z.div_eucl m' (Z.pos m2)) as [q r] eqn:Hdiv. simpl.
  assert (Hq : q = m' / Zpos m2) by (unfold Z.div; by rewrite Hdiv).
  rewrite Hq. apply Z.div_pos; lia.
Qed.

(** A number divided by a finite number other than zero is a number. *)
Lemma SFdiv_not_nan (x : spec_float) (s : bool) (m : positive) (e : Z) :
  not_nan x = true → not_nan (SFdiv prec emax x (S754_finite s m e)) = true.
Proof.
  destruct x as [sx|sx| |sx mx ex]; try done; intros _.
  unfold SFdiv. assert (H := div_core_nonneg mx m ex e).
  destruct (SFdiv_core_binary prec emax (Z.pos mx) ex (Z.pos m) e) as [[q e'] l].
  by apply round_aux_not_nan.
Qed.

End B64_total.

(** The mean of two finite floats is a number. *)
Lemma float_midpoint_not_nan (a b : float) :
  np.isfinite a = true → np.isfinite b = true →
  np.isnan ((a + b) / 2) = false.
Proof.
  intros Fa%isfinite_spec Fb%isfinite_spec.
  apply isnan_not_nan. rewrite div_spec, add_spec.
  change (Prim2SF 2) with (S754_finite false 4503599627370496 (-51)).
  by apply B64_total.SFdiv_not_nan, B64_total.SFadd_not_nan.
Qed.

Lemma insert_sorted_elem (x y : float) (ys : list float) :
  y ∈ np.insert_sorted x ys ↔ y = x ∨ y ∈ ys.
Proof.
  induction ys as [|z ys IH]; simpl.
  - rewrite list_elem_of_singleton, elem_of_nil. tauto.
  - destruct (PrimFloat.leb x z); rewrite !elem_of_cons; [tauto|]. rewrite IH. tauto.
Qed.

Lemma insert_sorted_length (x : float) (ys : list float) :
  length (np.insert_sorted x ys) = S (length ys).
Proof.
  induction ys as [|z ys IH]; [done|]. simpl.
  destruct (PrimFloat.leb x z); simpl; by rewrite ?IH.
Qed.

(** Sorting keeps the values and their number. *)
Lemma sort_elem (y : float) (xs : list float) : y ∈ np.sort xs ↔ y ∈ xs.
Proof.
  unfold np.sort. induction xs as [|x xs IH]; [done|]. simpl.
  rewrite insert_sorted_elem, elem_of_cons, IH. tauto.
Qed.

Lemma sort_length (xs : list float) : length (np.sort xs) = length xs.
Proof.
  unfold np.sort. induction xs as [|x xs IH]; [done|]. simpl.
  by rewrite insert_sorted_length, IH.
Qed.

Lemma nth_elem (i : nat) (l : list float) (d : float) :
  (i < length l)%nat → nth i l d ∈ l.
Proof.
  intros Hi. destruct (lookup_lt_is_Some_2 l i Hi) as [v Hv].
  rewrite (nth_lookup_Some _ _ d _ Hv). by apply list_elem_of_lookup_2 in Hv.
Qed.

(** The median of a column with a value is one of its values, or the mean
    of two of them. *)
Lemma nanmedian_cases (xs : list float) :
  np.dropna xs ≠ [] →
  (np.nanmedian xs ∈ xs ∧ np.isnan (np.nanmedian xs) = false) ∨
  ∃ a b, a ∈ xs ∧ b ∈ xs ∧ np.isnan a = false ∧ np.isnan b = false ∧
         np.nanmedian xs = ((a + b) / 2)%float.
Proof.
  intros Hne. unfold np.nanmedian.
  set (ys := np.sort (np.dropna xs)).
  assert (Hys : ∀ v, v ∈ ys → v ∈ xs ∧ np.isnan v = false).
  { intros v Hv. apply (dropna_spec xs v), (sort_elem v (np.dropna xs)), Hv. }
  assert (Hn : (0 < length ys)%nat).
  { unfold ys. rewrite sort_length. destruct (np.dropna xs); [done|simpl; lia]. }
  rewrite decide_False by lia.
  assert (H2 : (length ys / 2 < length ys)%nat) by (apply Nat.div_lt; lia).
  destruct (Nat.even (length ys)).
  - right. eexists _, _. split; [|split; [|split; [|split; [|done]]]].
    + apply Hys, nth_elem. lia.
    + by apply Hys, nth_elem.
    + apply Hys, nth_elem. lia.
    + by apply Hys, nth_elem.
  - left. by apply Hys, nth_elem.
Qed.

(** A column whose values are finite, with one value at least, has a
    median that is a number. *)
Lemma nanmedian_not_nan (xs : list float) :
  np.dropna xs ≠ [] →
  Forall (fun v => np.isnan v = false → np.isfinite v = true) xs →
  np.isnan (np.nanmedian xs) = false.
Proof.
  intros Hne Hfin. rewrite Forall_forall in Hfin.
  destruct (nanmedian_cases xs Hne) as [[_ H]|(a & b & Ha & Hb & Na & Nb & ->)]; [done|].
  apply float_midpoint_not_nan; by apply Hfin.
Qed.



(** X12: imputation completes a column.  When a resolved float64 column
    has a value at least and all its values are finite, no cell of the
    returned column is missing: the cells that were missing hold the
    median and the others are unchanged. *)
Theorem fill_missing_median_no_missing_left (w : world) (df : ref) (t t' : DataFrame)
    (requested : option (list string)) (c : string) (xs : list float) :
  heap w !! df = Some t →
  wf_table t →
  returned_table (fill_missing_median df requested w) = Ok t' →
  c ∈ resolved t requested →
  getitem t c = Some (Float64 xs) →
  imputable (Float64 xs) →
  ∃ ys, getitem t' c = Some (Float64 ys) ∧
    Forall (fun y => np.isnan y = false) ys ∧
    Forall2 (fun x y => if np.isnan x then y = np.nanmedian xs else y = x) xs ys.
Proof.
  intros Hdf Hwf Hret Hc Hs [Hne Hfin].
  assert (Hmed := nanmedian_not_nan xs Hne Hfin).
  rewrite (fill_missing_median_returned w df t requested Hdf) in Hret.
  destruct (decide (NoDup (resolved t requested))) as [Hnd|Hnd].
  - rewrite (filled_NoDup t _ Hwf Hnd (resolved_names t requested)) in Hret.
    injection Hret as <-.
    rewrite fill_columns_getitem, Hs. simpl. rewrite decide_True by done.
    eexists. split; [done|]. split.
    + rewrite Forall_map. apply Forall_forall. intros x _. simpl.
      by destruct (np.isnan x) eqn:Hx.
    + apply Forall2_fmap_r, Forall_Forall2_diag, Forall_forall.
      intros x _. simpl. by destruct (np.isnan x).
  - by rewrite (filled_dup t _ Hnd (resolved_names t requested)) in Hret.
Qed.


Lemma getitem_names (t : DataFrame) (c : string) (s : Series) :
  getitem t c = Some s → c ∈ names t.
Proof.
  unfold names, getitem. induction (columns t) as [|[k s0] cs IH]; [done|]. simpl.
  destruct (decide (k = c)) as [->|]; [intros _; left|]. intros H. right. by apply IH.
Qed.



(** ** Normalisation: columns without a value *)

Lemma float_div_nan (x : float) : (x / np.nan)%float = np.nan.
Proof.
  apply Prim2SF_inj. rewrite div_spec.
  change (Prim2SF np.nan) with S754_nan. by destruct (Prim2SF x).
Qed.

Lemma dropna_all_missing (x : list float) :
  Forall (fun v => np.isnan v = true) x → np.dropna x = [].
Proof.
  unfold np.dropna. induction 1 as [|v x Hv H IH]; [done|].
  rewrite filter_cons_False; [done|]. by rewrite Hv.
Qed.

(** The reductions of a column without a value are NaN. *)
Lemma reductions_all_missing (x : list float) :
  Forall (fun v => np.isnan v = true) x →
  np.nanmean x = np.nan ∧ np.nanstd 0 x = np.nan ∧
  np.nanmin x = np.nan ∧ np.nanmax x = np.nan.
Proof.
  intros H. assert (Hd := dropna_all_missing x H).
  unfold np.nanmean, np.nanstd, np.nanvar, np.nanmin, np.nanmax. rewrite Hd. simpl.
  by rewrite float_div_nan.
Qed.

(** Scaling with NaN parameters leaves missing cells missing. *)
Lemma scale_all_missing (a r : float) (x : list float) :
  Forall (fun v => np.isnan v = true) x →
  map (fun v => ((v - a) / r)%float) x = x.
Proof.
  intros H. rewrite <- (map_id x) at 2. apply map_ext_Forall.
  eapply Forall_impl; [exact H|]. intros v Hv. simpl.
  rewrite (isnan_eq v Hv) at 2. apply isnan_eq. by apply nan_sub_div.
Qed.

(** ** Normalisation: min-max scaling, once and again *)

(** The first pass: the cells of a column with a finite range that is not
    zero get what [unit_cell] asks. *)
Lemma minmax_first (x : list float) :
  PrimFloat.eqb (np.nanmax x - np.nanmin x) 0 = false →
  np.isfinite (np.nanmax x - np.nanmin x) = true →
  Forall2 (unit_cell (np.nanmin x) (np.nanmax x)) x
    (map (fun v => ((v - np.nanmin x) / (np.nanmax x - np.nanmin x))%float) x).
Proof.
  intros Hnz Hfin.
  destruct (nan_extrema_spec x (finite_range_dropna x Hfin))
    as ((Hmn & Nmn) & (Hmx & Nmx) & Hbetween).
  destruct (Hbetween _ Hmx Nmx) as [Hle _].
  destruct (minmax_unit _ _ Hle Hfin Hnz) as (H0 & H1 & Hunit).
  apply Forall2_fmap_r, Forall_Forall2_diag, Forall_forall.
  intros v Hv. simpl. split; [|split; [|split]].
  - intros Hnan. by apply nan_sub_div.
  - intros Hnan. destruct (Hbetween v Hv Hnan). by apply Hunit.
  - by intros ->.
  - by intros ->.
Qed.

(** The extrema of a scaled column are a zero and 1. *)
Lemma unit_extrema (mn mx : float) (x y : list float) :
  mn ∈ x → mx ∈ x → np.isnan mn = false →
  Forall2 (unit_cell mn mx) x y →
  (np.nanmin y = 0%float ∨ np.nanmin y = PrimFloat.neg_zero) ∧
  np.nanmax y = 1%float.
Proof.
  intros Hmn Hmx Nmn Hxy.
  assert (H0 : 0%float ∈ y).
  { apply list_elem_of_lookup in Hmn as [i Hi].
    destruct (Forall2_lookup_l _ _ _ _ _ Hxy Hi) as (q & Hq & _ & _ & Hq0 & _).
    rewrite (Hq0 eq_refl) in Hq. by apply list_elem_of_lookup_2 in Hq. }
  assert (H1 : 1%float ∈ y).
  { apply list_elem_of_lookup in Hmx as [i Hi].
    destruct (Forall2_lookup_l _ _ _ _ _ Hxy Hi) as (q & Hq & _ & _ & _ & Hq1).
    rewrite (Hq1 eq_refl) in Hq. by apply list_elem_of_lookup_2 in Hq. }
  assert (Hb : ∀ q, q ∈ y → np.isnan q = false →
            PrimFloat.leb 0 q = true ∧ PrimFloat.leb q 1 = true).
  { intros q [i Hi]%list_elem_of_lookup Nq.
    destruct (Forall2_lookup_r _ _ _ _ _ Hxy Hi) as (v & _ & Hnan & Hval & _).
    destruct (np.isnan v) eqn:Hv; [|by apply Hval].
    rewrite (Hnan eq_refl) in Nq. done. }
  assert (Hne : np.dropna y ≠ []).
  { intros Hnil. assert (Hin : 0%float ∈ np.dropna y) by by apply dropna_spec.
    rewrite Hnil in Hin. by apply elem_of_nil in Hin. }
  destruct (nan_extrema_spec y Hne) as ((Hmn' & Nmn') & (Hmx' & Nmx') & Hbetween).
  split.
  - apply eqb_zero, leb_antisym.
    + by apply (Hbetween 0%float H0).
    + by apply Hb.
  - apply eqb_one, leb_antisym.
    + by apply Hb.
    + by apply (Hbetween 1%float H1).
Qed.

(** A further pass on a scaled column: the cells keep what [unit_cell]
    asks. *)
Lemma minmax_again (mn mx : float) (x y : list float) :
  mn ∈ x → mx ∈ x → np.isnan mn = false →
  Forall2 (unit_cell mn mx) x y →
  PrimFloat.eqb (np.nanmax y - np.nanmin y) 0 = false ∧
  Forall2 (unit_cell mn mx) x
    (map (fun q => ((q - np.nanmin y) / (np.nanmax y - np.nanmin y))%float) y).
Proof.
  intros Hmn Hmx Nmn Hxy.
  destruct (unit_extrema mn mx x y Hmn Hmx Nmn Hxy) as [Hmin ->].
  assert (Hrng : (1 - np.nanmin y)%float = 1%float) by (by destruct Hmin as [-> | ->]).
  assert (Hle0 : PrimFloat.leb (np.nanmin y) 0 = true) by (by destruct Hmin as [-> | ->]).
  assert (Hle1 : PrimFloat.leb (np.nanmin y) 1 = true) by (by destruct Hmin as [-> | ->]).
  assert (Hz : ((0 - np.nanmin y) / (1 - np.nanmin y))%float = 0%float)
    by (by destruct Hmin as [-> | ->]).
  assert (Ho : ((1 - np.nanmin y) / (1 - np.nanmin y))%float = 1%float)
    by (by destruct Hmin as [-> | ->]).
  split; [by rewrite Hrng|].
  destruct (minmax_unit (np.nanmin y) 1 Hle1) as (_ & _ & Hunit);
    [by rewrite Hrng|by rewrite Hrng|].
  apply Forall2_fmap_r. eapply Forall2_impl; [exact Hxy|].
  intros v q (Hnan & Hval & Hq0 & Hq1). simpl. split; [|split; [|split]].
  - intros Hv. apply nan_sub_div. by apply Hnan.
  - intros Hv. destruct (Hval Hv) as [Hq Hq']. apply Hunit; [|done].
    by apply (leb_trans _ 0).
  - intros Hv. by rewrite (Hq0 Hv).
  - intros Hv. by rewrite (Hq1 Hv).
Qed.

(** ** Normalisation: the loop, column by column *)

Lemma setitem_names (t : DataFrame) (c : string) (s : Series) :
  c ∈ names t → names (setitem t c s) = names t.
Proof.
  unfold names, setitem. simpl. induction (columns t) as [|[k s0] cs IH]; simpl.
  - by intros ?%elem_of_nil.
  - intros Hin. destruct (decide (k = c)) as [->|Hne]; [done|]. simpl. f_equal.
    apply IH. by apply elem_of_cons in Hin as [->|].
Qed.

Lemma setitem_wf (t : DataFrame) (c : string) (s : Series) :
  wf_table t → c ∈ names t → Series_len s = nrows t → wf_table (setitem t c s).
Proof.
  intros [Hnd Hlen] Hc Hs. split.
  - fold (names (setitem t c s)). by rewrite setitem_names.
  - unfold setitem, nrows in *. simpl. clear Hnd Hc.
    induction Hlen as [|[k s0] cs Hk Hcs IH]; simpl.
    + by constructor.
    + destruct (decide (k = c)); constructor; done.
Qed.

Section NormalizeMore.

Variable py_float : string → option float.


Lemma scaled_Float64 (method : string) (n : nat) (x : list float) :
  fst (scaled method n x) = Float64 (scaled_cells method n x).
Proof.
  unfold scaled_cells, scaled.
  destruct (decide (method = "standard")); simpl; by destruct (PrimFloat.eqb _ 0).
Qed.

Lemma scaled_cells_length (method : string) (x : list float) :
  length (scaled_cells method (length x) x) = length x.
Proof.
  unfold scaled_cells, scaled.
  destruct (decide (method = "standard")); simpl; destruct (PrimFloat.eqb _ 0);
    by rewrite ?length_replicate, ?length_map.
Qed.

Lemma astype_float_length (s : Series) (x : list float) :
  astype_float py_float s = Ok x → length x = Series_len s.
Proof.
  destruct s as [xs|xs|xs]; simpl.
  - by intros [= <-].
  - intros [= <-]. by rewrite length_map.
  - destruct (mapM (pyobj_to_float py_float) xs) as [ys|] eqn:Hm; [|done].
    intros [= <-]. symmetry. by apply (length_mapM _ _ _ Hm).
Qed.

(** A pass of the loop keeps the shape of the table. *)
Lemma normalize_step_shape (method c : string) (st st' : DataFrame * gmap string fit) :
  wf_table (fst st) →
  normalize_step py_float method c st = Ok st' →
  wf_table (fst st') ∧ index (fst st') = index (fst st) ∧
  names (fst st') = names (fst st) ∧
  ∃ s x, getitem (fst st) c = Some s ∧ astype_float py_float s = Ok x ∧
         length x = nrows (fst st) ∧
         getitem (fst st') c = Some (Float64 (scaled_cells method (length x) x)).
Proof.
  intros Hwf Hstep.
  destruct (normalize_step_inv _ _ _ _ _ Hstep) as (s & x & Hs & Hx & ->). simpl.
  assert (Hlen : length x = nrows (fst st)).
  { rewrite (astype_float_length _ _ Hx). by apply (getitem_length _ c). }
  assert (Hc := getitem_names _ _ _ Hs).
  rewrite <- Hlen, scaled_Float64. split; [|split; [done|split]].
  - apply setitem_wf; [done|done|]. simpl. by rewrite scaled_cells_length.
  - by apply setitem_names.
  - exists s, x. by rewrite getitem_setitem, decide_True.
Qed.

Lemma normalize_steps_shape (method : string) (cols : list string)
    (st st' : DataFrame * gmap string fit) :
  wf_table (fst st) →
  normalize_steps py_float method cols st = Ok st' →
  wf_table (fst st') ∧ index (fst st') = index (fst st) ∧
  names (fst st') = names (fst st).
Proof.
  revert st. induction cols as [|k cols IH]; intros st Hwf Hrun.
  - by injection Hrun as <-.
  - simpl in Hrun.
    destruct (normalize_step py_float method k st) as [st1|] eqn:Hstep; [|done].
    destruct (normalize_step_shape _ _ _ _ Hwf Hstep) as (Hwf1 & Hi1 & Hn1 & _).
    destruct (IH _ Hwf1 Hrun) as (Hwf' & Hi' & Hn'). by rewrite Hi', Hn'.
Qed.

(** A property of the cells of a column and of its fitted parameters that
    every pass keeps holds of what the loop leaves. *)
Lemma normalize_steps_keeps (method : string) (c : string)
    (R : list float → fit → Prop)
    (cols : list string) (st st' : DataFrame * gmap string fit)
    (y : list float) (f : fit) :
  (∀ y f, R y f → length y = nrows (fst st) →
     R (scaled_cells method (length y) y) (snd (scaled method (length y) y))) →
  wf_table (fst st) →
  normalize_steps py_float method cols st = Ok st' →
  getitem (fst st) c = Some (Float64 y) → snd st !! c = Some f → R y f →
  ∃ y' f', getitem (fst st') c = Some (Float64 y') ∧ snd st' !! c = Some f' ∧ R y' f'.
Proof.
  intros HR. revert st y f HR.
  induction cols as [|k cols IH]; intros st y f HR Hwf Hrun Hy Hf Ryf.
  - injection Hrun as <-. by exists y, f.
  - simpl in Hrun.
    destruct (normalize_step py_float method k st) as [st1|] eqn:Hstep; [|done].
    destruct (normalize_step_shape _ _ _ _ Hwf Hstep)
      as (Hwf1 & Hi1 & Hn1 & s & x & Hs & Hx & Hlen & Hg).
    assert (Hrows : nrows (fst st1) = nrows (fst st)) by (unfold nrows; by rewrite Hi1).
    assert (HR1 : ∀ y f, R y f → length y = nrows (fst st1) →
              R (scaled_cells method (length y) y) (snd (scaled method (length y) y))).
    { intros y' f' ? ?. apply (HR y' f'); [done|]. by rewrite <- Hrows. }
    destruct (normalize_step_inv _ _ _ _ _ Hstep) as (s' & x' & Hs' & Hx' & Hst1).
    rewrite Hs in Hs'. injection Hs' as <-. rewrite Hx in Hx'. injection Hx' as <-.
    destruct (decide (k = c)) as [->|Hne].
    + rewrite Hs in Hy. injection Hy as ->. simpl in Hx. injection Hx as <-.
      apply (IH st1 (scaled_cells method (length y) y)
                (snd (scaled method (length y) y))); try done.
      * rewrite Hst1. simpl. rewrite lookup_insert_eq. by rewrite Hlen.
      * by apply (HR y f).
    + apply (IH st1 y f); try done.
      * rewrite Hst1. simpl. by rewrite getitem_setitem, decide_False.
      * rewrite Hst1. simpl. by rewrite lookup_insert_ne.
Qed.

(** The same, from the cells the input holds under a label that is asked. *)
Lemma normalize_steps_reach (method : string) (c : string)
    (R : list float → fit → Prop)
    (cols : list string) (t t' : DataFrame) (params : gmap string fit) :
  wf_table t →
  normalize_steps py_float method cols (t, ∅) = Ok (t', params) →
  c ∈ cols →
  ∃ s x, getitem t c = Some s ∧ astype_float py_float s = Ok x ∧
    length x = nrows t ∧
    (R (scaled_cells method (length x) x) (snd (scaled method (length x) x)) →
     (∀ y f, R y f → length y = nrows t →
        R (scaled_cells method (length y) y) (snd (scaled method (length y) y))) →
     ∃ y' f', getitem t' c = Some (Float64 y') ∧ params !! c = Some f' ∧ R y' f').
Proof.
  intros Hwf Hrun Hc.
  destruct (list_elem_of_split_l cols c Hc) as (pre & post & -> & Hpre).
  rewrite normalize_steps_app in Hrun.
  destruct (normalize_steps py_float method pre (t, ∅)) as [st1|] eqn:H1; [|done].
  destruct (normalize_steps_other _ _ _ _ _ c H1 Hpre) as (Hg1 & _ & Hn1).
  destruct (normalize_steps_shape method pre (t, ∅) st1 Hwf H1) as (Hwf1 & Hi1 & _).
  simpl in Hrun, Hg1, Hn1, Hi1.
  destruct (normalize_step py_float method c st1) as [st2|] eqn:Hstep; [|done].
  destruct (normalize_step_shape _ _ _ _ Hwf1 Hstep)
    as (Hwf2 & Hi2 & _ & s & x & Hs & Hx & Hlen & Hg).
  destruct (normalize_step_inv _ _ _ _ _ Hstep) as (s' & x' & Hs' & Hx' & Hst2).
  rewrite Hs in Hs'. injection Hs' as <-. rewrite Hx in Hx'. injection Hx' as <-.
  exists s, x. rewrite <- Hg1, <- Hn1. split; [done|]. split; [done|]. split; [done|].
  intros R0 HR.
  apply (normalize_steps_keeps method c R post st2 (t', params)
           (scaled_cells method (length x) x)
           (snd (scaled method (length x) x))); try done.
  - intros y f Ryf Hy. apply (HR y f); [done|]. rewrite Hy. unfold nrows. by rewrite Hi2.
  - rewrite Hst2. simpl. rewrite lookup_insert_eq. by rewrite Hlen.
Qed.

(** X14: when [normalize_data] returns, the table has the row labels, the
    column labels and the invariant of the input; the columns that are
    not resolved are the input's, and every resolved column is a float64
    column with one cell per row. *)
Theorem normalize_data_shape (w w' : world) (df out : ref) (t : DataFrame)
    (requested : option (list string)) (method : string)
    (params : gmap string fit) :
  heap w !! df = Some t →
  wf_table t →
  normalize_data py_float df requested method w = (Ok (out, params), w') →
  ∃ t', heap w' !! out = Some t' ∧
    wf_table t' ∧ index t' = index t ∧ names t' = names t ∧
    (∀ c, c ∉ resolved t requested → getitem t' c = getitem t c) ∧
    (∀ c, c ∈ resolved t requested →
       ∃ y, getitem t' c = Some (Float64 y) ∧ length y = nrows t).
Proof.
  intros Hdf Hwf Hrun.
  destruct (normalize_data_returned _ _ _ _ _ _ _ _ _ Hdf Hrun) as (_ & t' & Hout & Hst).
  exists t'. split; [done|].
  destruct (normalize_steps_shape method _ (t, ∅) (t', params) Hwf Hst)
    as (Hwf' & Hi & Hn).
  split; [done|]. split; [done|]. split; [done|]. split.
  - intros c Hc. by destruct (normalize_steps_other _ _ _ _ _ c Hst Hc) as (? & _).
  - intros c Hc.
    destruct (normalize_steps_reach method c (fun y _ => length y = nrows t)
                _ _ _ _ Hwf Hst Hc) as (s & x & Hs & Hx & Hlen & Hreach).
    destruct Hreach as (y & _ & Hy & _ & Hl).
    + by rewrite scaled_cells_length.
    + intros y _ Hy _. by rewrite scaled_cells_length.
    + by exists y.
Qed.

Lemma scaled_all_missing (method : string) (n : nat) (x : list float) :
  Forall (fun v => np.isnan v = true) x →
  scaled_cells method n x = x ∧
  snd (scaled method n x)
  = if decide (method = "standard") then Standard np.nan np.nan
    else MinMax np.nan np.nan.
Proof.
  intros H. destruct (reductions_all_missing x H) as (Hmean & Hstd & Hmin & Hmax).
  unfold scaled_cells, scaled. rewrite Hmean, Hstd, Hmin, Hmax.
  destruct (decide (method = "standard")); simpl; by rewrite scale_all_missing.
Qed.

(** X15: a resolved column without a value (every cell missing, or no
    row at all) stays as it is under both methods, however many times its
    label is asked, and its fitted parameters are NaN: [{standard, NaN,
    NaN}] or [{minmax, NaN, NaN}]. *)
Theorem normalize_data_all_missing (w w' : world) (df out : ref) (t : DataFrame)
    (requested : option (list string)) (method : string)
    (params : gmap string fit) (c : string) (s : Series) (x : list float) :
  heap w !! df = Some t →
  wf_table t →
  normalize_data py_float df requested method w = (Ok (out, params), w') →
  c ∈ resolved t requested →
  getitem t c = Some s →
  astype_float py_float s = Ok x →
  Forall (fun v => np.isnan v = true) x →
  ∃ t', heap w' !! out = Some t' ∧
    getitem t' c = Some (Float64 x) ∧
    params !! c = Some (if decide (method = "standard") then Standard np.nan np.nan
                        else MinMax np.nan np.nan).
Proof.
  intros Hdf Hwf Hrun Hc Hs Hx Hmiss.
  destruct (normalize_data_returned _ _ _ _ _ _ _ _ _ Hdf Hrun) as (_ & t' & Hout & Hst).
  exists t'. split; [done|].
  destruct (normalize_steps_reach method c
              (fun y f => y = x ∧ f = if decide (method = "standard")
                                      then Standard np.nan np.nan
                                      else MinMax np.nan np.nan)
              _ _ _ _ Hwf Hst Hc) as (s' & x' & Hs' & Hx' & Hlen & Hreach).
  rewrite Hs in Hs'. injection Hs' as <-. rewrite Hx in Hx'. injection Hx' as <-.
  destruct Hreach as (y & f & Hy & Hf & -> & ->).
  - by apply scaled_all_missing.
  - intros y f [-> _] _. by apply scaled_all_missing.
  - done.
Qed.

Lemma scaled_cells_minmax (n : nat) (x : list float) :
  PrimFloat.eqb (np.nanmax x - np.nanmin x) 0 = false →
  scaled_cells "minmax" n x
  = map (fun v => ((v - np.nanmin x) / (np.nanmax x - np.nanmin x))%float) x.
Proof.
  intros Hnz. unfold scaled_cells, scaled. rewrite decide_False by done.
  simpl. by rewrite Hnz.
Qed.

(** X16: min-max scaling is stable under a repeated label.  For a
    resolved column whose computed range is finite and not 0, however
    many times its label is asked, the returned column holds for each cell
    of the input: a missing cell where it was missing, a value in [0, 1]
    where it held a value, 0 where it held the minimum and 1 where it held
    the maximum. *)
Theorem normalize_data_minmax_repeated (w w' : world) (df out : ref) (t : DataFrame)
    (requested : option (list string)) (params : gmap string fit)
    (c : string) (s : Series) (x : list float) :
  heap w !! df = Some t →
  wf_table t →
  normalize_data py_float df requested "minmax" w = (Ok (out, params), w') →
  c ∈ resolved t requested →
  getitem t c = Some s →
  astype_float py_float s = Ok x →
  PrimFloat.eqb (np.nanmax x - np.nanmin x) 0 = false →
  np.isfinite (np.nanmax x - np.nanmin x) = true →
  ∃ t' y, heap w' !! out = Some t' ∧
    getitem t' c = Some (Float64 y) ∧
    Forall2 (unit_cell (np.nanmin x) (np.nanmax x)) x y.
Proof.
  intros Hdf Hwf Hrun Hc Hs Hx Hnz Hfin.
  destruct (normalize_data_returned _ _ _ _ _ _ _ _ _ Hdf Hrun) as (_ & t' & Hout & Hst).
  destruct (normalize_steps_reach "minmax" c
              (fun y _ => Forall2 (unit_cell (np.nanmin x) (np.nanmax x)) x y)
              _ _ _ _ Hwf Hst Hc) as (s' & x' & Hs' & Hx' & Hlen & Hreach).
  rewrite Hs in Hs'. injection Hs' as <-. rewrite Hx in Hx'. injection Hx' as <-.
  destruct (nan_extrema_spec x (finite_range_dropna x Hfin))
    as ((Hmn & Nmn) & (Hmx & Nmx) & _).
  destruct Hreach as (y & f & Hy & _ & HR).
  - rewrite scaled_cells_minmax by done. by apply minmax_first.
  - intros y _ Hxy _.
    destruct (minmax_again _ _ x y Hmn Hmx Nmn Hxy) as [Hnz' Hxy'].
    by rewrite scaled_cells_minmax.
  - by exists t', y.
Qed.

(** ** Normalisation: columns that do not read as numbers *)

Lemma astype_float_error (s : Series) (e : exn) :
  astype_float py_float s = Raise e → ∃ msg, e = ValueError msg.
Proof.
  destruct s as [xs|xs|xs]; simpl; [done|done|].
  destruct (mapM _ xs); [done|]. intros [= <-]. by eexists.
Qed.

Lemma astype_float_text (xs : list pyobj) (s : string) :
  PyStr s ∈ xs → py_float s = None →
  ∃ msg, astype_float py_float (Object xs) = Raise (ValueError msg).
Proof.
  intros Hin Hs. simpl. rewrite (mapM_None_2 (pyobj_to_float py_float) xs).
  - by eexists.
  - apply Exists_exists. by exists (PyStr s).
Qed.

Lemma normalize_steps_text (method : string) (cols : list string)
    (st : DataFrame * gmap string fit) (c : string) (xs : list pyobj) (s : string) :
  (∀ k, k ∈ cols → k ∈ names (fst st)) →
  c ∈ cols →
  getitem (fst st) c = Some (Object xs) →
  PyStr s ∈ xs → py_float s = None →
  ∃ msg, normalize_steps py_float method cols st = Raise (ValueError msg).
Proof.
  intros Hin Hc Hg Hs Hnone. revert st Hin Hc Hg.
  induction cols as [|k cols IH]; intros st Hin Hc Hg; [by apply elem_of_nil in Hc|].
  simpl. unfold normalize_step.
  destruct (getitem_is_Some (fst st) k) as [s0 Hs0]; [apply Hin; left|].
  rewrite Hs0.
  destruct (astype_float py_float s0) as [x|e] eqn:Hx.
  - destruct (decide (k = c)) as [->|Hne].
    + rewrite Hg in Hs0. injection Hs0 as <-.
      destruct (astype_float_text xs s Hs Hnone) as [msg Hmsg]. by rewrite Hmsg in Hx.
    + apply IH; simpl.
      * intros k' Hk'. rewrite setitem_names by (apply Hin; left). apply Hin. by right.
      * by apply elem_of_cons in Hc as [->|].
      * by rewrite getitem_setitem, decide_False.
  - destruct (astype_float_error _ _ Hx) as [msg ->]. by eexists.
Qed.

(** What a call of [normalize_data] prints. *)
Lemma normalize_data_stdout (w : world) (df : ref) (t : DataFrame)
    (requested : option (list string)) (method : string) :
  heap w !! df = Some t →
  stdout (snd (normalize_data py_float df requested method w))
  = match fst (normalize_data py_float df requested method w) with
    | Ok _ => stdout w ++ [LogNormalize (resolved t requested) method]
    | Raise _ => stdout w
    end.
Proof.
  intros Hdf. unfold normalize_data.
  rewrite (bind_Ok _ _ _ _ _ (coerce_columns_run _ _ _ _ Hdf)).
  rewrite (bind_Ok _ _ _ _ _ (copy_run _ _ _ Hdf)).
  set (r1 := fresh (dom (heap w))).
  set (w1 := mkWorld (<[r1 := t]> (heap w)) (stdout w)).
  assert (H1 : heap w1 !! r1 = Some t) by apply lookup_insert_eq.
  simpl. destruct (decide (method ∉ ["standard"; "minmax"])) as [Hm|Hm]; [done|].
  destruct (for_each_normalize_run py_float (resolved t requested) w1 r1 t method ∅ H1)
    as (w2 & Hrun & Hstd & _).
  destruct (normalize_steps py_float method (resolved t requested) (t, ∅))
    as [[t' p']|e].
  - rewrite (bind_Ok _ _ _ _ _ Hrun). simpl. by rewrite Hstd.
  - rewrite (bind_Raise _ _ _ _ _ Hrun). simpl. by rewrite Hstd.
Qed.

(** X17: with a valid [method], a resolved object column holding a string
    that [float] rejects makes [normalize_data] raise ValueError; nothing
    is printed and the input table is as it was. *)
Theorem normalize_data_rejects_text (w : world) (df : ref) (t : DataFrame)
    (requested : option (list string)) (method : string)
    (c : string) (xs : list pyobj) (s : string) :
  heap w !! df = Some t →
  method ∈ ["standard"; "minmax"] →
  c ∈ resolved t requested →
  getitem t c = Some (Object xs) →
  PyStr s ∈ xs →
  py_float s = None →
  (∃ msg, fst (normalize_data py_float df requested method w) = Raise (ValueError msg)) ∧
  stdout (snd (normalize_data py_float df requested method w)) = stdout w ∧
  heap (snd (normalize_data py_float df requested method w)) !! df = Some t.
Proof.
  intros Hdf Hm Hc Hg Hs Hnone.
  destruct (normalize_steps_text method (resolved t requested) (t, ∅) c xs s
              (resolved_names t requested) Hc Hg Hs Hnone) as [msg Hmsg].
  assert (Hraise : fst (normalize_data py_float df requested method w)
                   = Raise (ValueError msg)).
  { destruct (normalize_data_run py_float w df t requested method Hdf)
      as (w' & -> & _). simpl.
    rewrite decide_False by (intros Hn; by apply Hn). by rewrite Hmsg. }
  split; [by exists msg|]. split.
  - by rewrite (normalize_data_stdout _ _ _ _ _ Hdf), Hraise.
  - destruct (normalize_data_run py_float w df t requested method Hdf)
      as (w' & -> & Hp & _). simpl. by apply (preserved_lookup w).
Qed.

(** ** Default arguments *)




(** ** What the calls print *)

Lemma getitem_list_median (t sub : DataFrame) (cols : list string) :
  getitem_list t cols = Ok sub →
  DataFrame_median sub
  = omap (fun c => s ← getitem t c; pair c <$> Series_median s) cols.
Proof.
  unfold getitem_list. destruct (decide _) as [_|]; [|done]. intros [= <-].
  unfold DataFrame_median. simpl.
  induction cols as [|c cols IH]; [done|]. cbn [omap list_omap].
  destruct (getitem t c) as [s|]; simpl; [|exact IH].
  destruct (Series_median s); simpl; by rewrite <- IH.
Qed.

(** X19: a call that returns has printed one line, after what was printed
    before, and a call that raises has printed nothing.  The line of
    [fill_missing_median] holds the resolved labels and the median of each
    resolved numeric column; the line of [drop_missing] holds the row
    counts of the input and of the result, with an empty [subset] shown as
    None; the line of [normalize_data] holds the resolved labels and the
    method. *)
Theorem calls_log_once (w : world) (df : ref) (t : DataFrame) :
  heap w !! df = Some t →
  (∀ requested,
     let r := fill_missing_median df requested w in
     stdout (snd r)
     = match fst r with
       | Ok _ =>
           stdout w ++
             [LogFill (resolved t requested)
                (omap (fun c => s ← getitem t c; pair c <$> Series_median s)
                      (resolved t requested))]
       | Raise _ => stdout w
       end) ∧
  (∀ how thresh subset,
     let r := drop_missing df how thresh subset w in
     stdout (snd r)
     = match returned_table r with
       | Ok t' =>
           stdout w ++
             [LogDrop (nrows t) (nrows t') how thresh
                (match subset with Some (c :: cs) => Some (c :: cs) | _ => None end)]
       | Raise _ => stdout w
       end) ∧
  (∀ requested method,
     let r := normalize_data py_float df requested method w in
     stdout (snd r)
     = match fst r with
       | Ok _ => stdout w ++ [LogNormalize (resolved t requested) method]
       | Raise _ => stdout w
       end).
Proof.
  intros Hdf. split; [|split].
  - intros requested r. subst r. rewrite (fill_missing_median_run _ _ _ _ Hdf). simpl.
    unfold filled.
    destruct (getitem_list t (resolved t requested)) as [sub|e] eqn:Hsub; [|done].
    destruct (setitem_list t _ _) as [t'|e]; [|done]. simpl.
    by rewrite (getitem_list_median t sub _ Hsub).
  - intros how thresh subset r. subst r.
    rewrite (drop_missing_returned _ _ _ _ _ _ Hdf).
    rewrite (drop_missing_run _ _ _ _ _ _ Hdf). simpl.
    by destruct (DataFrame_dropna t how thresh subset).
  - intros requested method r. subst r. by apply normalize_data_stdout.
Qed.

(** X20: a [columns] list that names no column of the table is not an
    error: [fill_missing_median] returns a table equal to the input, and
    [normalize_data] returns a table equal to the input with no fitted
    parameter. *)
Theorem unknown_columns_ignored (w : world) (df : ref) (t : DataFrame)
    (cs : list string) (method : string) :
  heap w !! df = Some t →
  (∀ c, c ∈ cs → c ∉ names t) →
  method ∈ ["standard"; "minmax"] →
  returned_table (fill_missing_median df (Some cs) w) = Ok t ∧
  ∃ out w', normalize_data py_float df (Some cs) method w = (Ok (out, ∅), w') ∧
            heap w' !! out = Some t.
Proof.
  intros Hdf Hcs Hm.
  assert (Hres : resolved t (Some cs) = []).
  { unfold resolved. induction cs as [|c cs IH]; [done|].
    rewrite filter_cons_False; [|apply Hcs; left].
    apply IH. intros c' Hc'. apply Hcs. by right. }
  split.
  - rewrite (fill_missing_median_returned _ _ _ _ Hdf), Hres.
    unfold filled, getitem_list, setitem_list. simpl. by destruct t.
  - destruct (normalize_data_run py_float w df t (Some cs) method Hdf)
      as (w' & Hrun & _ & Hout).
    rewrite Hres in *. rewrite decide_False in Hrun by (intros Hn; by apply Hn).
    simpl in Hrun. eexists _, w'. split; [exact Hrun|].
    by apply (Hout (t, ∅)).
Qed.

End NormalizeMore.

(** ** Resolving twice *)

Lemma filter_all {A : Type} (P : A → Prop) `{!∀ x, Decision (P x)} (l : list A) :
  Forall P l → filter P l = l.
Proof.
  induction 1 as [|x l Hx Hl IH]; [done|]. by rewrite filter_cons_True, IH.
Qed.

(** X21: resolving the columns [_coerce_columns] returned gives the same
    list: the labels it returns are labels of the table, repetitions
    included. *)
Theorem coerce_columns_idempotent (w : world) (df : ref) (t : DataFrame)
    (requested : option (list string)) :
  heap w !! df = Some t →
  (cols ← _coerce_columns df requested; _coerce_columns df (Some cols)) w
  = _coerce_columns df requested w.
Proof.
  intros Hdf. rewrite (bind_Ok _ _ _ _ _ (coerce_columns_run _ _ _ _ Hdf)).
  rewrite !(coerce_columns_run _ _ _ _ Hdf). do 2 f_equal. simpl.
  apply filter_all, Forall_forall, resolved_names.
Qed.

(** ** The theorems on the sample tables *)

Lemma coerce_columns_resolves_witness :
  ∃ cols, _coerce_columns df0 (Some ["name"; "zip"; "age"]) (world_of table_age)
          = (Ok cols, world_of table_age) ∧
    cols = filter (fun c => c ∈ names table_age) ["name"; "zip"; "age"] ∧
    sublist cols ["name"; "zip"; "age"] ∧
    (∀ c, c ∈ cols ↔ c ∈ ["name"; "zip"; "age"] ∧ c ∈ names table_age).
Proof.
  apply (coerce_columns_resolves (world_of table_age) df0 table_age
           (Some ["name"; "zip"; "age"])).
  reflexivity.
Defined.

Example coerce_columns_requested :
  fst (_coerce_columns df0 (Some ["name"; "zip"; "age"]) (world_of table_age))
  = Ok ["name"; "age"].
Proof. vm_compute. reflexivity. Qed.

Example coerce_columns_default :
  fst (_coerce_columns df0 None (world_of table_age)) = Ok ["age"].
Proof. vm_compute. reflexivity. Qed.

Lemma input_not_mutated_witness :
  (∀ requested,
     let r := fill_missing_median df0 requested (world_of table_age) in
     heap (snd r) !! df0 = Some table_age ∧ fresh_result id (world_of table_age) r) ∧
  (∀ how thresh subset,
     let r := drop_missing df0 how thresh subset (world_of table_age) in
     heap (snd r) !! df0 = Some table_age ∧ fresh_result id (world_of table_age) r) ∧
  (∀ requested method,
     let r := normalize_data no_float df0 requested method (world_of table_age) in
     heap (snd r) !! df0 = Some table_age ∧ fresh_result fst (world_of table_age) r).
Proof.
  apply (input_not_mutated no_float (world_of table_age) df0 table_age).
  reflexivity.
Defined.


Example drop_missing_all_scenario :
  returned_table (drop_missing df0 "all" None None (world_of table_ab))
  = Ok (mkDataFrame [0; 2]%Z
          [("a", Float64 [1; 3]%float); ("b", Float64 [np.nan; 4]%float)]).
Proof. vm_compute. reflexivity. Qed.


Lemma fill_missing_median_idempotent_witness :
  returned_table
    ((out ← fill_missing_median df0 None; fill_missing_median out None)
       (world_of table_age))
  = returned_table (fill_missing_median df0 None (world_of table_age)).
Proof.
  apply (fill_missing_median_idempotent (world_of table_age) df0 table_age None).
  - reflexivity.
  - decide_by_computing.
Defined.

Example fill_missing_median_scenario :
  returned_table (fill_missing_median df0 None (world_of table_age))
  = Ok (mkDataFrame [0; 1; 2]%Z
          [("age", Float64 [20; 30; 40]%float);
           ("name", Object [PyStr "ann"; PyNone; PyStr "cy"])]).
Proof. vm_compute. reflexivity. Qed.

Lemma fill_missing_median_all_missing_witness :
  getitem (mkDataFrame [0; 1]%Z
             [("v", Float64 [np.nan; np.nan]); ("k", Float64 [1; 1]%float)]) "v"
  = Some (Float64 [np.nan; np.nan]).
Proof.
  apply (fill_missing_median_all_missing (world_of table_void) df0 table_void _
           None "v" (Float64 [np.nan; np.nan])).
  - reflexivity.
  - decide_by_computing.
  - vm_compute. reflexivity.
  - decide_by_computing.
  - reflexivity.
  - decide_by_computing.
Defined.

Lemma normalize_data_rejects_method_witness :
  normalize_data no_float df0 None "robust" (world_of table_x)
  = (Raise (ValueError "method must be one of {standard, minmax}"),
     snd (DataFrame_copy df0 (world_of table_x))) ∧
  heap (snd (DataFrame_copy df0 (world_of table_x))) !! df0 = Some table_x ∧
  preserved (world_of table_x) (snd (DataFrame_copy df0 (world_of table_x))) ∧
  stdout (snd (DataFrame_copy df0 (world_of table_x))) = stdout (world_of table_x).
Proof.
  apply (normalize_data_rejects_method no_float (world_of table_x) df0 table_x
           None "robust").
  - reflexivity.
  - decide_by_computing.
  - decide_by_computing.
Defined.


Example normalize_data_standard_scenario :
  np.nanmean [1; 2; 3; 4; 5]%float = 3%float ∧
  np.nanstd 0 [1; 2; 3; 4; 5]%float = PrimFloat.sqrt 2.
Proof. vm_compute. by split. Qed.


Lemma normalize_data_minmax_witness :
  ∃ out params w',
    normalize_data no_float df0 None "minmax" (world_of table_x)
    = (Ok (out, params), w') ∧
    ∃ s x t',
      getitem table_x "x" = Some s ∧ astype_float no_float s = Ok x ∧
      heap w' !! out = Some t' ∧
      (PrimFloat.eqb (np.nanmax x - np.nanmin x) 0 = false →
       getitem t' "x"
       = Some (Float64 (map (fun v => ((v - np.nanmin x)
                                       / (np.nanmax x - np.nanmin x))%float) x)) ∧
       params !! "x" = Some (MinMax (np.nanmin x) (np.nanmax x))) ∧
      (PrimFloat.eqb (np.nanmax x - np.nanmin x) 0 = false →
       np.isfinite (np.nanmax x - np.nanmin x) = true →
       np.nanmin x ∈ x ∧ np.nanmax x ∈ x ∧
       (∀ v, v ∈ x → np.isnan v = false →
          PrimFloat.leb (np.nanmin x) v = true ∧
          PrimFloat.leb v (np.nanmax x) = true) ∧
       ((np.nanmin x - np.nanmin x) / (np.nanmax x - np.nanmin x))%float = 0%float ∧
       ((np.nanmax x - np.nanmin x) / (np.nanmax x - np.nanmin x))%float = 1%float ∧
       (∀ v, v ∈ x → np.isnan v = false →
          PrimFloat.leb 0 ((v - np.nanmin x) / (np.nanmax x - np.nanmin x)) = true ∧
          PrimFloat.leb ((v - np.nanmin x) / (np.nanmax x - np.nanmin x)) 1 = true) ∧
       (∀ v, v ∈ x → np.isnan v = true →
          np.isnan ((v - np.nanmin x) / (np.nanmax x - np.nanmin x)) = true)).
Proof.
  eexists _, _, _. split; [vm_compute; reflexivity|].
  apply (normalize_data_minmax no_float (world_of table_x) _ df0 _ table_x None _ "x").
  - reflexivity.
  - vm_compute. reflexivity.
  - vm_compute. reflexivity.
Defined.

(** The scenario of the specification: the column 1, 2, 3, 4, 5 under
    minmax has a finite range 4 and becomes 0, 0.25, 0.5, 0.75, 1. *)
Example normalize_data_minmax_scenario :
  ∃ out params w' t',
    normalize_data no_float df0 None "minmax" (world_of table_x)
    = (Ok (out, params), w') ∧
    heap w' !! out = Some t' ∧
    t' = mkDataFrame [0; 1; 2; 3; 4]%Z
           [("x", Float64 [0; 0.25; 0.5; 0.75; 1]%float)] ∧
    params = {[ "x" := MinMax 1 5 ]} ∧
    (np.nanmax [1; 2; 3; 4; 5] - np.nanmin [1; 2; 3; 4; 5])%float = 4%float ∧
    np.isfinite 4 = true.
Proof.
  eexists _, _, _, _. split; [vm_compute; reflexivity|].
  split; [vm_compute; reflexivity|]. split; [reflexivity|].
  split; [vm_compute; reflexivity|]. split; vm_compute; reflexivity.
Qed.

(** C5 as stated fails when the range overflows: for the two cells
    [-m] and [m], [m] the largest finite float, the range [m - (-m)] is
    infinite, so it is not 0; the minimum is mapped to 0 and the maximum
    to [inf / inf], which is NaN: it is not mapped to 1 and does not lie
    in [0, 1]. *)
Lemma normalize_data_minmax_overflow :
  ∃ out params w' t' mn mx y,
    normalize_data no_float df0 None "minmax" (world_of table_wide)
    = (Ok (out, params), w') ∧
    heap w' !! out = Some t' ∧
    "x" ∈ resolved table_wide None ∧
    getitem table_wide "x" = Some (Float64 [mn; mx]) ∧
    PrimFloat.ltb mn mx = true ∧
    np.isfinite mn = true ∧ np.isfinite mx = true ∧
    PrimFloat.eqb (mx - mn) 0 = false ∧
    params !! "x" = Some (MinMax mn mx) ∧
    getitem t' "x" = Some (Float64 [0%float; y]) ∧
    PrimFloat.eqb y 1 = false ∧
    PrimFloat.leb y 1 = false ∧
    PrimFloat.leb 0 y = false.
Proof.
  eexists _, _, _, _, _, _, _. split; [vm_compute; reflexivity|].
  split; [vm_compute; reflexivity|]. split; [decide_by_computing|].
  split; [reflexivity|].
  repeat split; vm_compute; reflexivity.
Defined.


Example normalize_data_constant_minmax :
  ∃ out w' t',
    normalize_data no_float df0 None "minmax" (world_of table_five)
    = (Ok (out, {[ "x" := MinMax 5 5 ]}), w') ∧
    heap w' !! out = Some t' ∧
    t' = mkDataFrame [0; 1; 2]%Z [("x", Float64 [0; 0; 0]%float)].
Proof.
  eexists _, _, _. split; [vm_compute; reflexivity|].
  split; [vm_compute; reflexivity|]. reflexivity.
Qed.


(** ** The further properties on the sample tables *)


Example drop_missing_any_scenario :
  returned_table (drop_missing df0 "any" None None (world_of table_ab))
  = Ok (mkDataFrame [2]%Z [("a", Float64 [3]%float); ("b", Float64 [4]%float)]).
Proof. vm_compute. reflexivity. Qed.



Example drop_missing_unknown_label :
  fst (drop_missing df0 "some" None (Some ["a"; "z"]) (world_of table_ab))
  = Raise (KeyError ["z"]) ∧
  fst (drop_missing df0 "some" None (Some ["a"]) (world_of table_ab))
  = Raise (ValueError "invalid how option").
Proof. split; vm_compute; reflexivity. Qed.







Example drop_missing_thresh_scenario :
  returned_table (drop_missing df0 "any" (Some 0%Z) None (world_of table_ab)) = Ok table_ab ∧
  returned_table (drop_missing df0 "any" (Some 3%Z) None (world_of table_ab))
  = Ok (mkDataFrame [] [("a", Float64 []); ("b", Float64 [])]).
Proof. split; vm_compute; reflexivity. Qed.

Lemma fill_missing_median_cells_witness :
  ∃ t', returned_table (fill_missing_median df0 None (world_of table_age)) = Ok t' ∧
    wf_table t' ∧ index t' = index table_age ∧ names t' = names table_age ∧
    ∀ c s, getitem table_age c = Some s →
      getitem t' c
      = Some (match s with
              | Float64 xs =>
                  if decide (c ∈ resolved table_age None)
                  then Float64 (map (fun x => if np.isnan x then np.nanmedian xs else x) xs)
                  else s
              | _ => s
              end).
Proof.
  apply (fill_missing_median_cells (world_of table_age) df0 table_age None).
  - reflexivity.
  - decide_by_computing.
  - decide_by_computing.
Defined.

Lemma fill_missing_median_clean_witness :
  returned_table (fill_missing_median df0 None (world_of table_clean)) = Ok table_clean.
Proof.
  apply (fill_missing_median_clean (world_of table_clean) df0 table_clean None).
  - reflexivity.
  - decide_by_computing.
  - decide_by_computing.
  - intros c xs Hc Hg.
    assert (Hx : xs = [1; 2]%float).
    { apply list_elem_of_In in Hc. simpl in Hc.
      destruct Hc as [<-|[<-|[]]]; vm_compute in Hg; congruence. }
    rewrite Hx. by repeat constructor.
Defined.

Lemma fill_missing_median_no_missing_left_witness :
  ∃ ys, getitem (mkDataFrame [0; 1; 2]%Z
                   [("age", Float64 [20; 30; 40]%float);
                    ("name", Object [PyStr "ann"; PyNone; PyStr "cy"])]) "age"
        = Some (Float64 ys) ∧
    Forall (fun y => np.isnan y = false) ys ∧
    Forall2 (fun x y => if np.isnan x then y = np.nanmedian [20; np.nan; 40]%float
                        else y = x)
            [20; np.nan; 40]%float ys.
Proof.
  apply (fill_missing_median_no_missing_left (world_of table_age) df0 table_age
           (mkDataFrame [0; 1; 2]%Z
              [("age", Float64 [20; 30; 40]%float);
               ("name", Object [PyStr "ann"; PyNone; PyStr "cy"])])
           None "age" [20; np.nan; 40]%float).
  - reflexivity.
  - decide_by_computing.
  - vm_compute. reflexivity.
  - decide_by_computing.
  - reflexivity.
  - split; [vm_compute; discriminate|]. by repeat constructor.
Defined.


Lemma normalize_data_shape_witness :
  ∃ out params w',
    normalize_data no_float df0 None "standard" (world_of table_age)
    = (Ok (out, params), w') ∧
    ∃ t', heap w' !! out = Some t' ∧
      wf_table t' ∧ index t' = index table_age ∧ names t' = names table_age ∧
      (∀ c, c ∉ resolved table_age None → getitem t' c = getitem table_age c) ∧
      (∀ c, c ∈ resolved table_age None →
         ∃ y, getitem t' c = Some (Float64 y) ∧ length y = nrows table_age).
Proof.
  eexists _, _, _. split; [vm_compute; reflexivity|].
  eapply (normalize_data_shape no_float (world_of table_age) _ df0 _ table_age None
            "standard").
  - reflexivity.
  - decide_by_computing.
  - vm_compute. reflexivity.
Defined.

Lemma normalize_data_all_missing_witness :
  ∃ out params w',
    normalize_data no_float df0 (Some ["v"; "v"]) "standard" (world_of table_void)
    = (Ok (out, params), w') ∧
    ∃ t', heap w' !! out = Some t' ∧
      getitem t' "v" = Some (Float64 [np.nan; np.nan]) ∧
      params !! "v" = Some (if decide ("standard" = "standard")
                            then Standard np.nan np.nan else MinMax np.nan np.nan).
Proof.
  eexists _, _, _. split; [vm_compute; reflexivity|].
  apply (normalize_data_all_missing no_float (world_of table_void) _ df0 _ table_void
           (Some ["v"; "v"]) "standard" _ "v" (Float64 [np.nan; np.nan])).
  - reflexivity.
  - decide_by_computing.
  - vm_compute. reflexivity.
  - decide_by_computing.
  - reflexivity.
  - reflexivity.
  - by repeat constructor.
Defined.

Lemma normalize_data_minmax_repeated_witness :
  ∃ out params w',
    normalize_data no_float df0 (Some ["x"; "x"]) "minmax" (world_of table_x3)
    = (Ok (out, params), w') ∧
    ∃ t' y, heap w' !! out = Some t' ∧
      getitem t' "x" = Some (Float64 y) ∧
      Forall2 (unit_cell (np.nanmin [1; 2; 3]%float) (np.nanmax [1; 2; 3]%float))
              [1; 2; 3]%float y.
Proof.
  eexists _, _, _. split; [vm_compute; reflexivity|].
  eapply (normalize_data_minmax_repeated no_float (world_of table_x3) _ df0 _ table_x3
            (Some ["x"; "x"]) _ "x" (Float64 [1; 2; 3]%float)).
  - reflexivity.
  - decide_by_computing.
  - vm_compute. reflexivity.
  - decide_by_computing.
  - reflexivity.
  - reflexivity.
  - vm_compute. reflexivity.
  - vm_compute. reflexivity.
Defined.

Example normalize_data_minmax_twice :
  ∃ out w' t',
    normalize_data no_float df0 (Some ["x"; "x"]) "minmax" (world_of table_x3)
    = (Ok (out, {[ "x" := MinMax 0 1 ]}), w') ∧
    heap w' !! out = Some t' ∧
    t' = mkDataFrame [0; 1; 2]%Z [("x", Float64 [0; 0.5; 1]%float)].
Proof.
  eexists _, _, _. split; [vm_compute; reflexivity|].
  split; [vm_compute; reflexivity|]. reflexivity.
Qed.

Lemma normalize_data_rejects_text_witness :
  (∃ msg, fst (normalize_data no_float df0 (Some ["age"; "name"]) "minmax"
                 (world_of table_age)) = Raise (ValueError msg)) ∧
  stdout (snd (normalize_data no_float df0 (Some ["age"; "name"]) "minmax"
                 (world_of table_age))) = stdout (world_of table_age) ∧
  heap (snd (normalize_data no_float df0 (Some ["age"; "name"]) "minmax"
               (world_of table_age))) !! df0 = Some table_age.
Proof.
  apply (normalize_data_rejects_text no_float (world_of table_age) df0 table_age
           (Some ["age"; "name"]) "minmax" "name"
           [PyStr "ann"; PyNone; PyStr "cy"] "ann").
  - reflexivity.
  - decide_by_computing.
  - decide_by_computing.
  - reflexivity.
  - left.
  - reflexivity.
Defined.


Lemma calls_log_once_witness :
  (∀ requested,
     let r := fill_missing_median df0 requested (world_of table_age) in
     stdout (snd r)
     = match fst r with
       | Ok _ =>
           stdout (world_of table_age) ++
             [LogFill (resolved table_age requested)
                (omap (fun c => s ← getitem table_age c; pair c <$> Series_median s)
                      (resolved table_age requested))]
       | Raise _ => stdout (world_of table_age)
       end) ∧
  (∀ how thresh subset,
     let r := drop_missing df0 how thresh subset (world_of table_age) in
     stdout (snd r)
     = match returned_table r with
       | Ok t' =>
           stdout (world_of table_age) ++
             [LogDrop (nrows table_age) (nrows t') how thresh
                (match subset with Some (c :: cs) => Some (c :: cs) | _ => None end)]
       | Raise _ => stdout (world_of table_age)
       end) ∧
  (∀ requested method,
     let r := normalize_data no_float df0 requested method (world_of table_age) in
     stdout (snd r)
     = match fst r with
       | Ok _ => stdout (world_of table_age) ++ [LogNormalize (resolved table_age requested) method]
       | Raise _ => stdout (world_of table_age)
       end).
Proof.
  apply (calls_log_once no_float (world_of table_age) df0 table_age).
  reflexivity.
Defined.

Example fill_missing_median_prints :
  stdout (snd (fill_missing_median df0 None (world_of table_age)))
  = [LogFill ["age"] [("age", 30%float)]] ∧
  stdout (snd (drop_missing df0 "any" None (Some []) (world_of table_age)))
  = [LogDrop 3 3 "any" None None].
Proof. split; vm_compute; reflexivity. Qed.

Lemma unknown_columns_ignored_witness :
  returned_table (fill_missing_median df0 (Some ["zip"]) (world_of table_age))
  = Ok table_age ∧
  ∃ out w', normalize_data no_float df0 (Some ["zip"]) "minmax" (world_of table_age)
            = (Ok (out, ∅), w') ∧
            heap w' !! out = Some table_age.
Proof.
  apply (unknown_columns_ignored no_float (world_of table_age) df0 table_age
           ["zip"] "minmax").
  - reflexivity.
  - apply Forall_forall. decide_by_computing.
  - decide_by_computing.
Defined.

Lemma coerce_columns_idempotent_witness :
  (cols ← _coerce_columns df0 (Some ["name"; "zip"; "name"]);
   _coerce_columns df0 (Some cols)) (world_of table_age)
  = _coerce_columns df0 (Some ["name"; "zip"; "name"]) (world_of table_age).
Proof.
  apply (coerce_columns_idempotent (world_of table_age) df0 table_age
           (Some ["name"; "zip"; "name"])).
  reflexivity.
Defined.

Example coerce_columns_keeps_repetitions :
  fst (_coerce_columns df0 (Some ["name"; "zip"; "name"]) (world_of table_age))
  = Ok ["name"; "name"].
Proof. vm_compute. reflexivity. Qed.
